(** * A shallow embedding of the context model, the plain MDP world model
      and the mean-correlation metric.

    Tensors of floats are idealised as tensors of real numbers: a tensor is
    a shape, its row-major data and the device it lives on.  A correlation
    that numpy leaves undefined is the value [NaN].  Python exceptions are
    values of [exn], and a call that may raise returns a [result]. *)

From Stdlib Require Import String Reals Lra Lia ZArith Bool Arith List Permutation Sorted DecimalString.
Import ListNotations.

Local Open Scope R_scope.

(** ** Exceptions and results *)

Inductive exn : Type :=
| ValueError (msg : string)
| AssertionError (msg : string)
| IndexError
| TypeError
| RuntimeError.

(** A call either raises or returns. *)
Definition result (A : Type) : Type := (exn + A)%type.

Definition ok {A} (a : A) : result A := inr a.
Definition raise {A} (e : exn) : result A := inl e.
Definition bind {A B} (c : result A) (k : A -> result B) : result B :=
  match c with
  | inl e => inl e
  | inr a => k a
  end.

Declare Scope result_scope.
Delimit Scope result_scope with result.
Notation "x <- c ;; k" := (bind c (fun x => k))
  (at level 61, c at next level, right associativity) : result_scope.
Notation "' p <- c ;; k" := (bind c (fun x => let p := x in k))
  (at level 61, p pattern, c at next level, right associativity) : result_scope.

(** ** Lists as row-major storage *)

Fixpoint chunks {A} (size count : nat) (l : list A) : list (list A) :=
  match count with
  | O => []
  | S c => firstn size l :: chunks size c (skipn size l)
  end.

Fixpoint map2 {A B C} (f : A -> B -> C) (la : list A) (lb : list B) : list C :=
  match la, lb with
  | a :: la', b :: lb' => f a b :: map2 f la' lb'
  | _, _ => []
  end.

Definition Rsum (l : list R) : R := fold_right Rplus 0 l.

(** ** Tensors *)

Module Tensor.

Inductive device : Type := cpu | cuda (index : nat).

Definition device_eqb (a b : device) : bool :=
  match a, b with
  | cpu, cpu => true
  | cuda i, cuda j => Nat.eqb i j
  | _, _ => false
  end.

Record tensor (A : Type) : Type := mk {
  shape : list nat;
  data : list A;
  dev : device
}.
Arguments mk {A} _ _ _.
Arguments shape {A} _.
Arguments data {A} _.
Arguments dev {A} _.

Definition numel (s : list nat) : nat := fold_right Nat.mul 1%nat s.

(** A tensor is well shaped when it holds as many values as its shape says. *)
Definition wf {A} (t : tensor A) : Prop := length (data t) = numel (shape t).

Definition tmap {A B} (f : A -> B) (t : tensor A) : tensor B :=
  mk (shape t) (map f (data t)) (dev t).

(** [t.to(device)] *)
Definition to {A} (t : tensor A) (d : device) : tensor A :=
  mk (shape t) (data t) d.

(** [torch.empty(n)] for [n = 0], the only size the sources ask for. *)
Definition empty0 {A} : tensor A := mk [0%nat] [] cpu.

(** [torch.zeros_like(t)] *)
Definition zeros_like (t : tensor R) : tensor R := tmap (fun _ => 0) t.

(** [t.shape[-1]] *)
Definition last_dim {A} (t : tensor A) : result nat :=
  match rev (shape t) with
  | [] => raise IndexError
  | k :: _ => ok k
  end.

(** [t[..., 0]] *)
Definition select_last0 {A} (t : tensor A) : result (tensor A) :=
  match rev (shape t) with
  | [] => raise IndexError
  | O :: _ => raise IndexError
  | S k :: lead =>
      ok (mk (rev lead)
             (flat_map (firstn 1) (chunks (S k) (numel lead) (data t)))
             (dev t))
  end.

(** [table[idx]] for an integer tensor [idx]: one row of [table] per
    index; a negative index counts from the end. *)
Definition resolve_index (n : nat) (i : Z) : result nat :=
  if (0 <=? i)%Z && (i <? Z.of_nat n)%Z then ok (Z.to_nat i)
  else if (- Z.of_nat n <=? i)%Z && (i <? 0)%Z then ok (Z.to_nat (i + Z.of_nat n))
  else raise IndexError.

Definition row {A} (width : nat) (d : list A) (i : nat) : list A :=
  firstn width (skipn (i * width) d).

Fixpoint gather {A} (n width : nat) (d : list A) (idx : list Z) : result (list A) :=
  match idx with
  | [] => ok []
  | i :: idx' =>
      bind (resolve_index n i) (fun r =>
      bind (gather n width d idx') (fun rest =>
      ok (row width d r ++ rest)))
  end.

Definition index_rows {A} (table : tensor A) (idx : tensor Z) : result (tensor A) :=
  match shape table with
  | n :: tail =>
      bind (gather n (numel tail) (data table) (data idx)) (fun d =>
      ok (mk (shape idx ++ tail) d (dev table)))
  | [] => raise IndexError
  end.

Fixpoint resolve_all (n : nat) (idx : list Z) : result (list nat) :=
  match idx with
  | [] => ok []
  | i :: idx' =>
      bind (resolve_index n i) (fun r =>
      bind (resolve_all n idx') (fun rest => ok (r :: rest)))
  end.

(** [t[:, idx]] for a list of indices *)
Definition select_columns {A} (t : tensor A) (idx : list Z) : result (tensor A) :=
  match shape t with
  | n0 :: n1 :: rest =>
      bind (resolve_all n1 idx) (fun cols =>
      ok (mk (n0 :: length idx :: rest)
             (flat_map (fun blk => flat_map (row (numel rest) blk) cols)
                       (chunks (n1 * numel rest) n0 (data t)))
             (dev t)))
  | _ => raise IndexError
  end.

(** Python's slice bounds on a dimension of size [n]. *)
Definition slice_bound (n : nat) (default : nat) (b : option Z) : nat :=
  match b with
  | None => default
  | Some z => if (z <? 0)%Z then Z.to_nat (Z.max (z + Z.of_nat n) 0)
              else Nat.min (Z.to_nat z) n
  end.

(** [t[:, start:stop]] *)
Definition slice_dim1 {A} (start stop : option Z) (t : tensor A) : result (tensor A) :=
  match shape t with
  | n0 :: n1 :: rest =>
      let a := slice_bound n1 0%nat start in
      let b := slice_bound n1 n1 stop in
      let inner := numel rest in
      ok (mk (n0 :: (b - a)%nat :: rest)
             (flat_map (fun blk => firstn ((b - a) * inner) (skipn (a * inner) blk))
                       (chunks (n1 * inner) n0 (data t)))
             (dev t))
  | _ => raise IndexError
  end.

(** [t.reshape(s)] *)
Definition reshape {A} (t : tensor A) (s : list nat) : result (tensor A) :=
  if Nat.eqb (numel s) (numel (shape t)) then ok (mk s (data t) (dev t))
  else raise RuntimeError.

(** Broadcasting.  Shapes are aligned on the right; a dimension of size
    one stretches. *)
Fixpoint broadcast_rev (ra rb : list nat) : option (list nat) :=
  match ra, rb with
  | [], _ => Some rb
  | _, [] => Some ra
  | a :: ra', b :: rb' =>
      match broadcast_rev ra' rb' with
      | None => None
      | Some r =>
          if Nat.eqb a b then Some (a :: r)
          else if Nat.eqb a 1 then Some (b :: r)
          else if Nat.eqb b 1 then Some (a :: r)
          else None
      end
  end.

Definition broadcast_shapes (sa sb : list nat) : option (list nat) :=
  option_map (@rev nat) (broadcast_rev (rev sa) (rev sb)).

Definition pad_left (rank : nat) (s : list nat) : list nat :=
  repeat 1%nat (rank - length s) ++ s.

Fixpoint expand {A} (s target : list nat) (d : list A) : list A :=
  match s, target with
  | n :: s', t :: target' =>
      let blocks := chunks (numel s') n d in
      concat (map (fun i => expand s' target'
                              (nth (if Nat.eqb n 1 then 0%nat else i) blocks []))
                  (seq 0 t))
  | _, _ => d
  end.

(** [a + b] *)
Definition add (a b : tensor R) : result (tensor R) :=
  if negb (device_eqb (dev a) (dev b)) then raise RuntimeError
  else match broadcast_shapes (shape a) (shape b) with
       | None => raise RuntimeError
       | Some s =>
           let rank := length s in
           ok (mk s
                  (map2 Rplus (expand (pad_left rank (shape a)) s (data a))
                              (expand (pad_left rank (shape b)) s (data b)))
                  (dev a))
       end.

(** [torch.cat(ts, dim=-1)].  A one-dimensional tensor of shape [(0,)] is
    skipped; the others must agree on every dimension but the last, and
    all must live on one device. *)
Definition is_legacy_empty {A} (t : tensor A) : bool :=
  match shape t with
  | [O] => true
  | _ => false
  end.

Definition cat2_last {A} (a b : tensor A) : result (tensor A) :=
  match rev (shape a), rev (shape b) with
  | ka :: la, kb :: lb =>
      if list_eq_dec Nat.eq_dec la lb then
        ok (mk (rev la ++ [ka + kb]%nat)
               (concat (map2 (@app A) (chunks ka (numel la) (data a))
                                      (chunks kb (numel la) (data b))))
               (dev a))
      else raise RuntimeError
  | _, _ => raise RuntimeError
  end.

Fixpoint cat_from {A} (acc : tensor A) (ts : list (tensor A)) : result (tensor A) :=
  match ts with
  | [] => ok acc
  | t :: ts' =>
      if is_legacy_empty t then cat_from acc ts'
      else if is_legacy_empty acc then
        match shape t with
        | [] => raise RuntimeError
        | _ => cat_from t ts'
        end
      else bind (cat2_last acc t) (fun acc' => cat_from acc' ts')
  end.

Definition cat_last {A} (ts : list (tensor A)) : result (tensor A) :=
  match ts with
  | [] => raise RuntimeError
  | t :: ts' =>
      if forallb (fun u => device_eqb (dev t) (dev u)) ts' then
        match shape t with
        | [] => raise RuntimeError
        | _ => cat_from t ts'
        end
      else raise RuntimeError
  end.

(** [t.reshape(-1, dim)] *)
Definition reshape_rows {A} (t : tensor A) (dim : nat) : result (tensor A) :=
  if Nat.eqb dim 0 then raise RuntimeError
  else if Nat.eqb (numel (shape t) mod dim) 0 then
    ok (mk [(numel (shape t) / dim)%nat; dim] (data t) (dev t))
  else raise RuntimeError.

(** [a, b = t.chunk(2, dim=-1)]: pieces of [ceil(D / 2)] columns; a last
    dimension of size 1 gives one piece only, which cannot be unpacked. *)
Definition chunk2_last {A} (t : tensor A) : result (tensor A * tensor A) :=
  match rev (shape t) with
  | [] => raise RuntimeError
  | D :: lead =>
      if Nat.eqb D 1 then
        raise (ValueError "not enough values to unpack (expected 2, got 1)")
      else
        let size := ((D + 1) / 2)%nat in
        let blocks := chunks D (numel lead) (data t) in
        ok (mk (rev lead ++ [size]) (flat_map (firstn size) blocks) (dev t),
            mk (rev lead ++ [(D - size)%nat]) (flat_map (skipn size) blocks) (dev t))
  end.

End Tensor.
Import Tensor.

(** ** The mean correlation coefficient (tdfa/utils/metrics.py) *)

Module Metrics.

(** A float that may be NaN. *)
Inductive npfloat : Type := NaN | Fin (r : R).

Definition fabs (v : npfloat) : npfloat :=
  match v with NaN => NaN | Fin r => Fin (Rabs r) end.

Definition fscale (k : R) (v : npfloat) : npfloat :=
  match v with NaN => NaN | Fin r => Fin (k * r) end.

Definition fadd (u v : npfloat) : npfloat :=
  match u, v with Fin a, Fin b => Fin (a + b) | _, _ => NaN end.

(** Division of a float by a Python int; the only division by zero the
    source can reach is 0.0 / 0. *)
Definition fdiv_nat (v : npfloat) (k : nat) : npfloat :=
  match v with
  | NaN => NaN
  | Fin r => if Nat.eqb k 0 then NaN else Fin (r / INR k)
  end.

Definition np_sum (l : list npfloat) : npfloat := fold_right fadd (Fin 0) l.

Definition finite (v : npfloat) : option R :=
  match v with NaN => None | Fin r => Some r end.

Fixpoint all_some {A} (l : list (option A)) : option (list A) :=
  match l with
  | [] => Some []
  | None :: _ => None
  | Some a :: l' => option_map (cons a) (all_some l')
  end.

Definition finite_matrix (m : list (list npfloat)) : option (list (list R)) :=
  all_some (map (fun r => all_some (map finite r)) m).

(** The library calls the function makes, in order. *)
Inductive call : Type :=
| call_corrcoef
| call_spearmanr
| call_linear_sum_assignment.

Definition traced (A : Type) : Type := (list call * result A)%type.

Definition tret {A} (a : A) : traced A := ([], ok a).
Definition traise {A} (e : exn) : traced A := ([], raise e).
Definition tcall (c : call) : traced unit := ([c], ok tt).
Definition tlift {A} (r : result A) : traced A := ([], r).
Definition tbind {A B} (c : traced A) (k : A -> traced B) : traced B :=
  match c with
  | (tr, inl e) => (tr, inl e)
  | (tr, inr a) => let '(tr', r) := k a in (tr ++ tr', r)
  end.

Declare Scope traced_scope.
Delimit Scope traced_scope with traced.
Notation "x <- c ;; k" := (tbind c (fun x => k))
  (at level 61, c at next level, right associativity) : traced_scope.
Notation "c ;; k" := (tbind c (fun _ => k))
  (at level 61, right associativity) : traced_scope.

(** Columns of a two-dimensional array. *)
Definition column (x : tensor R) (j : nat) : list R :=
  map (fun i => nth (i * nth 1 (shape x) 0 + j)%nat (data x) 0)
      (seq 0 (nth 0 (shape x) 0%nat)).

Definition columns (x : tensor R) : list (list R) :=
  map (column x) (seq 0 (nth 1 (shape x) 0%nat)).

(** [np.corrcoef]: covariance with [N - 1] in the denominator, divided by
    both standard deviations, clipped to [-1, 1]. *)
Definition mean (a : list R) : R := Rsum a / INR (length a).

Definition cov (a b : list R) : R :=
  Rsum (map2 (fun u v => (u - mean a) * (v - mean b)) a b) / (INR (length a) - 1).

Definition clip (lo hi v : R) : R := Rmin hi (Rmax lo v).

Definition pearson_r (a b : list R) : R :=
  clip (-1) 1 (cov a b / sqrt (cov a a) / sqrt (cov b b)).

(** An entry is NaN when one of the two variances is zero (0 / 0), as it
    is with fewer than two observations. *)
Definition corr_entry (a b : list R) : npfloat :=
  if Req_dec_T (cov a a) 0 then NaN
  else if Req_dec_T (cov b b) 0 then NaN
  else Fin (pearson_r a b).

Definition corr_matrix (vars : list (list R)) : list (list npfloat) :=
  map (fun a => map (corr_entry a) vars) vars.

(** Rows of a two-dimensional array. *)
Definition rows (x : tensor R) : list (list R) :=
  map (fun i => map (fun j => nth (i * nth 1 (shape x) 0 + j)%nat (data x) 0)
                    (seq 0 (nth 1 (shape x) 0%nat)))
      (seq 0 (nth 0 (shape x) 0%nat)).

(** What a correlation routine hands back: the Python float nan, a numpy
    scalar, or a matrix. *)
Inductive correlation : Type :=
| py_nan
| rho_scalar (r : npfloat)
| rho_matrix (m : list (list npfloat)).

(** [np.array(a, ndmin=2)]: ones are put in front of the shape. *)
Definition ndmin2 (name : string) (a : tensor R) : result (tensor R) :=
  match shape a with
  | [] => ok (Tensor.mk [1; 1]%nat (data a) (dev a))
  | [k] => ok (Tensor.mk [1%nat; k] (data a) (dev a))
  | [_; _] => ok a
  | _ => raise (ValueError (name ++ " has more than 2 dimensions"))
  end.

Definition stack_message : string :=
  "all the input array dimensions except for the concatenation axis must match exactly".

(** The variables [np.cov(m, y, rowvar=False)] works on, one list of
    observations each (numpy 2).  [m] is transposed unless it has one
    dimension; with no variable in [m] the covariance is the empty matrix
    and [y] is not looked at any further.  [y] is transposed unless it has a
    single row, which is then one variable.  Stacking the two needs as many
    observations in [y] as in [m]. *)
Definition cov_variables (m y : tensor R) : result (list (list R)) :=
  (m2 <- ndmin2 "m" m ;;
   y2 <- ndmin2 "y" y ;;
   let flip_m := negb (Nat.eqb (length (shape m)) 1) in
   let X := if flip_m then columns m2 else rows m2 in
   let N := nth (if flip_m then 0 else 1)%nat (shape m2) 0%nat in
   match X with
   | [] => ok []
   | _ :: _ =>
       let flip_y := negb (Nat.eqb (nth 0 (shape y2) 0%nat) 1) in
       let Y := if flip_y then columns y2 else rows y2 in
       let N' := nth (if flip_y then 0 else 1)%nat (shape y2) 0%nat in
       if Nat.eqb N N' then ok (X ++ Y) else raise (ValueError stack_message)
   end)%result.

(** The correlations of stacked variables.  The covariance of a single
    variable is squeezed to a scalar [c], and the result is [c / c]. *)
Definition corrcoef_of (vars : list (list R)) : correlation :=
  match vars with
  | [a] => rho_scalar (if Req_dec_T (cov a a) 0 then NaN else Fin 1)
  | _ => rho_matrix (corr_matrix vars)
  end.

(** [np.corrcoef(x, y, rowvar=False)] *)
Definition np_corrcoef (x y : tensor R) : traced correlation :=
  (tcall call_corrcoef ;;
   vars <- tlift (cov_variables x y) ;;
   tret (corrcoef_of vars))%traced.

(** [scipy.stats.rankdata], ties share the average rank. *)
Definition count_lt (a : list R) (v : R) : nat :=
  length (filter (fun u => if Rlt_dec u v then true else false) a).

Definition count_eq (a : list R) (v : R) : nat :=
  length (filter (fun u => if Req_dec_T u v then true else false) a).

Definition rank (a : list R) (v : R) : R :=
  INR (count_lt a v) + (INR (count_eq a v) + 1) / 2.

Definition rankdata (a : list R) : list R := map (rank a) a.

(** An array of fewer than two dimensions is a column
    ([_chk_asarray], then [np.column_stack]). *)
Definition as_columns (a : tensor R) : option (tensor R) :=
  match shape a with
  | [] => Some (Tensor.mk [1; 1]%nat (data a) (dev a))
  | [k] => Some (Tensor.mk [k; 1%nat] (data a) (dev a))
  | [_; _] => Some a
  | _ => None
  end.

(** The variables [spearmanr(a, b)] works on, and the number of
    observations of each. *)
Definition column_stack (a b : tensor R) : result (list (list R) * nat) :=
  match as_columns a with
  | None => raise (ValueError "spearmanr only handles 1-D or 2-D arrays")
  | Some a2 =>
      match as_columns b with
      | None =>
          raise (ValueError "all the input arrays must have same number of dimensions")
      | Some b2 =>
          if Nat.eqb (nth 0 (shape a2) 0%nat) (nth 0 (shape b2) 0%nat)
          then ok (columns a2 ++ columns b2, nth 0 (shape a2) 0%nat)
          else raise (ValueError stack_message)
      end
  end.

(** [(a[0] == a).all()] *)
Definition is_constant (a : list R) : bool :=
  forallb (fun v => if Req_dec_T (hd 0 a) v then true else false) a.

(** [spearmanr(...)[0]] on stacked variables.  With at most one observation,
    or when the first or the second variable is constant, it is the float
    nan; the second variable is looked at only when the first one is not
    constant, and indexing a variable that is not there raises.  Otherwise
    the ranks are correlated, and for two variables the matrix is replaced
    by its entry [1, 0]. *)
Definition spearman_rho (vars : list (list R)) (n_obs : nat) : result correlation :=
  if (n_obs <=? 1)%nat then ok py_nan
  else
    match vars with
    | [] => raise IndexError
    | a0 :: rest =>
        if is_constant a0 then ok py_nan
        else
          match rest with
          | [] => raise IndexError
          | a1 :: _ =>
              if is_constant a1 then ok py_nan
              else
                ok (match map rankdata vars with
                    | [a; b] => rho_scalar (corr_entry b a)
                    | ranked => rho_matrix (corr_matrix ranked)
                    end)
          end
    end.

(** [scipy.stats.spearmanr(x, y)[0]] *)
Definition spearmanr (x y : tensor R) : traced correlation :=
  (tcall call_spearmanr ;;
   stacked <- tlift (column_stack x y) ;;
   tlift (spearman_rho (fst stacked) (snd stacked)))%traced.

(** [m[:d, d:]] *)
Definition block {A} (d : nat) (m : list (list A)) : list (list A) :=
  map (skipn d) (firstn d m).

(** [c[:d, d:]]: a float cannot be subscripted, a numpy scalar cannot be
    indexed. *)
Definition correlation_block (d : nat) (c : correlation) : result (list (list npfloat)) :=
  match c with
  | py_nan => raise TypeError
  | rho_scalar _ => raise IndexError
  | rho_matrix m => ok (block d m)
  end.

(** An assignment is the pair [(row_ind, col_ind)]. *)
Definition assignment : Type := (list nat * list nat)%type.

Definition entry (c : list (list R)) (i j : nat) : R := nth j (nth i c []) 0.

Definition total (c : list (list R)) (a : assignment) : R :=
  Rsum (map2 (entry c) (fst a) (snd a)).

(** [cc[permutation]] *)
Fixpoint fancy_index (cc : list (list npfloat)) (rows cols : list nat) : result (list npfloat) :=
  match rows, cols with
  | i :: rows', j :: cols' =>
      match nth_error cc i with
      | None => raise IndexError
      | Some r =>
          match nth_error r j with
          | None => raise IndexError
          | Some v => bind (fancy_index cc rows' cols') (fun rest => ok (v :: rest))
          end
      end
  | _, _ => ok []
  end.

Inductive mcc_value : Type :=
| score_only (score : npfloat)
| score_and_permutation (score : npfloat) (permutation : assignment).

Definition score_of (v : mcc_value) : npfloat :=
  match v with
  | score_only s => s
  | score_and_permutation s _ => s
  end.

Section Solver.

(** The assignment solver behind [scipy.optimize.linear_sum_assignment],
    on a matrix of finite costs. *)
Variable solver : list (list R) -> assignment.

(** [linear_sum_assignment(cost)]: NaN entries are rejected. *)
Definition linear_sum_assignment (cost : list (list npfloat)) : traced assignment :=
  (tcall call_linear_sum_assignment ;;
   match finite_matrix cost with
   | None => traise (ValueError "matrix contains invalid numeric entries")
   | Some c => tret (solver c)
   end)%traced.

Definition mean_corr_coef (x y : tensor R) (method : string) (return_permutation : bool)
  : traced mcc_value :=
  (d <- tlift (match nth_error (shape x) 1 with
               | Some d => ok d
               | None => raise IndexError
               end) ;;
   cc <- (if String.eqb method "pearson" then
            c <- np_corrcoef x y ;; tlift (correlation_block d c)
          else if String.eqb method "spearman" then
            c <- spearmanr x y ;; tlift (correlation_block d c)
          else traise (ValueError ("not a valid method: " ++ method))) ;;
   let cc := map (map fabs) cc in
   permutation <- linear_sum_assignment (map (map (fscale (-1))) cc) ;;
   picked <- tlift (fancy_index cc (fst permutation) (snd permutation)) ;;
   d2 <- tlift (match nth_error (shape y) 1 with
                | Some d => ok d
                | None => raise IndexError
                end) ;;
   let score := fdiv_nat (np_sum picked) (Nat.max d d2) in
   if return_permutation then tret (score_and_permutation score permutation)
   else tret (score_only score))%traced.

(** The part of [mean_corr_coef] that follows the correlation block. *)
Definition score_from (cc : list (list npfloat)) (d : nat) (y : tensor R)
  (return_permutation : bool) : traced mcc_value :=
  (let cc := map (map fabs) cc in
   permutation <- linear_sum_assignment (map (map (fscale (-1))) cc) ;;
   picked <- tlift (fancy_index cc (fst permutation) (snd permutation)) ;;
   d2 <- tlift (match nth_error (shape y) 1 with
                | Some d => ok d
                | None => raise IndexError
                end) ;;
   let score := fdiv_nat (np_sum picked) (Nat.max d d2) in
   if return_permutation then tret (score_and_permutation score permutation)
   else tret (score_only score))%traced.

End Solver.

(** What the solver promises: a one-to-one assignment of [min n m] pairs,
    rows in increasing order, of least total cost. *)
Definition dims {A} (c : list (list A)) (n m : nat) : Prop :=
  length c = n /\ Forall (fun r => length r = m) c.

Definition valid_assignment (n m : nat) (a : assignment) : Prop :=
  length (fst a) = Nat.min n m /\ length (snd a) = Nat.min n m
  /\ StronglySorted lt (fst a) /\ Forall (fun i => (i < n)%nat) (fst a)
  /\ NoDup (snd a) /\ Forall (fun j => (j < m)%nat) (snd a).

Definition min_cost (c : list (list R)) (n m : nat) (a : assignment) : Prop :=
  valid_assignment n m a
  /\ forall b, valid_assignment n m b -> total c a <= total c b.

Definition solver_contract (solver : list (list R) -> assignment) : Prop :=
  forall c n m, dims c n m -> min_cost c n m (solver c).

(** The words of the claims: a column that is not constant, the columns of
    [y] rearranged as [y[:, p]], the matrix of absolute correlations between
    the columns of [x] and those of [y], and an assignment read through a
    rearrangement of the columns. *)
Definition nonconstant (a : list R) : Prop :=
  exists u v, In u a /\ In v a /\ u <> v.

Definition permute_columns (p : list nat) (y : tensor R) : tensor R :=
  Tensor.mk [nth 0 (shape y) 0%nat; length p]
            (flat_map (fun i => map (fun j => nth (i * nth 1 (shape y) 0 + j)%nat (data y) 0) p)
                      (seq 0 (nth 0 (shape y) 0%nat)))
            (dev y).

Definition variable (method : string) (a : list R) : list R :=
  if String.eqb method "spearman" then rankdata a else a.

Definition abs_correlations (method : string) (x y : tensor R) : list (list R) :=
  map (fun a => map (fun b => Rabs (pearson_r (variable method a) (variable method b)))
                    (columns y))
      (columns x).

Definition cross_correlations (method : string) (x y : tensor R) : list (list npfloat) :=
  map (fun a => map (fun b => corr_entry (variable method a) (variable method b))
                    (columns y))
      (columns x).

(** The block when [y] has a single row, which numpy takes for one
    variable. *)
Definition row_correlations (x y : tensor R) : list (list npfloat) :=
  map (fun a => map (corr_entry a) (rows y)) (columns x).

(** The correlation block over the columns [js] of [y], in that order. *)
Definition cross_at (method : string) (x y : tensor R) (js : list nat)
  : list (list npfloat) :=
  map (fun a => map (fun j => corr_entry (variable method a)
                                         (variable method (column y j))) js)
      (columns x).

Definition through (p : list nat) (a : assignment) : assignment :=
  (fst a, map (fun j => nth j p 0%nat) (snd a)).

(** Where [j] stands in [p]: the inverse of a rearrangement. *)
Fixpoint inverse (p : list nat) (j : nat) : nat :=
  match p with
  | [] => 0%nat
  | q :: p' => if Nat.eqb q j then 0%nat else S (inverse p' j)
  end.

Definition is_finite (v : npfloat) : bool :=
  match v with NaN => false | Fin _ => true end.

Definition value (v : npfloat) : R :=
  match v with NaN => 0 | Fin r => r end.

(** The correlation routine a method stands for. *)
Definition call_of (method : string) : call :=
  if String.eqb method "pearson" then call_corrcoef else call_spearmanr.

(** An assignment of greatest total in a matrix of [n] by [m] entries. *)
Definition max_total (c : list (list R)) (n m : nat) (a : assignment) : Prop :=
  valid_assignment n m a
  /\ forall b, valid_assignment n m b -> total c b <= total c a.

(** What a call yields when only the score is looked at. *)
Definition score_outcome (t : traced mcc_value) : traced npfloat :=
  (fst t, match snd t with inl e => inl e | inr v => inr (score_of v) end).

(** A reference solver: try every assignment. *)
Fixpoint choose {A} (k : nat) (l : list A) : list (list A) :=
  match k, l with
  | O, _ => [[]]
  | S _, [] => []
  | S k', x :: l' => map (cons x) (choose k' l') ++ choose k l'
  end.

Fixpoint arrangements (k : nat) (pool : list nat) : list (list nat) :=
  match k with
  | O => [[]]
  | S k' =>
      flat_map (fun c => map (cons c) (arrangements k' (remove Nat.eq_dec c pool))) pool
  end.

Definition candidates (n m : nat) : list assignment :=
  list_prod (choose (Nat.min n m) (seq 0 n)) (arrangements (Nat.min n m) (seq 0 m)).

Fixpoint argmin {A} (cost : A -> R) (best : A) (l : list A) : A :=
  match l with
  | [] => best
  | a :: l' => argmin cost (if Rlt_dec (cost a) (cost best) then a else best) l'
  end.

Definition exhaustive_solver (c : list (list R)) : assignment :=
  match candidates (length c) (length (hd [] c)) with
  | [] => ([], [])
  | a :: l => argmin (total c) a l
  end.

End Metrics.

(** ** The context model (causal_meta/modules/models/context_model.py) *)

Module ContextModel.
Import Metrics.

(** The random generator and the allocator behind [torch.randn]: the
    standard normal samples the generator is going to produce, how many it
    has produced, and the largest number of elements the allocator grants a
    new tensor. *)
Record generator : Type := mk_generator {
  normal : nat -> R;
  position : nat;
  capacity : nat
}.

(** A Python int that fits a signed 64-bit size. *)
Definition int64 (z : Z) : bool := (- 2 ^ 63 <=? z)%Z && (z <? 2 ^ 63)%Z.

(** [torch.randn(n, m)].  A size that does not fit 64 bits is rejected when
    the arguments are unpacked; a negative size, or a tensor the allocator
    cannot hold, when the tensor is created. *)
Definition randn (g : generator) (n m : Z) : result (tensor R * generator) :=
  if negb (int64 n && int64 m) then raise TypeError
  else if (n <? 0)%Z || (m <? 0)%Z then raise RuntimeError
  else
    let count := (Z.to_nat n * Z.to_nat m)%nat in
    if (capacity g <? count)%nat then raise RuntimeError
    else
      ok (Tensor.mk [Z.to_nat n; Z.to_nat m]
                    (map (normal g) (seq (position g) count)) cpu,
          mk_generator (normal g) (position g + count) (capacity g)).

Record t : Type := mk {
  meta : bool;
  max_context_dim : Z;
  task_num : Z;
  init_scale : R;
  context_hat : tensor R
}.

(** [__init__] *)
Definition init (meta : bool) (max_context_dim task_num : Z) (init_scale : R)
  (g : generator) : result (t * generator) :=
  ('(r, g') <- randn g task_num max_context_dim ;;
   let init_context_hat := tmap (fun v => v * init_scale) r in
   ok (mk meta max_context_dim task_num init_scale init_context_hat, g'))%result.

(** [a or b] on an optional integer: [None] and [0] are falsy. *)
Definition py_or (a : option Z) (b : Z) : Z :=
  match a with
  | Some z => if (z =? 0)%Z then b else z
  | None => b
  end.

(** [reset]: the attribute [task_num] is written before [randn] can raise. *)
Definition reset (self : t) (task_num' : option Z) (g : generator)
  : t * generator * result unit :=
  let device := dev (context_hat self) in
  let self := mk (meta self) (max_context_dim self) (py_or task_num' (task_num self))
                 (init_scale self) (context_hat self) in
  match randn g (task_num self) (max_context_dim self) with
  | inl e => (self, g, raise e)
  | inr (r, g') =>
      let init_context_hat := tmap (fun v => v * init_scale self) r in
      (mk (meta self) (max_context_dim self) (task_num self) (init_scale self)
          (to init_context_hat device), g', ok tt)
  end.

Definition repr_nat (n : nat) : string := NilZero.string_of_uint (Nat.to_uint n).

Definition repr_size (s : list nat) : string :=
  ("torch.Size([" ++ String.concat ", " (map repr_nat s) ++ "])")%string.

(** [forward] *)
Definition forward (self : t) (idx : option (tensor Z)) : result (tensor R) :=
  match idx with
  | None =>
      if meta self then raise (AssertionError "idx should not be None when meta is True")
      else ok (to empty0 (dev (context_hat self)))
  | Some idx =>
      (k <- last_dim idx ;;
       if Nat.eqb k 1 then
         i <- select_last0 idx ;;
         index_rows (context_hat self) i
       else raise (AssertionError
                     ("last dim of idx should be 1, got " ++ repr_size (shape idx))))%result
  end.

(** Modelled from the spec: context_model.py imports [mean_corr_coef] from
    causal_meta.stats.mcc, a module that is not among the sources.  The
    spec describes a single mean_corr_coef, which fails with an error if
    method is neither "pearson" nor "spearman"; the function of
    tdfa/utils/metrics.py is that function and stands for the import. *)
Definition stats_mcc_mean_corr_coef := Metrics.mean_corr_coef.

Inductive mcc_output : Type :=
| mcc_only (mcc : Metrics.npfloat)
| mcc_full (mcc : Metrics.npfloat) (permutation : Metrics.assignment)
           (context_hat : tensor R).

(** [get_mcc]; an absent [method] is its default, "kernel". *)
Definition get_mcc (solver : list (list R) -> Metrics.assignment) (self : t)
  (context_gt : tensor R) (valid_idx : option (list Z)) (return_permutation : bool)
  (method : option string) : Metrics.traced mcc_output :=
  let method := match method with Some m => m | None => "kernel"%string end in
  let context_gt := to context_gt cpu in
  (context_hat <- Metrics.tlift
     (match valid_idx with
      | None => ok (to (context_hat self) cpu)
      | Some v => bind (select_columns (context_hat self) v) (fun c => ok (to c cpu))
      end) ;;
   r <- stats_mcc_mean_corr_coef solver context_gt context_hat method true ;;
   match r with
   | Metrics.score_and_permutation mcc permutation =>
       if return_permutation then Metrics.tret (mcc_full mcc permutation context_hat)
       else Metrics.tret (mcc_only mcc)
   | Metrics.score_only _ => Metrics.traise TypeError
   end)%traced.

Definition repr_int (z : Z) : string := NilZero.string_of_int (Z.to_int z).

(** [extra_repr] *)
Definition extra_repr (self : t) : string :=
  if meta self then
    ("max_context_dim=" ++ repr_int (max_context_dim self)
       ++ ", task_num=" ++ repr_int (task_num self))%string
  else ""%string.

(** [get_mutual_info].  The estimator, causal_meta.stats.metric's
    [mutual_info_estimation], is not among the sources; it is an argument. *)
Definition get_mutual_info (mutual_info_estimation : tensor R -> string -> result R)
  (self : t) (idx : option (tensor Z)) (valid_context_idx : option (list Z))
  (reduction : string) : result R :=
  (context_hat <- forward self idx ;;
   context_hat <- match valid_context_idx with
                  | None => ok context_hat
                  | Some v => select_columns context_hat v
                  end ;;
   mutual_info_estimation context_hat reduction)%result.

(** The attributes agree with the table: [task_num] rows of
    [max_context_dim] entries, both sizes of a tensor. *)
Definition consistent (self : t) : Prop :=
  (0 <= task_num self < 2 ^ 63)%Z /\ (0 <= max_context_dim self < 2 ^ 63)%Z
  /\ shape (context_hat self)
     = [Z.to_nat (task_num self); Z.to_nat (max_context_dim self)]
  /\ wf (context_hat self).

End ContextModel.

(** ** The plain MDP world model (intact/modules/models/mdp_world_model/plain_wm.py) *)

Module PlainMDPWorldModel.

(** [F.softplus] with its default [beta = 1] and [threshold = 20]: above
    the threshold the function is the identity. *)
Definition softplus (z : R) : R :=
  if Rlt_dec 20 z then z else ln (1 + exp z).

Record t : Type := mk {
  obs_dim : nat;
  residual : bool;
  learn_obs_var : bool;
  log_var_bounds : R * R
}.

(** [get_log_var] on one entry. *)
Definition get_log_var_entry (self : t) (log_var : R) : R :=
  let '(min_log_var, max_log_var) := log_var_bounds self in
  let log_var := max_log_var - softplus (max_log_var - log_var) in
  let log_var := min_log_var + softplus (log_var - min_log_var) in
  log_var.

(** [get_log_var], as the source writes it: two tensor-wide passes. *)
Definition get_log_var (self : t) (log_var : tensor R) : tensor R :=
  let '(min_log_var, max_log_var) := log_var_bounds self in
  let log_var :=
    tmap (fun s => max_log_var - s)
         (tmap softplus (tmap (fun v => max_log_var - v) log_var)) in
  let log_var :=
    tmap (fun s => min_log_var + s)
         (tmap softplus (tmap (fun v => v - min_log_var) log_var)) in
  log_var.

Record outputs : Type := mk_outputs {
  next_obs_mean : tensor R;
  next_obs_log_var : tensor R;
  reward_mean : tensor R;
  reward_log_var : tensor R;
  terminated : tensor R
}.

(** [get_outputs] *)
Definition get_outputs (self : t) (mean log_var observation : tensor R)
  (batch_size : list nat) : result outputs :=
  (next_obs_mean <- slice_dim1 None (Some (-2)%Z) mean ;;
   reward_mean <- slice_dim1 (Some (-2)%Z) (Some (-1)%Z) mean ;;
   terminated <- slice_dim1 (Some (-1)%Z) None mean ;;
   obs_part <- slice_dim1 None (Some (-2)%Z) log_var ;;
   reward_part <- slice_dim1 (Some (-2)%Z) (Some (-1)%Z) log_var ;;
   let next_obs_log_var :=
     if learn_obs_var self then get_log_var self obs_part else zeros_like obs_part in
   let reward_log_var :=
     if learn_obs_var self then get_log_var self reward_part else zeros_like reward_part in
   next_obs_mean <- reshape next_obs_mean (batch_size ++ [obs_dim self]) ;;
   next_obs_mean <- (if residual self then add observation next_obs_mean
                     else ok next_obs_mean) ;;
   next_obs_log_var <- reshape next_obs_log_var (batch_size ++ [obs_dim self]) ;;
   reward_mean <- reshape reward_mean (batch_size ++ [1%nat]) ;;
   reward_log_var <- reshape reward_log_var (batch_size ++ [1%nat]) ;;
   terminated <- reshape terminated (batch_size ++ [1%nat]) ;;
   ok (mk_outputs next_obs_mean next_obs_log_var reward_mean reward_log_var
                  terminated))%result.

(** [forward].  The context model and the network are attributes set by
    the base class, intact.modules.models.base_world_model, which is not
    among the sources; they are arguments here. *)
Definition forward (self : t) (context_model : ContextModel.t)
  (mlp : tensor R -> result (tensor R)) (observation action : tensor R)
  (idx : option (tensor Z)) : result outputs :=
  (context <- ContextModel.forward context_model idx ;;
   inputs <- cat_last [observation; action; context] ;;
   let batch_shape := removelast (shape inputs) in
   dim <- last_dim inputs ;;
   flat <- reshape_rows inputs dim ;;
   out <- mlp flat ;;
   ' (mean, log_var) <- chunk2_last out ;;
   get_outputs self mean log_var observation batch_shape)%result.

End PlainMDPWorldModel.

(** ** Reward functions (causal_meta/envs/reward_fns.py) *)

Module RewardFns.

(** [ones]: a reward of one for every transition. *)
Definition ones (obs act next_obs : tensor R) : tensor R :=
  let s := (removelast (shape next_obs) ++ [1%nat])%list in
  to (Tensor.mk s (repeat 1 (numel s)) cpu) (dev next_obs).

(** [reward_fns_dict[name]]; a missing key is [None]. *)
Definition reward_fns_dict (name : string)
  : option (tensor R -> tensor R -> tensor R -> tensor R) :=
  if String.eqb name "ones" then Some ones else None.

End RewardFns.

(** ** Sample arrays *)

Module Examples.

(** Three samples of two variables. *)
Definition x3 : tensor R := Tensor.mk [3%nat; 2%nat] [1; 0; 2; 1; 4; 0] cpu.

Definition y3 : tensor R := Tensor.mk [3%nat; 2%nat] [1; 5; 2; 3; 3; 4] cpu.

(** Two equal columns. *)
Definition twin : tensor R := Tensor.mk [3%nat; 2%nat] [1; 1; 2; 2; 3; 3] cpu.

(** A constant column. *)
Definition flat : tensor R := Tensor.mk [2%nat; 1%nat] [1; 1] cpu.

Definition ramp : tensor R := Tensor.mk [2%nat; 1%nat] [1; 2] cpu.

(** One row of two entries, one row of one entry, two rows without
    columns. *)
Definition wide : tensor R := Tensor.mk [1%nat; 2%nat] [3; 5] cpu.

Definition single : tensor R := Tensor.mk [1%nat; 1%nat] [7] cpu.

Definition hollow : tensor R := Tensor.mk [2%nat; 0%nat] [] cpu.

(** Three samples of a constant. *)
Definition level : tensor R := Tensor.mk [3%nat; 1%nat] [1; 1; 1] cpu.

End Examples.

(** * Properties *)

Section SoftplusFacts.
Import PlainMDPWorldModel.

Lemma log_softplus_pos z : 0 < ln (1 + exp z).
Proof.
  rewrite <- ln_1. apply ln_increasing; [lra|].
  pose proof (exp_pos z). lra.
Qed.

Lemma log_softplus_above z : z < ln (1 + exp z).
Proof.
  rewrite <- (ln_exp z) at 1. apply ln_increasing; [apply exp_pos|].
  pose proof (exp_pos z). lra.
Qed.

Lemma log_softplus_incr a b : a < b -> ln (1 + exp a) < ln (1 + exp b).
Proof.
  intros H. apply ln_increasing.
  - pose proof (exp_pos a). lra.
  - pose proof (exp_increasing _ _ H). lra.
Qed.

(** softplus(z) = z + softplus(-z) for the smooth branch *)
Lemma log_softplus_reflect z : ln (1 + exp z) = z + ln (1 + exp (- z)).
Proof.
  pose proof (exp_pos z) as Hz. pose proof (exp_pos (- z)) as Hn.
  rewrite <- (ln_exp z) at 2. rewrite <- ln_mult; [|assumption|lra].
  f_equal. rewrite Rmult_plus_distr_l, <- exp_plus.
  replace (z + - z) with 0 by lra. rewrite exp_0. lra.
Qed.

Lemma softplus_pos z : 0 < softplus z.
Proof.
  unfold softplus. destruct (Rlt_dec 20 z); [lra | apply log_softplus_pos].
Qed.

Lemma softplus_le_log z : softplus z <= ln (1 + exp z).
Proof.
  unfold softplus. destruct (Rlt_dec 20 z); [|lra].
  left. apply log_softplus_above.
Qed.

Lemma get_log_var_data self lv :
  data (get_log_var self lv) = map (get_log_var_entry self) (data lv).
Proof.
  unfold get_log_var, get_log_var_entry. destruct (log_var_bounds self) as [mn mx].
  simpl. rewrite !map_map. reflexivity.
Qed.

Lemma get_log_var_shape self lv : shape (get_log_var self lv) = shape lv.
Proof.
  unfold get_log_var. destruct (log_var_bounds self). reflexivity.
Qed.

Lemma get_log_var_entry_bounds self x :
  fst (log_var_bounds self) < get_log_var_entry self x
  /\ get_log_var_entry self x
     < snd (log_var_bounds self)
       + ln (1 + exp (fst (log_var_bounds self) - snd (log_var_bounds self))).
Proof.
  unfold get_log_var_entry. destruct (log_var_bounds self) as [mn mx]. simpl.
  set (s := softplus (mx - x)).
  assert (Hs : 0 < s) by apply softplus_pos.
  split.
  - pose proof (softplus_pos (mx - s - mn)). lra.
  - pose proof (softplus_le_log (mx - s - mn)) as H1.
    assert (H2 : ln (1 + exp (mx - s - mn)) < ln (1 + exp (mx - mn)))
      by (apply log_softplus_incr; lra).
    rewrite (log_softplus_reflect (mx - mn)) in H2.
    replace (- (mx - mn)) with (mn - mx) in H2 by lra. lra.
Qed.

(** The overshoot is less than log 2, whatever the bounds. *)
Lemma get_log_var_entry_range self x :
  fst (log_var_bounds self) <= get_log_var_entry self x
  <= Rmax (fst (log_var_bounds self)) (snd (log_var_bounds self)) + ln 2.
Proof.
  pose proof (get_log_var_entry_bounds self x) as [Hlow Hup].
  split; [lra|].
  set (mn := fst (log_var_bounds self)) in *. set (mx := snd (log_var_bounds self)) in *.
  assert (Hhalf : forall d, d <= 0 -> ln (1 + exp d) <= ln 2).
  { intros d Hd.
    assert (He : exp d <= 1).
    { destruct Hd as [Hd| ->]; [|rewrite exp_0; lra].
      left. rewrite <- exp_0. apply exp_increasing. exact Hd. }
    pose proof (exp_pos d) as Hp.
    destruct He as [He|He].
    - left. apply ln_increasing; lra.
    - rewrite He. replace (1 + 1) with 2 by lra. lra. }
  unfold Rmax. destruct (Rle_dec mn mx) as [Hle|Hgt].
  - pose proof (Hhalf (mn - mx) ltac:(lra)). lra.
  - rewrite (log_softplus_reflect (mn - mx)) in Hup.
    pose proof (Hhalf (- (mn - mx)) ltac:(lra)). lra.
Qed.

(** Far enough to the right the clamp overshoots its upper bound. *)
Lemma get_log_var_entry_overshoot self x :
  let mn := fst (log_var_bounds self) in
  let mx := snd (log_var_bounds self) in
  mn < mx -> mx - mn <= 20 -> 2 * mx - mn <= x ->
  mx < get_log_var_entry self x.
Proof.
  unfold get_log_var_entry. destruct (log_var_bounds self) as [mn mx]. simpl.
  intros Hlt Hth Hx.
  unfold softplus at 2. destruct (Rlt_dec 20 (mx - x)) as [Hbig|_]; [lra|].
  set (q := exp (mx - x)).
  assert (Hq : 0 < q) by apply exp_pos.
  assert (Hs : 0 < ln (1 + q)) by apply log_softplus_pos.
  unfold softplus. destruct (Rlt_dec 20 (mx - ln (1 + q) - mn)) as [Hbig|_]; [lra|].
  enough (mx - mn < ln (1 + exp (mx - ln (1 + q) - mn))) by lra.
  rewrite <- (ln_exp (mx - mn)) at 1.
  pose proof (exp_pos (mx - mn)) as HD.
  apply ln_increasing; [assumption|].
  replace (mx - ln (1 + q) - mn) with ((mx - mn) + - ln (1 + q)) by lra.
  rewrite exp_plus, exp_Ropp, exp_ln by lra.
  assert (Hqd : q * exp (mx - mn) <= 1).
  { unfold q. rewrite <- exp_plus, <- exp_0.
    destruct (Req_dec (mx - x + (mx - mn)) 0) as [->|Hne]; [lra|].
    left. apply exp_increasing. lra. }
  apply Rmult_lt_reg_r with (1 + q); [lra|].
  rewrite Rmult_plus_distr_r, Rmult_assoc, Rinv_l by lra. nra.
Qed.

End SoftplusFacts.

Section ModelOnSamples.

(** The tensor operations on small inputs. *)

Example cat_last_appends_columns :
  cat_last [Tensor.mk [2%nat; 2%nat] [1; 2; 3; 4] cpu;
            Tensor.mk [2%nat; 1%nat] [5; 6] cpu]
  = ok (Tensor.mk [2%nat; 3%nat] [1; 2; 5; 3; 4; 6] cpu).
Proof. reflexivity. Qed.

Example add_broadcasts :
  add (Tensor.mk [2%nat; 1%nat] [1; 2] cpu) (Tensor.mk [2%nat] [10; 20] cpu)
  = ok (Tensor.mk [2%nat; 2%nat] [1 + 10; 1 + 20; 2 + 10; 2 + 20] cpu).
Proof. reflexivity. Qed.

Example slice_reward_column :
  slice_dim1 (Some (-2)%Z) (Some (-1)%Z)
             (Tensor.mk [2%nat; 4%nat] [1; 2; 3; 4; 5; 6; 7; 8] cpu)
  = ok (Tensor.mk [2%nat; 1%nat] [3; 7] cpu).
Proof. reflexivity. Qed.

Example select_columns_wraps :
  select_columns (Tensor.mk [2%nat; 3%nat] [1; 2; 3; 4; 5; 6] cpu) [2%Z; (-3)%Z]
  = ok (Tensor.mk [2%nat; 2%nat] [3; 1; 6; 4] cpu).
Proof. reflexivity. Qed.

Example get_outputs_splits :
  PlainMDPWorldModel.get_outputs
    (PlainMDPWorldModel.mk 2 false false (-10, 1 / 2))
    (Tensor.mk [1%nat; 4%nat] [1; 2; 5; 6] cpu)
    (Tensor.mk [1%nat; 4%nat] [1; 2; 3; 4] cpu)
    (Tensor.mk [1%nat; 2%nat] [7; 8] cpu) [1%nat]
  = ok (PlainMDPWorldModel.mk_outputs
          (Tensor.mk [1%nat; 2%nat] [1; 2] cpu)
          (Tensor.mk [1%nat; 2%nat] [0; 0] cpu)
          (Tensor.mk [1%nat; 1%nat] [5] cpu)
          (Tensor.mk [1%nat; 1%nat] [0] cpu)
          (Tensor.mk [1%nat; 1%nat] [6] cpu)).
Proof. reflexivity. Qed.

Example columns_of_y3 : Metrics.columns Examples.y3 = [[1; 2; 3]; [5; 3; 4]].
Proof. reflexivity. Qed.

Example permute_columns_swaps :
  data (Metrics.permute_columns [1; 0]%nat Examples.y3) = [5; 1; 3; 2; 4; 3].
Proof. reflexivity. Qed.

Example candidates_two_by_three :
  Metrics.candidates 2 3
  = [([0; 1], [0; 1]); ([0; 1], [0; 2]); ([0; 1], [1; 0]);
     ([0; 1], [1; 2]); ([0; 1], [2; 0]); ([0; 1], [2; 1])]%nat.
Proof. reflexivity. Qed.

Example repr_size_of_batch :
  ContextModel.repr_size [32; 2]%nat = "torch.Size([32, 2])"%string.
Proof. reflexivity. Qed.

End ModelOnSamples.

Section LogVariance.
Import PlainMDPWorldModel.

(** C1 (as amended).  With [min_log_var < max_log_var], every entry that
    leaves [get_log_var] is at least [min_log_var] and at most
    [max_log_var + log 2]; the shape of the tensor is kept.  The upper bound
    [max_log_var] itself is not guaranteed. *)
Theorem get_log_var_soft_bounds (self : t) (log_var : tensor R) :
  fst (log_var_bounds self) < snd (log_var_bounds self) ->
  shape (get_log_var self log_var) = shape log_var
  /\ Forall (fun v =>
               fst (log_var_bounds self) <= v <= snd (log_var_bounds self) + ln 2)
            (data (get_log_var self log_var)).
Proof.
  intros Hlt. split; [apply get_log_var_shape|].
  rewrite get_log_var_data. apply Forall_forall. intros v Hv.
  apply in_map_iff in Hv. destruct Hv as [x [<- _]].
  pose proof (get_log_var_entry_range self x) as H.
  rewrite Rmax_right in H by lra. exact H.
Qed.

Lemma get_log_var_soft_bounds_witness :
  shape (get_log_var (mk 4 true true (-10, 1 / 2))
                     (Tensor.mk [2%nat] [-1000000; 1000000] cpu)) = [2%nat]
  /\ Forall (fun v => -10 <= v <= 1 / 2 + ln 2)
            (data (get_log_var (mk 4 true true (-10, 1 / 2))
                               (Tensor.mk [2%nat] [-1000000; 1000000] cpu))).
Proof.
  apply (get_log_var_soft_bounds (mk 4 true true (-10, 1 / 2))
           (Tensor.mk [2%nat] [-1000000; 1000000] cpu)).
  simpl. lra.
Defined.

(** C1, counterexample.  With the default bounds (-10, 0.5) the input 1e6
    comes out above 0.5. *)
Lemma get_log_var_exceeds_max :
  exists v,
    data (get_log_var (mk 4 true true (-10, 1 / 2)) (Tensor.mk [1%nat] [1000000] cpu)) = [v]
    /\ ~ (-10 <= v <= 1 / 2).
Proof.
  eexists. split.
  - rewrite get_log_var_data. reflexivity.
  - pose proof (get_log_var_entry_overshoot (mk 4 true true (-10, 1 / 2)) 1000000) as H.
    simpl in H. lra.
Qed.

End LogVariance.

Section InvalidMethod.
Import Metrics.

Variable solver : list (list R) -> assignment.

Lemma mean_corr_coef_invalid (x y : tensor R) (method : string) (rp : bool) :
  String.eqb method "pearson" = false ->
  String.eqb method "spearman" = false ->
  mean_corr_coef solver x y method rp
  = ([], raise (match nth_error (shape x) 1 with
                | Some _ => ValueError ("not a valid method: " ++ method)
                | None => IndexError
                end)).
Proof.
  intros Hp Hs. unfold mean_corr_coef. rewrite Hp, Hs.
  destruct (nth_error (shape x) 1); reflexivity.
Qed.

(** C4.  For a method other than "pearson" and "spearman" the function
    raises, and it has called neither a correlation routine nor the
    assignment solver: the trace of library calls is empty.  On a matrix the
    error is the ValueError of the source. *)
Theorem mean_corr_coef_rejects_method (x y : tensor R) (method : string) (rp : bool) :
  method <> "pearson"%string -> method <> "spearman"%string ->
  exists e,
    mean_corr_coef solver x y method rp = ([], raise e)
    /\ (e = ValueError ("not a valid method: " ++ method) \/ e = IndexError)
    /\ (length (shape x) = 2%nat -> e = ValueError ("not a valid method: " ++ method)).
Proof.
  intros Hp Hs.
  apply String.eqb_neq in Hp. apply String.eqb_neq in Hs.
  rewrite (mean_corr_coef_invalid x y method rp Hp Hs).
  eexists. split; [reflexivity|].
  destruct (shape x) as [|n0 [|n1 rest]]; simpl; split; auto; intros; discriminate.
Qed.

End InvalidMethod.

Section MccDefault.
Import Metrics ContextModel.

(** C10.  Called without a method, [get_mcc] raises and yields no score,
    whatever the model, the ground truth and the other arguments are; the
    default "kernel" reaches mean_corr_coef, which raises its ValueError
    (or the arrays are rejected earlier, with an IndexError).  No library
    routine has run. *)
Theorem get_mcc_default_method_raises (solver : list (list R) -> assignment)
  (self : ContextModel.t) (context_gt : tensor R) (valid_idx : option (list Z))
  (return_permutation : bool) :
  exists e,
    get_mcc solver self context_gt valid_idx return_permutation None = ([], raise e)
    /\ (e = ValueError "not a valid method: kernel" \/ e = IndexError).
Proof.
  unfold get_mcc, stats_mcc_mean_corr_coef.
  destruct valid_idx as [v|].
  - destruct (select_columns (context_hat self) v) as [e|c] eqn:Hsel.
    + exists e. split; [reflexivity|]. right.
      unfold select_columns in Hsel.
      destruct (shape (context_hat self)) as [|n0 [|n1 rest]];
        try (inversion Hsel; reflexivity).
      assert (Hres : forall l r, resolve_all n1 l = inl r -> r = IndexError).
      { induction l as [|i l IH]; simpl; intros r Hr; [discriminate|].
        unfold resolve_index in Hr.
        destruct ((0 <=? i)%Z && (i <? Z.of_nat n1)%Z);
          [|destruct ((- Z.of_nat n1 <=? i)%Z && (i <? 0)%Z)]; simpl in Hr;
          try (destruct (resolve_all n1 l); simpl in Hr; [inversion Hr; subst; auto | discriminate]).
        inversion Hr; reflexivity. }
      destruct (resolve_all n1 v) eqn:Hr; simpl in Hsel; [|discriminate].
      inversion Hsel; subst. eapply Hres; eauto.
    + simpl. rewrite mean_corr_coef_invalid by reflexivity.
      simpl. eexists. split; [reflexivity|].
      destruct (shape context_gt) as [|? [|? ?]]; auto.
  - simpl. rewrite mean_corr_coef_invalid by reflexivity.
    simpl. eexists. split; [reflexivity|].
    destruct (shape context_gt) as [|? [|? ?]]; auto.
Qed.

End MccDefault.

Section ContextModelFacts.
Import ContextModel.

Lemma numel_app (s1 s2 : list nat) : numel (s1 ++ s2) = (numel s1 * numel s2)%nat.
Proof.
  induction s1 as [|a s1 IH]; simpl; [lia|]. rewrite IH. lia.
Qed.

Lemma numel_rev (s : list nat) : numel (rev s) = numel s.
Proof.
  induction s as [|a s IH]; simpl; [reflexivity|].
  rewrite numel_app, IH. simpl. lia.
Qed.

Lemma chunks_of_one {A} (l : list A) :
  flat_map (firstn 1) (chunks 1 (length l) l) = l.
Proof.
  induction l as [|a l IH]; simpl; [reflexivity|].
  f_equal. exact IH.
Qed.

Lemma int64_range (z : Z) : int64 z = true <-> (- 2 ^ 63 <= z < 2 ^ 63)%Z.
Proof.
  unfold int64. rewrite andb_true_iff, Z.leb_le, Z.ltb_lt. reflexivity.
Qed.

Lemma randn_ok (g : generator) (n m : Z) :
  int64 n && int64 m = true ->
  (n <? 0)%Z || (m <? 0)%Z = false ->
  (capacity g <? Z.to_nat n * Z.to_nat m)%nat = false ->
  randn g n m
  = ok (Tensor.mk [Z.to_nat n; Z.to_nat m]
                  (map (normal g) (seq (position g) (Z.to_nat n * Z.to_nat m))) cpu,
        mk_generator (normal g) (position g + Z.to_nat n * Z.to_nat m) (capacity g)).
Proof.
  intros Hfit Hneg Hcap. unfold randn. rewrite Hfit, Hneg, Hcap. reflexivity.
Qed.

(** When [randn] returns, its sizes were sizes of a tensor that the
    allocator holds. *)
Lemma randn_returns (g g' : generator) (n m : Z) (r : tensor R) :
  randn g n m = ok (r, g') ->
  int64 n && int64 m = true
  /\ (n <? 0)%Z || (m <? 0)%Z = false
  /\ (capacity g <? Z.to_nat n * Z.to_nat m)%nat = false.
Proof.
  unfold randn. intros H.
  destruct (int64 n && int64 m); [|discriminate].
  destruct ((n <? 0)%Z || (m <? 0)%Z); [discriminate|].
  destruct (capacity g <? Z.to_nat n * Z.to_nat m)%nat; [discriminate|].
  auto.
Qed.

(** C3 (as amended).  [reset] does not fail because its argument is unset:
    an argument that is [None] (or 0) falls back to the current [task_num]
    attribute.  It raises TypeError when the resulting [task_num], or
    [max_context_dim], does not fit 64 bits, and RuntimeError when one of
    them is negative or the allocator cannot hold the table; the attribute
    is written all the same, the table and the generator are as they were.
    Otherwise the table becomes a [task_num] by [max_context_dim] array
    whose k-th entry is the k-th normal sample drawn times [init_scale], on
    the device the table was on. *)
Theorem reset_reinitialises (self : t) (arg : option Z) (g : generator) :
  let n := py_or arg (task_num self) in
  let m := max_context_dim self in
  let kept := mk (meta self) m n (init_scale self) (context_hat self) in
  (arg = None \/ arg = Some 0%Z -> n = task_num self)
  /\ if negb (int64 n && int64 m) then reset self arg g = (kept, g, raise TypeError)
     else if (n <? 0)%Z || (m <? 0)%Z then reset self arg g = (kept, g, raise RuntimeError)
     else if (capacity g <? Z.to_nat n * Z.to_nat m)%nat then
       reset self arg g = (kept, g, raise RuntimeError)
     else
       exists table,
         reset self arg g
         = (mk (meta self) m n (init_scale self) table,
            mk_generator (normal g) (position g + Z.to_nat n * Z.to_nat m) (capacity g),
            ok tt)
         /\ shape table = [Z.to_nat n; Z.to_nat m]
         /\ dev table = dev (context_hat self)
         /\ length (data table) = (Z.to_nat n * Z.to_nat m)%nat
         /\ forall k, (k < Z.to_nat n * Z.to_nat m)%nat ->
                      nth k (data table) 0 = normal g (position g + k) * init_scale self.
Proof.
  intros n m kept. split.
  - intros [-> | ->]; reflexivity.
  - unfold reset. cbn [task_num max_context_dim meta init_scale context_hat].
    fold n. fold m. fold kept. unfold randn.
    destruct (int64 n && int64 m); cbn [negb]; [|reflexivity].
    destruct ((n <? 0)%Z || (m <? 0)%Z); [reflexivity|].
    destruct (capacity g <? Z.to_nat n * Z.to_nat m)%nat; [reflexivity|].
    eexists. split; [reflexivity|]. simpl.
    repeat split.
    + rewrite !length_map, length_seq. reflexivity.
    + intros k Hk. rewrite map_map.
      rewrite nth_indep with (d' := normal g 0 * init_scale self)
        by (rewrite length_map, length_seq; exact Hk).
      change (normal g 0 * init_scale self)
        with ((fun v => normal g v * init_scale self) 0%nat).
      rewrite map_nth, seq_nth by exact Hk. reflexivity.
Qed.

(** C3, counterexample.  A model built without a [task_num] is reset
    without an argument: no error, the table is empty. *)
Lemma reset_without_task_num_succeeds :
  exists self g' self' g'',
    init true 10 0 1 (mk_generator (fun _ => 0) 0 100) = ok (self, g')
    /\ reset self None g' = (self', g'', ok tt)
    /\ shape (context_hat self') = [0%nat; 10%nat]
    /\ data (context_hat self') = [].
Proof.
  do 4 eexists. split; [|split; [|split]].
  - unfold init, randn. simpl. reflexivity.
  - unfold reset, randn. simpl. reflexivity.
  - reflexivity.
  - reflexivity.
Qed.

(** C5.  Without a task index: in meta mode [forward] raises its
    assertion; otherwise it returns a tensor of shape (0,) with no entries,
    and [torch.cat] of an observation (of one dimension at least, on the
    model's device) with it is that observation, shape and entries. *)
Theorem forward_without_index (self : t) (observation : tensor R) :
  shape observation <> [] ->
  dev observation = dev (context_hat self) ->
  if meta self then
    forward self None
    = raise (AssertionError "idx should not be None when meta is True")
  else
    exists e,
      forward self None = ok e
      /\ shape e = [0%nat] /\ data e = []
      /\ cat_last [observation; e] = ok observation.
Proof.
  intros Hrank Hdev. unfold forward.
  destruct (meta self); [reflexivity|].
  eexists. split; [reflexivity|]. repeat split.
  unfold cat_last. simpl. rewrite Hdev.
  assert (Hd : forall d, device_eqb d d = true)
    by (intros [|i]; simpl; auto using Nat.eqb_refl).
  rewrite Hd. simpl.
  destruct (shape observation); [contradiction|reflexivity].
Qed.

Lemma forward_without_index_witness :
  exists e,
    forward (mk false 0 0 0 (Tensor.mk [0%nat; 0%nat] [] cpu)) None = ok e
    /\ shape e = [0%nat] /\ data e = []
    /\ cat_last [Tensor.mk [2%nat; 2%nat] [1; 2; 3; 4] cpu; e]
       = ok (Tensor.mk [2%nat; 2%nat] [1; 2; 3; 4] cpu).
Proof.
  apply (forward_without_index (mk false 0 0 0 (Tensor.mk [0%nat; 0%nat] [] cpu))
           (Tensor.mk [2%nat; 2%nat] [1; 2; 3; 4] cpu)).
  - simpl. discriminate.
  - reflexivity.
Defined.

Lemma gather_valid {A} (n width : nat) (d : list A) (idx : list Z) :
  Forall (fun i => (0 <= i < Z.of_nat n)%Z) idx ->
  gather n width d idx = ok (flat_map (fun i => row width d (Z.to_nat i)) idx).
Proof.
  induction 1 as [|i idx Hi _ IH]; simpl; [reflexivity|].
  unfold resolve_index.
  replace ((0 <=? i)%Z && (i <? Z.of_nat n)%Z) with true
    by (symmetry; apply andb_true_iff; split; [apply Z.leb_le | apply Z.ltb_lt]; lia).
  simpl. rewrite IH. reflexivity.
Qed.

(** C6.  For an index tensor of shape [lead ++ [k]]: when [k] is 1, the
    table is a well-shaped array of [n] rows and every entry is a row number
    below [n], [forward] returns, in order, the table rows the entries name,
    in shape [lead ++ [d]]; when [k] is not 1 it raises its assertion. *)
Theorem forward_returns_rows (self : t) (idx : tensor Z) (lead : list nat) (k n d : nat) :
  shape idx = lead ++ [k] ->
  (k = 1%nat ->
   shape (context_hat self) = [n; d] /\ wf idx
   /\ Forall (fun i => (0 <= i < Z.of_nat n)%Z) (data idx)) ->
  forward self (Some idx)
  = if Nat.eqb k 1 then
      ok (Tensor.mk (lead ++ [d])
                    (flat_map (fun i => row d (data (context_hat self)) (Z.to_nat i))
                              (data idx))
                    (dev (context_hat self)))
    else
      raise (AssertionError
               ("last dim of idx should be 1, got " ++ repr_size (shape idx))).
Proof.
  intros Hshape Hone.
  unfold forward, last_dim. rewrite Hshape, rev_app_distr. simpl.
  destruct (Nat.eqb_spec k 1) as [->|Hk]; [|reflexivity].
  destruct (Hone eq_refl) as [Htable [Hwf Hvalid]].
  unfold select_last0. rewrite Hshape, rev_app_distr. cbn [rev app bind ok].
  unfold wf in Hwf. rewrite Hshape, numel_app in Hwf. simpl in Hwf.
  rewrite numel_rev, rev_involutive.
  replace (numel lead) with (length (data idx)) by lia.
  rewrite chunks_of_one.
  unfold index_rows. rewrite Htable. simpl.
  rewrite (gather_valid n (d * 1) _ _ Hvalid). simpl.
  rewrite Nat.mul_1_r. reflexivity.
Qed.

Lemma forward_returns_rows_witness :
  forward (mk true 2 3 1 (Tensor.mk [3%nat; 2%nat] [10; 11; 20; 21; 30; 31] cpu))
          (Some (Tensor.mk [2%nat; 1%nat] [2%Z; 0%Z] cpu))
  = ok (Tensor.mk [2%nat; 2%nat] [30; 31; 10; 11] cpu).
Proof.
  apply (forward_returns_rows
           (mk true 2 3 1 (Tensor.mk [3%nat; 2%nat] [10; 11; 20; 21; 30; 31] cpu))
           (Tensor.mk [2%nat; 1%nat] [2%Z; 0%Z] cpu) [2%nat] 1 3 2).
  - reflexivity.
  - intros _. split; [reflexivity|]. split; [reflexivity|].
    repeat constructor; simpl; lia.
Defined.

End ContextModelFacts.

Section TensorFacts.

Lemma chunks_concat {A} (size count : nat) (l : list A) :
  length l = (count * size)%nat -> concat (chunks size count l) = l.
Proof.
  revert l. induction count as [|c IH]; intros l Hl; simpl in *.
  - destruct l; [reflexivity | discriminate].
  - rewrite IH by (rewrite length_skipn; lia).
    apply firstn_skipn.
Qed.

Lemma chunks_length {A} (size count : nat) (l : list A) :
  length (chunks size count l) = count.
Proof.
  revert l. induction count as [|c IH]; intros l; simpl; [reflexivity|].
  rewrite IH. reflexivity.
Qed.

Lemma chunks_block_length {A} (size count : nat) (l : list A) :
  length l = (count * size)%nat ->
  Forall (fun b => length b = size) (chunks size count l).
Proof.
  revert l. induction count as [|c IH]; intros l Hl; simpl in *; constructor.
  - rewrite length_firstn. lia.
  - apply IH. rewrite length_skipn. lia.
Qed.

Lemma map_nth_seq {A} (l : list A) (d : A) :
  map (fun i => nth i l d) (seq 0 (length l)) = l.
Proof.
  induction l as [|a l IH]; simpl; [reflexivity|].
  f_equal. rewrite <- seq_shift, map_map. exact IH.
Qed.

Lemma expand_same {A} (s : list nat) (d : list A) :
  length d = numel s -> expand s s d = d.
Proof.
  revert d. induction s as [|n s IH]; intros d Hd; simpl; [reflexivity|].
  simpl in Hd.
  pose proof (chunks_block_length (numel s) n d Hd) as Hblocks.
  pose proof (chunks_length (numel s) n d) as Hlen.
  pose proof (map_nth_seq (chunks (numel s) n d) []) as Hseq. rewrite Hlen in Hseq.
  etransitivity; [|apply (chunks_concat (numel s) n d Hd)]. f_equal.
  etransitivity; [|exact Hseq].
  apply map_ext_in. intros i Hi.
  apply in_seq in Hi.
  replace (if Nat.eqb n 1 then 0%nat else i) with i
    by (destruct (Nat.eqb_spec n 1); lia).
  apply IH. rewrite Forall_forall in Hblocks. apply Hblocks.
  apply nth_In. lia.
Qed.

Lemma broadcast_rev_same (r : list nat) : broadcast_rev r r = Some r.
Proof.
  induction r as [|a r IH]; simpl; [reflexivity|].
  rewrite IH, Nat.eqb_refl. reflexivity.
Qed.

Lemma device_eqb_refl (d : device) : device_eqb d d = true.
Proof.
  destruct d; simpl; auto using Nat.eqb_refl.
Qed.

Lemma add_same_shape (a b : tensor R) :
  shape a = shape b -> dev a = dev b -> wf a -> wf b ->
  add a b = ok (Tensor.mk (shape a) (map2 Rplus (data a) (data b)) (dev a)).
Proof.
  intros Hs Hd Ha Hb. unfold add, broadcast_shapes.
  rewrite <- Hd, device_eqb_refl, <- Hs, broadcast_rev_same. simpl.
  rewrite rev_involutive. unfold pad_left. rewrite Nat.sub_diag. simpl.
  rewrite !expand_same; [reflexivity | rewrite Hs; exact Hb | exact Ha].
Qed.

Lemma map2_plus_zero (l z : list R) :
  length z = length l -> Forall (fun v => v = 0) z -> map2 Rplus l z = l.
Proof.
  revert z. induction l as [|a l IH]; intros [|b z] Hlen Hz; simpl in *;
    try discriminate; [reflexivity|].
  inversion Hz; subst. rewrite IH by (auto; lia). f_equal. lra.
Qed.

Lemma flat_map_length_const {A B} (f : A -> list B) (k : nat) (l : list A) :
  (forall a, In a l -> length (f a) = k) -> length (flat_map f l) = (length l * k)%nat.
Proof.
  induction l as [|a l IH]; intros H; simpl; [reflexivity|].
  rewrite length_app, IH, H by (simpl in *; auto). reflexivity.
Qed.

Lemma slice_dim1_wf {A} (start stop : option Z) (t u : tensor A) :
  wf t -> slice_dim1 start stop t = ok u -> wf u.
Proof.
  unfold slice_dim1, wf. destruct (shape t) as [|n0 [|n1 rest]] eqn:Hs; try discriminate.
  intros Hwf Hu. inversion Hu; subst; clear Hu. simpl in *.
  set (a := slice_bound n1 0 start) in *. set (b := slice_bound n1 n1 stop) in *.
  assert (Hb : (b <= n1)%nat).
  { unfold b, slice_bound. destruct stop as [z|]; [|lia].
    destruct (z <? 0)%Z eqn:Hz; lia. }
  assert (Ha : (a <= n1)%nat).
  { unfold a, slice_bound. destruct start as [z|]; [|lia].
    destruct (z <? 0)%Z eqn:Hz; lia. }
  rewrite flat_map_length_const with (k := ((b - a) * numel rest)%nat).
  - rewrite chunks_length. reflexivity.
  - intros blk Hblk.
    pose proof (chunks_block_length (n1 * numel rest) n0 (data t)) as Hall.
    rewrite Forall_forall in Hall. rewrite length_firstn, length_skipn.
    rewrite (Hall Hwf blk Hblk).
    assert (Hab : (b - a + a <= n1)%nat) by lia.
    assert (Hk : ((b - a) * numel rest + a * numel rest <= n1 * numel rest)%nat)
      by (rewrite <- Nat.mul_add_distr_r; apply Nat.mul_le_mono_r; exact Hab).
    lia.
Qed.

End TensorFacts.

Section Residual.
Import PlainMDPWorldModel.

Lemma slice_bound_minus_two (o d : nat) : slice_bound (o + 2) d (Some (-2)%Z) = o.
Proof. unfold slice_bound. destruct (Z.ltb_spec (-2) 0); lia. Qed.

Lemma slice_bound_minus_one (o d : nat) : slice_bound (o + 2) d (Some (-1)%Z) = (o + 1)%nat.
Proof. unfold slice_bound. destruct (Z.ltb_spec (-1) 0); lia. Qed.

Lemma reshape_ok {A} (t : tensor A) (s : list nat) :
  numel s = numel (shape t) -> reshape t s = ok (Tensor.mk s (data t) (dev t)).
Proof.
  intros H. unfold reshape. rewrite H, Nat.eqb_refl. reflexivity.
Qed.

Lemma log_var_part_shape (self : t) (u : tensor R) :
  shape (if learn_obs_var self then get_log_var self u else zeros_like u) = shape u.
Proof.
  destruct (learn_obs_var self); [apply get_log_var_shape | reflexivity].
Qed.

(** C9.  In residual mode, on the shapes [forward] hands over,
    [get_outputs] returns, and its next-observation mean is the observation
    plus, entry by entry, the mean columns before the last two (the
    predicted delta); when that delta is zero everywhere the
    next-observation mean is the observation itself. *)
Theorem get_outputs_residual (self : t) (mean log_var observation : tensor R)
  (batch_size : list nat) :
  residual self = true ->
  shape mean = [numel batch_size; (obs_dim self + 2)%nat] ->
  shape log_var = [numel batch_size; (obs_dim self + 2)%nat] ->
  shape observation = batch_size ++ [obs_dim self] ->
  wf mean -> wf observation ->
  dev observation = dev mean ->
  exists out delta,
    get_outputs self mean log_var observation batch_size = ok out
    /\ slice_dim1 None (Some (-2)%Z) mean = ok delta
    /\ shape (next_obs_mean out) = shape observation
    /\ data (next_obs_mean out) = map2 Rplus (data observation) (data delta)
    /\ length (data delta) = length (data observation)
    /\ (Forall (fun v => v = 0) (data delta) -> next_obs_mean out = observation).
Proof.
  intros Hres Hmean Hlv Hobs Hwfm Hwfo Hdev.
  destruct (slice_dim1 None (Some (-2)%Z) mean) as [e|delta] eqn:Hdelta;
    [unfold slice_dim1 in Hdelta; rewrite Hmean in Hdelta; discriminate|].
  pose proof (slice_dim1_wf _ _ _ _ Hwfm Hdelta) as Hwfd.
  assert (Hsd : shape delta = [numel batch_size; obs_dim self]
                /\ dev delta = dev mean).
  { unfold slice_dim1 in Hdelta. rewrite Hmean in Hdelta.
    rewrite slice_bound_minus_two in Hdelta. inversion Hdelta; subst; simpl.
    rewrite Nat.sub_0_r. auto. }
  destruct Hsd as [Hsd Hdd].
  assert (Hnum : numel (batch_size ++ [obs_dim self]) = numel (shape delta))
    by (rewrite Hsd, numel_app; simpl; lia).
  set (delta' := Tensor.mk (batch_size ++ [obs_dim self]) (data delta) (dev delta)).
  assert (Hadd : add observation delta'
                 = ok (Tensor.mk (shape observation)
                                 (map2 Rplus (data observation) (data delta))
                                 (dev observation))).
  { apply (add_same_shape observation delta'); simpl; auto.
    - congruence.
    - unfold wf, delta'. simpl. unfold wf in Hwfd. lia. }
  unfold get_outputs. rewrite Hdelta. cbn [bind].
  unfold slice_dim1 at 1 2 3 4. rewrite Hmean, Hlv. cbn [bind ok].
  rewrite !slice_bound_minus_two, !slice_bound_minus_one.
  rewrite (reshape_ok delta _ Hnum). cbn [bind ok]. fold delta'.
  rewrite Hres, Hadd. cbn [bind ok].
  rewrite !reshape_ok;
    [| rewrite ?log_var_part_shape; cbn [shape]; rewrite numel_app; simpl; lia ..].
  cbn [bind ok].
  eexists. exists delta. split; [reflexivity|]. split; [reflexivity|].
  cbn [next_obs_mean shape data].
  assert (Hlen : length (data delta) = length (data observation)).
  { unfold wf in Hwfd, Hwfo. rewrite Hwfd, Hwfo, Hsd, Hobs, numel_app. simpl. lia. }
  repeat split; auto.
  intros Hzero. rewrite (map2_plus_zero _ _ Hlen Hzero).
  destruct observation; reflexivity.
Qed.

Lemma get_outputs_residual_witness :
  exists out delta,
    get_outputs (mk 2 true true (-10, 1 / 2))
                (Tensor.mk [1%nat; 4%nat] [0; 0; 5; 6] cpu)
                (Tensor.mk [1%nat; 4%nat] [1; 2; 3; 4] cpu)
                (Tensor.mk [1%nat; 2%nat] [7; 8] cpu) [1%nat] = ok out
    /\ slice_dim1 None (Some (-2)%Z) (Tensor.mk [1%nat; 4%nat] [0; 0; 5; 6] cpu) = ok delta
    /\ shape (next_obs_mean out) = [1%nat; 2%nat]
    /\ data (next_obs_mean out) = map2 Rplus [7; 8] (data delta)
    /\ length (data delta) = 2%nat
    /\ (Forall (fun v => v = 0) (data delta)
        -> next_obs_mean out = Tensor.mk [1%nat; 2%nat] [7; 8] cpu).
Proof.
  apply (get_outputs_residual (mk 2 true true (-10, 1 / 2))
           (Tensor.mk [1%nat; 4%nat] [0; 0; 5; 6] cpu)
           (Tensor.mk [1%nat; 4%nat] [1; 2; 3; 4] cpu)
           (Tensor.mk [1%nat; 2%nat] [7; 8] cpu) [1%nat]); reflexivity.
Defined.

End Residual.

Section ExhaustiveSolver.
Import Metrics.

Lemma choose_sound (n k a : nat) (l : list nat) :
  In l (choose k (seq a n)) ->
  length l = k /\ StronglySorted lt l /\ Forall (fun i => (a <= i < a + n)%nat) l.
Proof.
  revert k a l. induction n as [|n IH]; intros k a l H.
  - destruct k; simpl in H; [|contradiction].
    destruct H as [<-|[]]. repeat split; constructor.
  - destruct k.
    + simpl in H. destruct H as [<-|[]]. repeat split; constructor.
    + simpl in H. apply in_app_or in H. destruct H as [H|H].
      * apply in_map_iff in H. destruct H as [l' [<- Hl']].
        apply IH in Hl'. destruct Hl' as [Hlen [Hsort Hrange]].
        split; [simpl; lia|]. split.
        -- constructor; [assumption|].
           eapply Forall_impl; [|exact Hrange]. simpl. intros; lia.
        -- constructor; [lia|].
           eapply Forall_impl; [|exact Hrange]. simpl. intros; lia.
      * apply IH in H. destruct H as [Hlen [Hsort Hrange]].
        repeat split; auto.
        eapply Forall_impl; [|exact Hrange]. simpl. intros; lia.
Qed.

Lemma choose_complete (n k a : nat) (l : list nat) :
  length l = k -> StronglySorted lt l ->
  Forall (fun i => (a <= i < a + n)%nat) l ->
  In l (choose k (seq a n)).
Proof.
  revert k a l. induction n as [|n IH]; intros k a l Hlen Hsort Hrange.
  - destruct l as [|x l].
    + subst k. simpl. auto.
    + inversion Hrange; subst. lia.
  - destruct l as [|x l].
    + subst k. simpl. auto.
    + destruct k as [|k]; [discriminate|]. simpl in Hlen.
      apply StronglySorted_inv in Hsort. destruct Hsort as [Hsort Hall].
      inversion Hrange as [|? ? Hx Hrest]; subst.
      simpl. apply in_or_app.
      destruct (Nat.eq_dec x a) as [->|Hne].
      * left. apply in_map. apply IH; [lia | assumption |].
        rewrite Forall_forall in *. intros i Hi.
        specialize (Hall i Hi). specialize (Hrest i Hi). lia.
      * right. apply IH; [simpl; lia | constructor; assumption |].
        constructor; [lia|].
        rewrite Forall_forall in *. intros i Hi.
        specialize (Hall i Hi). specialize (Hrest i Hi). lia.
Qed.

Lemma arrangements_sound (k : nat) (pool l : list nat) :
  In l (arrangements k pool) ->
  length l = k /\ NoDup l /\ Forall (fun j => In j pool) l.
Proof.
  revert pool l. induction k as [|k IH]; intros pool l H; simpl in H.
  - destruct H as [<-|[]]. repeat split; constructor.
  - apply in_flat_map in H. destruct H as [c [Hc H]].
    apply in_map_iff in H. destruct H as [l' [<- Hl']].
    apply IH in Hl'. destruct Hl' as [Hlen [Hnd Hin]].
    rewrite Forall_forall in Hin.
    split; [simpl; lia|]. split.
    + constructor; [|assumption]. intros Habs.
      apply Hin, in_remove in Habs. tauto.
    + constructor; [assumption|]. apply Forall_forall. intros j Hj.
      apply Hin, in_remove in Hj. tauto.
Qed.

Lemma arrangements_complete (k : nat) (pool l : list nat) :
  length l = k -> NoDup l -> Forall (fun j => In j pool) l ->
  In l (arrangements k pool).
Proof.
  revert pool l. induction k as [|k IH]; intros pool l Hlen Hnd Hin.
  - destruct l; [simpl; auto | discriminate].
  - destruct l as [|c l]; [discriminate|]. simpl in Hlen.
    inversion Hnd as [|? ? Hc Hnd']; subst.
    inversion Hin as [|? ? Hcp Hin']; subst.
    simpl. apply in_flat_map. exists c. split; [assumption|].
    apply in_map. apply IH; [lia | assumption |].
    rewrite Forall_forall in *. intros j Hj.
    apply in_in_remove; [|auto]. intros ->. contradiction.
Qed.

Lemma candidates_valid (n m : nat) (a : assignment) :
  In a (candidates n m) <-> valid_assignment n m a.
Proof.
  destruct a as [rows cols]. unfold candidates, valid_assignment. cbn [fst snd].
  split.
  - intros H. apply (proj1 (in_prod_iff _ _ _ _)) in H. destruct H as [Hr Hc].
    apply choose_sound in Hr. apply arrangements_sound in Hc.
    destruct Hr as [Hrl [Hrs Hrr]], Hc as [Hcl [Hcn Hcr]].
    repeat split; auto.
    + eapply Forall_impl; [|exact Hrr]. simpl. intros; lia.
    + eapply Forall_impl; [|exact Hcr]. simpl. intros j Hj.
      apply in_seq in Hj. lia.
  - intros [Hrl [Hcl [Hrs [Hrr [Hcn Hcr]]]]].
    apply (proj2 (in_prod_iff _ _ _ _)). split.
    + apply choose_complete; auto.
      eapply Forall_impl; [|exact Hrr]. simpl. intros; lia.
    + apply arrangements_complete; auto.
      eapply Forall_impl; [|exact Hcr]. simpl. intros j Hj.
      apply in_seq. lia.
Qed.

Lemma seq_strongly_sorted (a k : nat) : StronglySorted lt (seq a k).
Proof.
  revert a. induction k as [|k IH]; intros a; simpl; constructor; [apply IH|].
  apply Forall_forall. intros i Hi. apply in_seq in Hi. lia.
Qed.

Lemma identity_valid (n m : nat) :
  valid_assignment n m (seq 0 (Nat.min n m), seq 0 (Nat.min n m)).
Proof.
  unfold valid_assignment. simpl. rewrite !length_seq.
  repeat split; auto using seq_strongly_sorted, seq_NoDup;
    apply Forall_forall; intros i Hi; apply in_seq in Hi; lia.
Qed.

Lemma argmin_le_best {A} (cost : A -> R) (best : A) (l : list A) :
  cost (argmin cost best l) <= cost best.
Proof.
  revert best. induction l as [|a l IH]; intros best; simpl; [lra|].
  destruct (Rlt_dec (cost a) (cost best)) as [Hlt|Hge].
  - specialize (IH a). lra.
  - apply IH.
Qed.

Lemma argmin_le {A} (cost : A -> R) (best : A) (l : list A) (a : A) :
  In a (best :: l) -> cost (argmin cost best l) <= cost a.
Proof.
  revert best. induction l as [|b l IH]; intros best Ha; simpl.
  - destruct Ha as [<-|[]]. lra.
  - destruct Ha as [<-|[<-|Ha]].
    + pose proof (argmin_le_best cost (if Rlt_dec (cost b) (cost best) then b else best) l) as H.
      destruct (Rlt_dec (cost b) (cost best)); lra.
    + pose proof (argmin_le_best cost (if Rlt_dec (cost b) (cost best) then b else best) l) as H.
      destruct (Rlt_dec (cost b) (cost best)); lra.
    + apply IH. right. exact Ha.
Qed.

Lemma argmin_in {A} (cost : A -> R) (best : A) (l : list A) :
  In (argmin cost best l) (best :: l).
Proof.
  revert best. induction l as [|b l IH]; intros best; simpl; [auto|].
  destruct (IH (if Rlt_dec (cost b) (cost best) then b else best)) as [H|H].
  - rewrite <- H. destruct (Rlt_dec (cost b) (cost best)); auto.
  - auto.
Qed.

(** The reference solver keeps the promise of [solver_contract]. *)
Lemma exhaustive_solver_contract : solver_contract exhaustive_solver.
Proof.
  intros c n m [Hlen Hrows]. unfold exhaustive_solver.
  assert (Hcand : forall a, In a (candidates (length c) (length (hd [] c)))
                            <-> valid_assignment n m a).
  { intros a. rewrite candidates_valid. destruct c as [|r c]; simpl in *.
    - subst n. unfold valid_assignment. simpl.
      split; intros [Hr [Hc H]]; (split; [exact Hr|]); (split; [exact Hc|]);
        destruct (snd a); try discriminate; intuition constructor.
    - inversion Hrows; subst. tauto. }
  destruct (candidates (length c) (length (hd [] c))) as [|a0 l] eqn:Hc.
  - exfalso. apply (proj2 (Hcand _) (identity_valid n m)).
  - split.
    + apply Hcand. apply argmin_in.
    + intros b Hb. apply argmin_le. apply Hcand. exact Hb.
Qed.

End ExhaustiveSolver.

Section Pipeline.
Import Metrics.

Lemma firstn_length_app {A} (l l' : list A) : firstn (length l) (l ++ l') = l.
Proof. induction l; simpl; [destruct l'; reflexivity | f_equal; assumption]. Qed.

Lemma skipn_length_app {A} (l l' : list A) : skipn (length l) (l ++ l') = l'.
Proof. induction l; simpl; [reflexivity | assumption]. Qed.

Lemma block_of_stacked {A} (g : list R -> list R -> A) (cx cy : list (list R)) :
  block (length cx) (map (fun a => map (g a) (cx ++ cy)) (cx ++ cy))
  = map (fun a => map (g a) cy) cx.
Proof.
  unfold block. rewrite firstn_map, firstn_length_app, map_map.
  apply map_ext. intros a. rewrite skipn_map, skipn_length_app. reflexivity.
Qed.

Lemma columns_length (x : tensor R) (n d : nat) :
  shape x = [n; d] -> length (columns x) = d.
Proof.
  intros H. unfold columns. rewrite length_map, length_seq, H. reflexivity.
Qed.

Lemma all_some_finite (l : list npfloat) :
  all_some (map finite l)
  = if forallb is_finite l then Some (map value l) else None.
Proof.
  induction l as [|v l IH]; simpl; [reflexivity|].
  destruct v; simpl; [reflexivity|].
  rewrite IH. destruct (forallb is_finite l); reflexivity.
Qed.

Lemma finite_matrix_spec (m : list (list npfloat)) :
  finite_matrix m
  = if forallb (forallb is_finite) m then Some (map (map value) m) else None.
Proof.
  unfold finite_matrix. induction m as [|r m IH]; simpl; [reflexivity|].
  rewrite all_some_finite. destruct (forallb is_finite r); simpl; [|reflexivity].
  rewrite IH. destruct (forallb (forallb is_finite) m); reflexivity.
Qed.

Lemma forallb_map_id {A B} (f : A -> B) (q : B -> bool) (q' : A -> bool) (l : list A) :
  (forall a, q (f a) = q' a) -> forallb q (map f l) = forallb q' l.
Proof.
  intros H. induction l as [|a l IH]; simpl; [reflexivity|].
  rewrite H, IH. reflexivity.
Qed.

(** The cost matrix handed to the solver, when no entry is NaN. *)
Lemma cost_matrix_finite (cc : list (list npfloat)) :
  finite_matrix (map (map (fscale (-1))) (map (map fabs) cc))
  = if forallb (forallb is_finite) cc
    then Some (map (map (fun v => -1 * Rabs (value v))) cc) else None.
Proof.
  rewrite finite_matrix_spec.
  assert (Hfin : forallb (forallb is_finite) (map (map (fscale (-1))) (map (map fabs) cc))
                 = forallb (forallb is_finite) cc).
  { rewrite map_map. apply forallb_map_id. intros r. rewrite map_map.
    apply forallb_map_id. intros []; reflexivity. }
  rewrite Hfin. destruct (forallb (forallb is_finite) cc) eqn:Hall; [|reflexivity].
  f_equal. rewrite !map_map. apply map_ext_in. intros r Hr.
  rewrite !map_map. apply map_ext_in. intros v Hv.
  destruct v; simpl; [|reflexivity].
  rewrite forallb_forall in Hall. specialize (Hall r Hr).
  rewrite forallb_forall in Hall. specialize (Hall _ Hv). discriminate.
Qed.

Lemma entry_map (g : R -> R) (c : list (list R)) (i j : nat) :
  g 0 = 0 -> entry (map (map g) c) i j = g (entry c i j).
Proof.
  intros Hg. unfold entry.
  change (@nil R) with (map g []) at 1. rewrite map_nth.
  rewrite <- Hg at 1. apply map_nth.
Qed.

Lemma Rsum_scale (k : R) (l : list R) : Rsum (map (fun v => k * v) l) = k * Rsum l.
Proof.
  induction l as [|a l IH]; simpl; [lra|]. rewrite IH. lra.
Qed.

Lemma map2_map {A B C D} (f : A -> B -> C) (g : C -> D) (la : list A) (lb : list B) :
  map g (map2 f la lb) = map2 (fun a b => g (f a b)) la lb.
Proof.
  revert lb. induction la as [|a la IH]; intros [|b lb]; simpl; try reflexivity.
  rewrite IH. reflexivity.
Qed.

Lemma map2_ext {A B C} (f g : A -> B -> C) (la : list A) (lb : list B) :
  (forall a b, In a la -> In b lb -> f a b = g a b) -> map2 f la lb = map2 g la lb.
Proof.
  revert lb. induction la as [|a la IH]; intros [|b lb] H; simpl; try reflexivity.
  rewrite H by (simpl; auto). f_equal. apply IH. intros; apply H; simpl; auto.
Qed.

Lemma total_negated (c : list (list R)) (a : assignment) :
  total (map (map (fun v => -1 * v)) c) a = - total c a.
Proof.
  unfold total.
  rewrite (map2_ext _ (fun i j => -1 * entry c i j))
    by (intros; apply entry_map; lra).
  rewrite <- (map2_map (entry c) (fun v => -1 * v)), Rsum_scale. lra.
Qed.

Lemma np_sum_finite (l : list R) : np_sum (map Fin l) = Fin (Rsum l).
Proof.
  induction l as [|a l IH]; [reflexivity|].
  change (np_sum (map Fin (a :: l))) with (fadd (Fin a) (np_sum (map Fin l))).
  rewrite IH. reflexivity.
Qed.

Lemma fancy_index_valid (cc : list (list npfloat)) (n m : nat) (rows cols : list nat) :
  dims cc n m ->
  Forall (fun i => (i < n)%nat) rows -> Forall (fun j => (j < m)%nat) cols ->
  fancy_index cc rows cols
  = ok (map2 (fun i j => nth j (nth i cc []) NaN) rows cols).
Proof.
  intros [Hn Hm] Hrows. revert cols.
  induction Hrows as [|i rows Hi _ IH]; intros cols Hcols; [reflexivity|].
  destruct Hcols as [|j cols Hj Hcols]; [reflexivity|]. simpl.
  destruct (nth_error cc i) as [r|] eqn:Hr;
    [|apply nth_error_None in Hr; lia].
  rewrite (nth_error_nth _ _ [] Hr).
  assert (Hlen : length r = m).
  { rewrite Forall_forall in Hm. apply Hm. eapply nth_error_In; eauto. }
  destruct (nth_error r j) as [v|] eqn:Hv;
    [|apply nth_error_None in Hv; lia].
  rewrite (nth_error_nth _ _ NaN Hv), (IH cols Hcols). reflexivity.
Qed.

End Pipeline.

Section Scoring.
Import Metrics.

Variable solver : list (list R) -> assignment.
Hypothesis solver_ok : solver_contract solver.

Lemma dims_map {A B} (g : A -> B) (c : list (list A)) (n m : nat) :
  dims c n m -> dims (map (map g) c) n m.
Proof.
  intros [Hn Hm]. split; [rewrite length_map; exact Hn|].
  apply Forall_forall. intros r Hr. apply in_map_iff in Hr.
  destruct Hr as [r' [<- Hr']]. rewrite length_map.
  rewrite Forall_forall in Hm. auto.
Qed.

Lemma nth_nth_in {A} (c : list (list A)) (n m i j : nat) (d : A) :
  dims c n m -> (i < n)%nat -> (j < m)%nat ->
  In (nth i c []) c /\ In (nth j (nth i c []) d) (nth i c []).
Proof.
  intros [Hn Hm] Hi Hj.
  assert (Hin : In (nth i c []) c) by (apply nth_In; lia).
  split; [exact Hin|]. apply nth_In.
  rewrite Forall_forall in Hm. rewrite (Hm _ Hin). exact Hj.
Qed.

Lemma nth_nth_map {A B} (g : A -> B) (c : list (list A)) (i j : nat) (d : A) :
  nth j (nth i (map (map g) c) []) (g d) = g (nth j (nth i c []) d).
Proof.
  replace (nth i (map (map g) c) []) with (map g (nth i c []))
    by (symmetry; apply (map_nth (map g) c [] i)).
  apply map_nth.
Qed.

(** With a NaN in the correlation block the solver raises. *)
Lemma score_from_nan (cc : list (list npfloat)) (d : nat) (y : tensor R) (rp : bool) :
  forallb (forallb is_finite) cc = false ->
  score_from solver cc d y rp
  = ([call_linear_sum_assignment],
     raise (ValueError "matrix contains invalid numeric entries")).
Proof.
  intros H. unfold score_from, linear_sum_assignment.
  rewrite cost_matrix_finite, H. reflexivity.
Qed.

(** Without NaN the score is the best total of absolute correlations over
    the greater of the two widths; the block may be narrower than [y]. *)
Lemma score_from_finite_block (cc : list (list npfloat)) (d1 k d2 : nat) (y : tensor R)
  (rp : bool) :
  dims cc d1 k ->
  nth_error (shape y) 1 = Some d2 ->
  forallb (forallb is_finite) cc = true ->
  let absm := map (map (fun v => Rabs (value v))) cc in
  let a := solver (map (map (fun v => -1 * v)) absm) in
  let s := fdiv_nat (Fin (total absm a)) (Nat.max d1 d2) in
  score_from solver cc d1 y rp
  = ([call_linear_sum_assignment],
     ok (if rp then score_and_permutation s a else score_only s))
  /\ min_cost (map (map (fun v => -1 * v)) absm) d1 k a
  /\ forall b, valid_assignment d1 k b -> total absm b <= total absm a.
Proof.
  intros Hdims Hy Hfin absm a s.
  assert (Hmin : min_cost (map (map (fun v => -1 * v)) absm) d1 k a)
    by (apply solver_ok; unfold absm; auto using dims_map).
  split; [|split; [exact Hmin|]].
  - destruct Hmin as [Hvalid _].
    destruct Hvalid as [Hrl [Hcl [_ [Hrr [_ Hcr]]]]].
    unfold score_from, linear_sum_assignment.
    rewrite cost_matrix_finite, Hfin.
    replace (map (map (fun v => -1 * Rabs (value v))) cc)
      with (map (map (fun v => -1 * v)) absm)
      by (unfold absm; rewrite map_map; apply map_ext; intros r;
          rewrite map_map; reflexivity).
    fold a. cbn [tbind tcall tret app ok fst snd].
    rewrite (fancy_index_valid _ d1 k (fst a) (snd a) (dims_map fabs cc d1 k Hdims) Hrr Hcr).
    rewrite Hy.
    assert (Hpick : map2 (fun i j => nth j (nth i (map (map fabs) cc) []) NaN) (fst a) (snd a)
                    = map Fin (map2 (entry absm) (fst a) (snd a))).
    { rewrite map2_map. apply map2_ext. intros i j Hi Hj.
      rewrite Forall_forall in Hrr, Hcr. specialize (Hrr i Hi). specialize (Hcr j Hj).
      destruct (nth_nth_in cc d1 k i j NaN Hdims Hrr Hcr) as [Hrow Hcell].
      rewrite forallb_forall in Hfin. specialize (Hfin _ Hrow).
      rewrite forallb_forall in Hfin. specialize (Hfin _ Hcell).
      unfold entry, absm.
      pose proof (nth_nth_map fabs cc i j NaN) as Hpicked. cbn [fabs] in Hpicked.
      rewrite Hpicked.
      pose proof (nth_nth_map (fun v => Rabs (value v)) cc i j NaN) as Hentry.
      cbn [value] in Hentry. rewrite Rabs_R0 in Hentry. rewrite Hentry.
      destruct (nth j (nth i cc []) NaN); [discriminate | reflexivity]. }
    cbn [tlift tbind ok app]. rewrite Hpick, np_sum_finite.
    destruct rp; reflexivity.
  - intros b Hb. destruct Hmin as [_ Hmin]. specialize (Hmin b Hb).
    rewrite !total_negated in Hmin. lra.
Qed.

Lemma score_from_finite (cc : list (list npfloat)) (d1 d2 : nat) (y : tensor R) (rp : bool) :
  dims cc d1 d2 ->
  nth_error (shape y) 1 = Some d2 ->
  forallb (forallb is_finite) cc = true ->
  let absm := map (map (fun v => Rabs (value v))) cc in
  let a := solver (map (map (fun v => -1 * v)) absm) in
  let s := fdiv_nat (Fin (total absm a)) (Nat.max d1 d2) in
  score_from solver cc d1 y rp
  = ([call_linear_sum_assignment],
     ok (if rp then score_and_permutation s a else score_only s))
  /\ min_cost (map (map (fun v => -1 * v)) absm) d1 d2 a
  /\ forall b, valid_assignment d1 d2 b -> total absm b <= total absm a.
Proof. apply score_from_finite_block. Qed.

(** [mean_corr_coef] is the correlation block followed by [score_from]. *)
Lemma mean_corr_coef_staged (x y : tensor R) (method : string) (rp : bool) :
  mean_corr_coef solver x y method rp
  = (d <- tlift (match nth_error (shape x) 1 with
                 | Some d => ok d
                 | None => raise IndexError
                 end) ;;
     cc <- (if String.eqb method "pearson" then
              c <- np_corrcoef x y ;; tlift (correlation_block d c)
            else if String.eqb method "spearman" then
              c <- spearmanr x y ;; tlift (correlation_block d c)
            else traise (ValueError ("not a valid method: " ++ method))) ;;
     score_from solver cc d y rp)%traced.
Proof. reflexivity. Qed.

Lemma rows_length (y : tensor R) (n d : nat) :
  shape y = [n; d] -> length (rows y) = n.
Proof.
  intros H. unfold rows. rewrite length_map, length_seq, H. reflexivity.
Qed.

(** What [np.cov] stacks for two matrices. *)
Lemma cov_variables_matrices (x y : tensor R) (n n2 d1 d2 : nat) :
  shape x = [n; d1] -> shape y = [n2; d2] ->
  cov_variables x y
  = if Nat.eqb d1 0 then ok []
    else if Nat.eqb n2 1 then
      if Nat.eqb n d2 then ok (columns x ++ rows y) else raise (ValueError stack_message)
    else if Nat.eqb n n2 then ok (columns x ++ columns y)
    else raise (ValueError stack_message).
Proof.
  intros Hx Hy. pose proof (columns_length x n d1 Hx) as Hlen.
  unfold cov_variables, ndmin2. rewrite Hx, Hy.
  cbn [bind ok length Nat.eqb negb]. rewrite Hx, Hy. cbn [nth].
  destruct (columns x) as [|a cx]; destruct d1 as [|d1]; simpl in Hlen; try discriminate;
    [reflexivity|].
  cbn [Nat.eqb]. destruct (Nat.eqb n2 1); reflexivity.
Qed.

Lemma corrcoef_of_matrix (vars : list (list R)) :
  length vars <> 1%nat -> corrcoef_of vars = rho_matrix (corr_matrix vars).
Proof.
  intros H. destruct vars as [|a [|b l]]; simpl in H; try reflexivity. contradiction.
Qed.

Lemma corrcoef_of_scalar (vars : list (list R)) (d : nat) :
  length vars = 1%nat -> correlation_block d (corrcoef_of vars) = raise IndexError.
Proof.
  intros H. destruct vars as [|a [|b l]]; simpl in H; try discriminate. reflexivity.
Qed.

(** The block of the correlations of [X ++ Y] holds the correlations
    between [X] and [Y]. *)
Lemma corrcoef_block (X Y : list (list R)) :
  length (X ++ Y) <> 1%nat ->
  correlation_block (length X) (corrcoef_of (X ++ Y))
  = ok (map (fun a => map (corr_entry a) Y) X).
Proof.
  intros H. rewrite (corrcoef_of_matrix _ H). unfold correlation_block, corr_matrix.
  rewrite block_of_stacked. reflexivity.
Qed.

Lemma mean_corr_coef_pearson (x y : tensor R) (n n2 d1 d2 : nat) (rp : bool) :
  shape x = [n; d1] -> shape y = [n2; d2] ->
  mean_corr_coef solver x y "pearson" rp
  = if Nat.eqb d1 0 then
      (call_corrcoef :: fst (score_from solver [] 0 y rp),
       snd (score_from solver [] 0 y rp))
    else if Nat.eqb n2 1 then
      if Nat.eqb n d2 then
        (call_corrcoef :: fst (score_from solver (row_correlations x y) d1 y rp),
         snd (score_from solver (row_correlations x y) d1 y rp))
      else ([call_corrcoef], raise (ValueError stack_message))
    else if Nat.eqb n n2 then
      if Nat.eqb (d1 + d2) 1 then ([call_corrcoef], raise IndexError)
      else
        (call_corrcoef :: fst (score_from solver (cross_correlations "pearson" x y) d1 y rp),
         snd (score_from solver (cross_correlations "pearson" x y) d1 y rp))
    else ([call_corrcoef], raise (ValueError stack_message)).
Proof.
  intros Hx Hy. rewrite mean_corr_coef_staged.
  unfold np_corrcoef. rewrite (cov_variables_matrices x y n n2 d1 d2 Hx Hy), Hx.
  cbn [nth_error tlift tbind ok String.eqb Ascii.eqb Bool.eqb tcall app].
  pose proof (columns_length x n d1 Hx) as Hcx.
  pose proof (columns_length y n2 d2 Hy) as Hcy.
  pose proof (rows_length y n2 d2 Hy) as Hry.
  destruct (Nat.eqb_spec d1 0) as [->|Hz].
  - cbn [tlift tbind ok tret app corrcoef_of correlation_block corr_matrix
         block firstn map].
    destruct (score_from solver [] 0 y rp); reflexivity.
  - destruct (Nat.eqb_spec n2 1) as [Hone|Hone].
    + destruct (Nat.eqb n d2); [|reflexivity].
      cbn [tlift tbind ok tret app]. rewrite <- Hcx at 1.
      rewrite corrcoef_block by (rewrite length_app; lia).
      cbn [tlift tbind ok tret app]. unfold row_correlations.
      match goal with
      | |- context [score_from ?s ?cc ?d ?t ?r] => destruct (score_from s cc d t r)
      end; reflexivity.
    + destruct (Nat.eqb n n2); [|reflexivity].
      cbn [tlift tbind ok tret app].
      destruct (Nat.eqb_spec (d1 + d2) 1) as [Hv|Hv].
      * rewrite corrcoef_of_scalar by (rewrite length_app; lia). reflexivity.
      * rewrite <- Hcx at 1.
        rewrite corrcoef_block by (rewrite length_app; lia).
        cbn [tlift tbind ok tret app].
        change (map (fun a => map (corr_entry a) (columns y)) (columns x))
          with (cross_correlations "pearson" x y).
        match goal with
        | |- context [score_from ?s ?cc ?d ?t ?r] => destruct (score_from s cc d t r)
        end; reflexivity.
Qed.

(** Two matrices of columns with as many rows, not a single one: the
    block holds the correlations between the columns. *)
Lemma mean_corr_coef_pearson_columns (x y : tensor R) (n d1 d2 : nat) (rp : bool) :
  shape x = [n; d1] -> shape y = [n; d2] ->
  n <> 1%nat -> (0 < d1)%nat -> (0 < d2)%nat ->
  mean_corr_coef solver x y "pearson" rp
  = (call_corrcoef :: fst (score_from solver (cross_correlations "pearson" x y) d1 y rp),
     snd (score_from solver (cross_correlations "pearson" x y) d1 y rp)).
Proof.
  intros Hx Hy Hn H1 H2.
  rewrite (mean_corr_coef_pearson x y n n d1 d2 rp Hx Hy).
  destruct (Nat.eqb_spec d1 0); [lia|].
  destruct (Nat.eqb_spec n 1); [contradiction|].
  rewrite Nat.eqb_refl.
  destruct (Nat.eqb_spec (d1 + d2) 1); [lia | reflexivity].
Qed.

Lemma column_stack_matrices (x y : tensor R) (n n2 d1 d2 : nat) :
  shape x = [n; d1] -> shape y = [n2; d2] ->
  column_stack x y
  = if Nat.eqb n n2 then ok (columns x ++ columns y, n)
    else raise (ValueError stack_message).
Proof.
  intros Hx Hy. unfold column_stack, as_columns. rewrite Hx, Hy. rewrite Hx, Hy.
  reflexivity.
Qed.

Lemma mean_corr_coef_spearman (x y : tensor R) (n n2 d1 d2 : nat) (rp : bool) :
  shape x = [n; d1] -> shape y = [n2; d2] ->
  mean_corr_coef solver x y "spearman" rp
  = if Nat.eqb n n2 then
      match spearman_rho (columns x ++ columns y) n with
      | inl e => ([call_spearmanr], raise e)
      | inr py_nan => ([call_spearmanr], raise TypeError)
      | inr (rho_scalar _) => ([call_spearmanr], raise IndexError)
      | inr (rho_matrix m) =>
          (call_spearmanr :: fst (score_from solver (block d1 m) d1 y rp),
           snd (score_from solver (block d1 m) d1 y rp))
      end
    else ([call_spearmanr], raise (ValueError stack_message)).
Proof.
  intros Hx Hy. rewrite mean_corr_coef_staged.
  unfold spearmanr. rewrite (column_stack_matrices x y n n2 d1 d2 Hx Hy), Hx.
  cbn [nth_error tlift tbind ok String.eqb Ascii.eqb Bool.eqb tcall app].
  destruct (Nat.eqb n n2); [|reflexivity].
  cbn [tlift tbind ok tret app fst snd].
  destruct (spearman_rho (columns x ++ columns y) n) as [e|[|r|m]]; try reflexivity.
  cbn [tlift tbind ok tret app correlation_block].
  destruct (score_from solver (block d1 m) d1 y rp); reflexivity.
Qed.

Lemma nonconstant_not_constant (a : list R) : nonconstant a -> is_constant a = false.
Proof.
  intros [u [v [Hu [Hv Huv]]]]. destruct (is_constant a) eqn:Hc; [|reflexivity].
  exfalso. unfold is_constant in Hc. rewrite forallb_forall in Hc.
  pose proof (Hc u Hu) as H1. pose proof (Hc v Hv) as H2.
  destruct (Req_dec_T (hd 0 a) u); [|discriminate].
  destruct (Req_dec_T (hd 0 a) v); [|discriminate]. congruence.
Qed.

Lemma nonconstant_two (a : list R) : nonconstant a -> (2 <= length a)%nat.
Proof.
  intros [u [v [Hu [Hv Huv]]]]. destruct a as [|a1 [|a2 a]]; simpl in *;
    [contradiction | destruct Hu as [<-|[]], Hv as [<-|[]]; contradiction | lia].
Qed.

(** With two observations at least, three variables at least, and the
    first two not constant, [spearmanr] hands back the matrix of the rank
    correlations. *)
Lemma spearman_rho_matrix (vars : list (list R)) (n_obs : nat) :
  (2 <= n_obs)%nat -> (3 <= length vars)%nat ->
  is_constant (nth 0 vars []) = false -> is_constant (nth 1 vars []) = false ->
  spearman_rho vars n_obs = ok (rho_matrix (corr_matrix (map rankdata vars))).
Proof.
  intros Hn Hv H0 H1. unfold spearman_rho.
  destruct (Nat.leb_spec n_obs 1); [lia|].
  destruct vars as [|a0 [|a1 [|a2 rest]]]; simpl in Hv; try lia.
  cbn [nth] in H0, H1. rewrite H0, H1. reflexivity.
Qed.

Lemma spearman_rho_two (vars : list (list R)) (n_obs : nat) :
  length vars = 2%nat ->
  spearman_rho vars n_obs
  = if (n_obs <=? 1)%nat || existsb is_constant vars then ok py_nan
    else ok (rho_scalar (corr_entry (rankdata (nth 1 vars [])) (rankdata (nth 0 vars [])))).
Proof.
  intros Hv. unfold spearman_rho.
  destruct (n_obs <=? 1)%nat; [reflexivity|].
  destruct vars as [|a0 [|a1 [|a2 rest]]]; simpl in Hv; try lia.
  cbn [existsb orb nth]. destruct (is_constant a0); [reflexivity|].
  destruct (is_constant a1); reflexivity.
Qed.

(** When [spearmanr] hands back a matrix, it is the matrix of the rank
    correlations. *)
Lemma spearman_rho_returns (vars : list (list R)) (n_obs : nat) (m : list (list npfloat)) :
  spearman_rho vars n_obs = ok (rho_matrix m) -> m = corr_matrix (map rankdata vars).
Proof.
  unfold spearman_rho. destruct (n_obs <=? 1)%nat; [discriminate|].
  destruct vars as [|a0 [|a1 rest]]; try discriminate.
  - destruct (is_constant a0); discriminate.
  - destruct (is_constant a0); [discriminate|].
    destruct (is_constant a1); [discriminate|].
    destruct rest as [|a2 rest]; cbn [map]; intros H; inversion H; reflexivity.
Qed.

Lemma spearman_block (x y : tensor R) (n d1 : nat) :
  shape x = [n; d1] ->
  block d1 (corr_matrix (map rankdata (columns x ++ columns y)))
  = cross_correlations "spearman" x y.
Proof.
  intros Hx. unfold corr_matrix. rewrite map_app.
  rewrite <- (columns_length x n d1 Hx) at 1.
  rewrite <- (length_map rankdata (columns x)).
  rewrite block_of_stacked. unfold cross_correlations.
  rewrite map_map. apply map_ext. intros a. rewrite map_map. reflexivity.
Qed.

(** Two matrices of columns, none constant, three columns at least in
    all: the block holds the rank correlations between the columns. *)
Lemma mean_corr_coef_spearman_columns (x y : tensor R) (n d1 d2 : nat) (rp : bool) :
  shape x = [n; d1] -> shape y = [n; d2] ->
  (3 <= d1 + d2)%nat ->
  Forall nonconstant (columns x) -> Forall nonconstant (columns y) ->
  mean_corr_coef solver x y "spearman" rp
  = (call_spearmanr :: fst (score_from solver (cross_correlations "spearman" x y) d1 y rp),
     snd (score_from solver (cross_correlations "spearman" x y) d1 y rp)).
Proof.
  intros Hx Hy Hv Hcx Hcy.
  rewrite (mean_corr_coef_spearman x y n n d1 d2 rp Hx Hy), Nat.eqb_refl.
  pose proof (columns_length x n d1 Hx) as Hlx.
  pose proof (columns_length y n d2 Hy) as Hly.
  assert (Hall : Forall nonconstant (columns x ++ columns y))
    by (apply Forall_app; split; assumption).
  assert (Hlen : length (columns x ++ columns y) = (d1 + d2)%nat)
    by (rewrite length_app; lia).
  assert (Hin : forall i, (i < 2)%nat -> In (nth i (columns x ++ columns y) [])
                                            (columns x ++ columns y))
    by (intros i Hi; apply nth_In; lia).
  rewrite Forall_forall in Hall.
  assert (Hn : (2 <= n)%nat).
  { pose proof (nonconstant_two _ (Hall _ (Hin 0%nat ltac:(lia)))) as H2.
    destruct (in_app_or _ _ _ (Hin 0%nat ltac:(lia))) as [Hi|Hi].
    - apply in_map_iff in Hi. destruct Hi as [j [Hj _]]. rewrite <- Hj in H2.
      unfold column in H2. rewrite length_map, length_seq, Hx in H2. exact H2.
    - apply in_map_iff in Hi. destruct Hi as [j [Hj _]]. rewrite <- Hj in H2.
      unfold column in H2. rewrite length_map, length_seq, Hy in H2. exact H2. }
  rewrite (spearman_rho_matrix _ n Hn) by
    (try lia; apply nonconstant_not_constant, Hall, Hin; lia).
  unfold ok. cbv iota. rewrite (spearman_block x y n d1 Hx). reflexivity.
Qed.

End Scoring.

Section CorrelationFacts.
Import Metrics.

Lemma map2_diag {A B} (f : A -> A -> B) (l : list A) :
  map2 f l l = map (fun a => f a a) l.
Proof.
  induction l as [|a l IH]; simpl; [reflexivity|]. rewrite IH. reflexivity.
Qed.

Lemma Rsum_nonneg (l : list R) : Forall (fun v => 0 <= v) l -> 0 <= Rsum l.
Proof.
  induction 1 as [|a l Ha _ IH]; simpl; lra.
Qed.

Lemma Rsum_pos (l : list R) (u : R) :
  Forall (fun v => 0 <= v) l -> In u l -> 0 < u -> 0 < Rsum l.
Proof.
  induction 1 as [|a l Ha Hl IH]; simpl; intros Hin Hu; [contradiction|].
  destruct Hin as [->|Hin].
  - pose proof (Rsum_nonneg l Hl). lra.
  - specialize (IH Hin Hu). lra.
Qed.

(** A column that takes two values has a positive variance. *)
Lemma nonconstant_variance (a : list R) : nonconstant a -> 0 < cov a a.
Proof.
  intros [u [v [Hu [Hv Huv]]]]. unfold cov. rewrite map2_diag.
  assert (Hlen : 2 <= INR (length a)).
  { destruct a as [|a1 [|a2 a]].
    - contradiction.
    - simpl in Hu, Hv. destruct Hu as [<-|[]], Hv as [<-|[]]. contradiction.
    - change 2 with (INR 2). apply le_INR. simpl. lia. }
  assert (Hsq : Forall (fun s => 0 <= s) (map (fun w => (w - mean a) * (w - mean a)) a)).
  { apply Forall_forall. intros s Hs. apply in_map_iff in Hs.
    destruct Hs as [w [<- _]]. apply Rle_0_sqr. }
  assert (Hw : exists w, In w a /\ w <> mean a).
  { destruct (Req_dec u (mean a)) as [Hum|Hum]; [exists v | exists u]; split; auto.
    congruence. }
  destruct Hw as [w [Hw Hne]].
  assert (Hpos : 0 < Rsum (map (fun w => (w - mean a) * (w - mean a)) a)).
  { apply (Rsum_pos _ ((w - mean a) * (w - mean a)) Hsq).
    - apply in_map_iff. exists w. auto.
    - apply Rsqr_pos_lt. lra. }
  apply Rdiv_lt_0_compat; lra.
Qed.

Lemma count_lt_eq_le (a : list R) (u v : R) :
  u < v -> (count_lt a u + count_eq a u <= count_lt a v)%nat.
Proof.
  intros Huv. unfold count_lt, count_eq.
  induction a as [|w a IH]; simpl; [lia|].
  destruct (Rlt_dec w u), (Req_dec_T w u), (Rlt_dec w v); simpl; try lia; lra.
Qed.

Lemma count_eq_pos (a : list R) (u : R) : In u a -> (1 <= count_eq a u)%nat.
Proof.
  unfold count_eq. induction a as [|w a IH]; simpl; [contradiction|].
  intros [->|Hin].
  - destruct (Req_dec_T u u); [simpl; lia | contradiction].
  - destruct (Req_dec_T w u); simpl; [lia | auto].
Qed.

Lemma rank_increasing (a : list R) (u v : R) :
  In u a -> In v a -> u < v -> rank a u < rank a v.
Proof.
  intros Hu Hv Huv. unfold rank.
  pose proof (le_INR _ _ (count_lt_eq_le a u v Huv)) as H1.
  rewrite plus_INR in H1.
  pose proof (le_INR _ _ (count_eq_pos a u Hu)) as H2.
  pose proof (le_INR _ _ (count_eq_pos a v Hv)) as H3.
  simpl in H2, H3. lra.
Qed.

Lemma rankdata_nonconstant (a : list R) : nonconstant a -> nonconstant (rankdata a).
Proof.
  intros [u [v [Hu [Hv Huv]]]].
  exists (rank a u), (rank a v). unfold rankdata.
  split; [apply in_map; exact Hu|]. split; [apply in_map; exact Hv|].
  destruct (Rtotal_order u v) as [Hlt|[Heq|Hgt]]; [|contradiction|].
  - pose proof (rank_increasing a u v Hu Hv Hlt). lra.
  - pose proof (rank_increasing a v u Hv Hu Hgt). lra.
Qed.

Lemma variable_nonconstant (method : string) (a : list R) :
  nonconstant a -> nonconstant (variable method a).
Proof.
  unfold variable. destruct (String.eqb method "spearman");
    auto using rankdata_nonconstant.
Qed.

Lemma corr_entry_defined (a b : list R) :
  0 < cov a a -> 0 < cov b b -> corr_entry a b = Fin (pearson_r a b).
Proof.
  intros Ha Hb. unfold corr_entry.
  destruct (Req_dec_T (cov a a) 0); [lra|].
  destruct (Req_dec_T (cov b b) 0); [lra|]. reflexivity.
Qed.

Lemma cross_correlations_dims (method : string) (x y : tensor R) (n n2 d1 d2 : nat) :
  shape x = [n; d1] -> shape y = [n2; d2] ->
  dims (cross_correlations method x y) d1 d2.
Proof.
  intros Hx Hy. unfold cross_correlations. split.
  - rewrite length_map. eapply columns_length; eauto.
  - apply Forall_forall. intros r Hr. apply in_map_iff in Hr.
    destruct Hr as [a [<- _]]. rewrite length_map. eapply columns_length; eauto.
Qed.

(** Without a constant column no correlation is NaN. *)
Lemma cross_correlations_defined (method : string) (x y : tensor R) :
  Forall nonconstant (columns x) -> Forall nonconstant (columns y) ->
  forallb (forallb is_finite) (cross_correlations method x y) = true
  /\ map (map (fun v => Rabs (value v))) (cross_correlations method x y)
     = abs_correlations method x y.
Proof.
  intros Hx Hy. rewrite Forall_forall in Hx, Hy.
  assert (Hentry : forall a b, In a (columns x) -> In b (columns y) ->
            corr_entry (variable method a) (variable method b)
            = Fin (pearson_r (variable method a) (variable method b))).
  { intros a b Ha Hb. apply corr_entry_defined;
      apply nonconstant_variance, variable_nonconstant; auto. }
  unfold cross_correlations, abs_correlations. split.
  - apply forallb_forall. intros r Hr. apply in_map_iff in Hr.
    destruct Hr as [a [<- Ha]]. apply forallb_forall. intros v Hv.
    apply in_map_iff in Hv. destruct Hv as [b [<- Hb]].
    rewrite Hentry by assumption. reflexivity.
  - rewrite map_map. apply map_ext_in. intros a Ha.
    rewrite map_map. apply map_ext_in. intros b Hb.
    rewrite Hentry by assumption. reflexivity.
Qed.

End CorrelationFacts.


Section OptimalMatching.
Import Metrics.

Variable solver : list (list R) -> assignment.
Hypothesis solver_ok : solver_contract solver.

(** A matrix with a column that is not constant has two rows at least. *)
Lemma nonconstant_rows (x : tensor R) (n d : nat) :
  shape x = [n; d] -> (0 < d)%nat -> Forall nonconstant (columns x) -> (2 <= n)%nat.
Proof.
  intros Hx Hd Hcx. pose proof (columns_length x n d Hx) as Hlen.
  assert (Hin : In (nth 0 (columns x) []) (columns x)) by (apply nth_In; lia).
  rewrite Forall_forall in Hcx. pose proof (nonconstant_two _ (Hcx _ Hin)) as H2.
  apply in_map_iff in Hin. destruct Hin as [j [Hj _]]. rewrite <- Hj in H2.
  unfold column in H2. rewrite length_map, length_seq, Hx in H2. exact H2.
Qed.

Lemma mean_corr_coef_defined (x y : tensor R) (method : string) (rp : bool)
  (n d1 d2 : nat) :
  shape x = [n; d1] -> shape y = [n; d2] ->
  (0 < d1)%nat -> (0 < d2)%nat ->
  method = "pearson"%string \/ (method = "spearman"%string /\ (d1 + d2 <> 2)%nat) ->
  Forall nonconstant (columns x) -> Forall nonconstant (columns y) ->
  exists a,
    let s := Fin (total (abs_correlations method x y) a / INR (Nat.max d1 d2)) in
    mean_corr_coef solver x y method rp
    = ([call_of method; call_linear_sum_assignment],
       ok (if rp then score_and_permutation s a else score_only s))
    /\ max_total (abs_correlations method x y) d1 d2 a.
Proof.
  intros Hx Hy Hd1 Hd2 Hmethod Hcx Hcy.
  destruct (cross_correlations_defined method x y Hcx Hcy) as [Hfin Habs].
  pose proof (cross_correlations_dims method x y n n d1 d2 Hx Hy) as Hdims.
  assert (Hy1 : nth_error (shape y) 1 = Some d2) by (rewrite Hy; reflexivity).
  pose proof (score_from_finite solver solver_ok _ d1 d2 y rp Hdims Hy1 Hfin) as Hscore.
  cbv zeta in Hscore. rewrite Habs in Hscore.
  destruct Hscore as [Hrun [[Hvalid _] Hbest]].
  exists (solver (map (map (fun v => -1 * v)) (abs_correlations method x y))).
  cbv zeta. split; [|split; assumption].
  assert (Hdiv : forall t, fdiv_nat (Fin t) (Nat.max d1 d2) = Fin (t / INR (Nat.max d1 d2))).
  { intros t. unfold fdiv_nat. destruct (Nat.eqb_spec (Nat.max d1 d2) 0); [lia | reflexivity]. }
  rewrite Hdiv in Hrun.
  pose proof (nonconstant_rows x n d1 Hx Hd1 Hcx) as Hn.
  destruct Hmethod as [->|[-> Htwo]].
  - rewrite (mean_corr_coef_pearson_columns solver x y n d1 d2 rp Hx Hy) by lia.
    rewrite Hrun. reflexivity.
  - rewrite (mean_corr_coef_spearman_columns solver x y n d1 d2 rp Hx Hy) by (auto; lia).
    rewrite Hrun. reflexivity.
Qed.

Lemma clip_bounds (v : R) : -1 <= clip (-1) 1 v <= 1.
Proof.
  unfold clip, Rmin, Rmax.
  destruct (Rle_dec (-1) v); destruct (Rle_dec 1 _); lra.
Qed.

Lemma pearson_r_self (a : list R) : 0 < cov a a -> pearson_r a a = 1.
Proof.
  intros Hpos. unfold pearson_r.
  assert (Hs : 0 < sqrt (cov a a)) by (apply sqrt_lt_R0; exact Hpos).
  assert (Hone : cov a a / sqrt (cov a a) / sqrt (cov a a) = 1).
  { rewrite <- (sqrt_sqrt (cov a a)) at 1 by lra. field. lra. }
  rewrite Hone. unfold clip, Rmin, Rmax.
  destruct (Rle_dec (-1) 1); destruct (Rle_dec 1 _); lra.
Qed.

Lemma entry_cross {A} (g : A -> A -> R) (cx cy : list A) (i j : nat) (d : A) :
  (i < length cx)%nat -> (j < length cy)%nat ->
  entry (map (fun a => map (g a) cy) cx) i j = g (nth i cx d) (nth j cy d).
Proof.
  intros Hi Hj. unfold entry.
  assert (Hrow : nth i (map (fun a => map (g a) cy) cx) [] = map (g (nth i cx d)) cy).
  { rewrite nth_indep with (d' := map (g d) cy) by (rewrite length_map; exact Hi).
    apply (map_nth (fun a => map (g a) cy) cx d i). }
  rewrite Hrow.
  rewrite nth_indep with (d' := g (nth i cx d) d) by (rewrite length_map; exact Hj).
  apply map_nth.
Qed.

Lemma abs_correlations_le_one (method : string) (x y : tensor R) (i j : nat) :
  entry (abs_correlations method x y) i j <= 1.
Proof.
  unfold entry, abs_correlations.
  destruct (nth_in_or_default i
              (map (fun a => map (fun b => Rabs (pearson_r (variable method a)
                                                        (variable method b)))
                                 (columns y)) (columns x)) []) as [Hin | Hdef]; [|rewrite Hdef].
  - apply in_map_iff in Hin. destruct Hin as [a [<- _]].
    destruct (nth_in_or_default j
                (map (fun b => Rabs (pearson_r (variable method a) (variable method b)))
                     (columns y)) 0) as [Hin | Hdef]; [|rewrite Hdef].
    + apply in_map_iff in Hin. destruct Hin as [b [<- _]].
      apply Rabs_le. apply clip_bounds.
    + lra.
  - destruct j; simpl; lra.
Qed.

Lemma total_le_length (c : list (list R)) (a : assignment) :
  (forall i j, entry c i j <= 1) -> total c a <= INR (length (fst a)).
Proof.
  intros Hle. unfold total. destruct a as [rows cols]. simpl. revert cols.
  induction rows as [|i rows IH]; intros cols.
  - simpl. lra.
  - destruct cols as [|j cols].
    + simpl. pose proof (pos_INR (length rows)).
      destruct (length rows); simpl in *; lra.
    + change (length (i :: rows)) with (S (length rows)). rewrite S_INR.
      simpl. specialize (IH cols). specialize (Hle i j). lra.
Qed.

Lemma Rsum_ones {A} (l : list A) (f : A -> R) :
  (forall a, In a l -> f a = 1) -> Rsum (map f l) = INR (length l).
Proof.
  induction l as [|a l IH]; intros H; [reflexivity|].
  change (length (a :: l)) with (S (length l)). rewrite S_INR. simpl.
  rewrite H by (simpl; auto).
  rewrite IH by (intros; apply H; simpl; auto). lra.
Qed.

Lemma mean_corr_coef_identical (x : tensor R) (rp : bool) (n d : nat) :
  shape x = [n; d] -> (0 < d)%nat -> Forall nonconstant (columns x) ->
  exists a,
    mean_corr_coef solver x x "pearson" rp
    = ([call_corrcoef; call_linear_sum_assignment],
       ok (if rp then score_and_permutation (Fin 1) a else score_only (Fin 1))).
Proof.
  intros Hx Hd Hcx.
  destruct (mean_corr_coef_defined x x "pearson" rp n d d Hx Hx Hd Hd
              (or_introl eq_refl) Hcx Hcx) as [a [Hrun [Hvalid Hbest]]].
  exists a. cbv zeta in Hrun. rewrite Hrun. unfold call_of. simpl String.eqb. cbv iota.
  enough (Hone : total (abs_correlations "pearson" x x) a / INR (Nat.max d d) = 1)
    by (rewrite Hone; reflexivity).
  rewrite Nat.max_id.
  assert (Hup : total (abs_correlations "pearson" x x) a <= INR d).
  { pose proof (total_le_length _ a (abs_correlations_le_one "pearson" x x)) as H.
    destruct Hvalid as [Hlen _]. rewrite Hlen, Nat.min_id in H. exact H. }
  assert (Hlow : INR d <= total (abs_correlations "pearson" x x) a).
  { pose proof (Hbest _ (identity_valid d d)) as H. rewrite Nat.min_id in H.
    replace (total (abs_correlations "pearson" x x) (seq 0 d, seq 0 d)) with (INR d) in H;
      [exact H|].
    unfold total. cbn [fst snd]. rewrite map2_diag.
    rewrite Rsum_ones; [rewrite length_seq; reflexivity|].
    intros i Hi. apply in_seq in Hi. unfold abs_correlations.
    pose proof (columns_length x n d Hx) as Hlen.
    rewrite (entry_cross (fun a b => Rabs (pearson_r (variable "pearson" a)
                                                     (variable "pearson" b)))
               (columns x) (columns x) i i []) by lia.
    unfold variable. simpl String.eqb. cbv iota.
    rewrite pearson_r_self; [apply Rabs_R1|].
    apply nonconstant_variance. rewrite Forall_forall in Hcx. apply Hcx.
    apply nth_In. lia. }
  assert (HINR : 0 < INR d) by (apply lt_0_INR; exact Hd).
  replace (total (abs_correlations "pearson" x x) a) with (INR d) by lra.
  field. lra.
Qed.

End OptimalMatching.

Section Rearrangement.
Import Metrics.

Lemma nth_flat_map_uniform {A B} (f : A -> list B) (w : nat) (l : list A)
  (i k : nat) (d : B) (da : A) :
  (forall a, In a l -> length (f a) = w) ->
  (i < length l)%nat -> (k < w)%nat ->
  nth (i * w + k) (flat_map f l) d = nth k (f (nth i l da)) d.
Proof.
  revert i. induction l as [|a l IH]; intros i Hw Hi Hk; simpl in Hi; [lia|].
  simpl flat_map. destruct i as [|i].
  - simpl. apply app_nth1. rewrite Hw by (simpl; auto). exact Hk.
  - replace (S i * w + k)%nat with (length (f a) + (i * w + k))%nat
      by (rewrite Hw by (simpl; auto); lia).
    rewrite app_nth2_plus. simpl nth. apply IH; [|lia|exact Hk].
    intros b Hb. apply Hw. simpl. auto.
Qed.

Lemma columns_permuted (p : list nat) (y : tensor R) (n2 d2 : nat) :
  shape y = [n2; d2] ->
  columns (permute_columns p y) = map (column y) p.
Proof.
  intros Hy. unfold columns at 1. cbn [permute_columns shape nth].
  rewrite <- (map_nth_seq p 0%nat) at 3. rewrite map_map.
  apply map_ext_in. intros k Hk. apply in_seq in Hk.
  unfold column. cbn [permute_columns shape data nth]. rewrite Hy. cbn [nth].
  apply map_ext_in. intros i Hi. apply in_seq in Hi.
  rewrite (nth_flat_map_uniform _ (length p) (seq 0 n2) i k 0 0%nat);
    [| intros; apply length_map | rewrite length_seq; lia | lia].
  rewrite seq_nth by lia. simpl plus.
  rewrite nth_indep with (d' := (fun j => nth (i * d2 + j) (data y) 0) 0%nat)
    by (rewrite length_map; lia).
  apply (map_nth (fun j => nth (i * d2 + j) (data y) 0) p 0%nat k).
Qed.

Lemma cross_permuted (method : string) (x y : tensor R) (p : list nat) (n2 d2 : nat) :
  shape y = [n2; d2] ->
  cross_correlations method x (permute_columns p y) = cross_at method x y p.
Proof.
  intros Hy. unfold cross_correlations, cross_at.
  rewrite (columns_permuted p y n2 d2 Hy).
  apply map_ext. intros a. rewrite map_map. reflexivity.
Qed.

Lemma cross_in_order (method : string) (x y : tensor R) (n2 d2 : nat) :
  shape y = [n2; d2] ->
  cross_correlations method x y = cross_at method x y (seq 0 d2).
Proof.
  intros Hy. unfold cross_correlations, cross_at, columns at 1. rewrite Hy. cbn [nth].
  apply map_ext. intros a. rewrite map_map. reflexivity.
Qed.

Lemma forallb_permutation {A} (f : A -> bool) (l l' : list A) :
  Permutation l l' -> forallb f l = forallb f l'.
Proof.
  induction 1 as [|a l l' _ IH|a b l|l l' l'' _ IH1 _ IH2]; simpl.
  - reflexivity.
  - rewrite IH. reflexivity.
  - destruct (f a), (f b); reflexivity.
  - congruence.
Qed.

Lemma cross_at_finite (method : string) (x y : tensor R) (p q : list nat) :
  Permutation p q ->
  forallb (forallb is_finite) (cross_at method x y p)
  = forallb (forallb is_finite) (cross_at method x y q).
Proof.
  intros Hp. unfold cross_at.
  induction (columns x) as [|a cx IH]; simpl; [reflexivity|].
  rewrite IH. f_equal. apply forallb_permutation. apply Permutation_map. exact Hp.
Qed.

Lemma entry_at {A B} (g : A -> B -> R) (cx : list A) (js : list B) (i k : nat)
  (da : A) (db : B) :
  (k < length js)%nat ->
  entry (map (fun a => map (g a) js) cx) i k
  = if Nat.ltb i (length cx) then g (nth i cx da) (nth k js db) else 0.
Proof.
  intros Hk. unfold entry. destruct (Nat.ltb_spec i (length cx)) as [Hi|Hi].
  - assert (Hrow : nth i (map (fun a => map (g a) js) cx) [] = map (g (nth i cx da)) js).
    { rewrite nth_indep with (d' := map (g da) js) by (rewrite length_map; exact Hi).
      apply (map_nth (fun a => map (g a) js) cx da i). }
    rewrite Hrow.
    rewrite nth_indep with (d' := g (nth i cx da) db) by (rewrite length_map; exact Hk).
    apply map_nth.
  - replace (nth i (map (fun a => map (g a) js) cx) []) with (@nil R)
      by (symmetry; apply nth_overflow; rewrite length_map; exact Hi).
    destruct k; reflexivity.
Qed.

Lemma map2_map_r {A B B' C} (f : A -> B -> C) (g : B' -> B) (la : list A) (lb : list B') :
  map2 f la (map g lb) = map2 (fun a b => f a (g b)) la lb.
Proof.
  revert lb. induction la as [|a la IH]; intros [|b lb]; simpl; try reflexivity.
  rewrite IH. reflexivity.
Qed.

(** Reading an assignment through [p] in the block over the columns [p] is
    reading it directly in the block over the columns in order. *)
Lemma total_through (method : string) (x y : tensor R) (p : list nat) (d2 : nat)
  (b : assignment) :
  Forall (fun j => (j < d2)%nat) p ->
  Forall (fun k => (k < length p)%nat) (snd b) ->
  total (map (map (fun v => Rabs (value v))) (cross_at method x y p)) b
  = total (map (map (fun v => Rabs (value v))) (cross_at method x y (seq 0 d2)))
          (through p b).
Proof.
  intros Hp Hb. unfold total, through. cbn [fst snd].
  rewrite map2_map_r. f_equal. apply map2_ext. intros i k _ Hk.
  rewrite Forall_forall in Hb, Hp. specialize (Hb k Hk).
  assert (Hj : (nth k p 0 < d2)%nat) by (apply Hp, nth_In; exact Hb).
  unfold cross_at. rewrite !map_map.
  set (g := fun (a : list R) (j : nat) =>
              Rabs (value (corr_entry (variable method a)
                                      (variable method (column y j))))).
  change (entry (map (fun a => map (fun v => Rabs (value v))
                                   (map (fun j => corr_entry (variable method a)
                                                    (variable method (column y j))) p))
                     (columns x)) i k
          = entry (map (fun a => map (fun v => Rabs (value v))
                                     (map (fun j => corr_entry (variable method a)
                                                      (variable method (column y j)))
                                          (seq 0 d2)))
                       (columns x)) i (nth k p 0%nat)).
  assert (Hfold : forall js,
            map (fun a => map (fun v => Rabs (value v))
                              (map (fun j => corr_entry (variable method a)
                                               (variable method (column y j))) js))
                (columns x)
            = map (fun a => map (g a) js) (columns x)).
  { intros js. apply map_ext. intros a. rewrite map_map. reflexivity. }
  rewrite !Hfold.
  rewrite (entry_at g (columns x) p i k [] 0%nat Hb).
  rewrite (entry_at g (columns x) (seq 0 d2) i (nth k p 0%nat) [] 0%nat)
    by (rewrite length_seq; exact Hj).
  rewrite seq_nth by exact Hj. reflexivity.
Qed.

Lemma inverse_nth (p : list nat) (k : nat) :
  NoDup p -> (k < length p)%nat -> inverse p (nth k p 0%nat) = k.
Proof.
  revert k. induction p as [|q p IH]; intros k Hnd Hk; simpl in Hk; [lia|].
  inversion Hnd as [|? ? Hq Hnd']; subst. destruct k as [|k]; simpl.
  - rewrite Nat.eqb_refl. reflexivity.
  - destruct (Nat.eqb_spec q (nth k p 0%nat)) as [Heq|_].
    + exfalso. apply Hq. rewrite Heq. apply nth_In. lia.
    + rewrite IH by (auto; lia). reflexivity.
Qed.

Lemma nth_inverse (p : list nat) (j : nat) :
  In j p -> nth (inverse p j) p 0%nat = j /\ (inverse p j < length p)%nat.
Proof.
  induction p as [|q p IH]; intros Hj; simpl in *; [contradiction|].
  destruct (Nat.eqb_spec q j) as [->|Hne].
  - split; [reflexivity | lia].
  - destruct Hj as [Hj|Hj]; [contradiction|].
    destruct (IH Hj). split; [assumption | lia].
Qed.

Lemma rearrangement_facts (p : list nat) (m : nat) :
  Permutation p (seq 0 m) ->
  length p = m /\ NoDup p /\ (forall j, In j p <-> (j < m)%nat).
Proof.
  intros Hp. split; [|split].
  - rewrite (Permutation_length Hp). apply length_seq.
  - apply (Permutation_NoDup (Permutation_sym Hp)). apply seq_NoDup.
  - intros j. split; intros H.
    + apply (Permutation_in _ Hp) in H. apply in_seq in H. lia.
    + apply (Permutation_in _ (Permutation_sym Hp)). apply in_seq. lia.
Qed.

Lemma through_valid (p : list nat) (n m : nat) (b : assignment) :
  Permutation p (seq 0 m) -> valid_assignment n m b ->
  valid_assignment n m (through p b).
Proof.
  intros Hp [Hrl [Hcl [Hrs [Hrr [Hcn Hcr]]]]].
  destruct (rearrangement_facts p m Hp) as [Hlen [Hnd Hin]].
  unfold valid_assignment, through. cbn [fst snd]. rewrite length_map.
  rewrite Forall_forall in Hcr.
  repeat split; auto.
  - apply NoDup_map_NoDup_ForallPairs; [|exact Hcn].
    intros k k' Hk Hk' Heq.
    apply (proj1 (NoDup_nth p 0%nat) Hnd); try (rewrite Hlen; auto). exact Heq.
  - apply Forall_forall. intros j Hj. apply in_map_iff in Hj.
    destruct Hj as [k [<- Hk]]. apply Hin. apply nth_In. rewrite Hlen. auto.
Qed.

Lemma inverse_valid (p : list nat) (n m : nat) (a : assignment) :
  Permutation p (seq 0 m) -> valid_assignment n m a ->
  valid_assignment n m (fst a, map (inverse p) (snd a))
  /\ through p (fst a, map (inverse p) (snd a)) = a.
Proof.
  intros Hp [Hrl [Hcl [Hrs [Hrr [Hcn Hcr]]]]].
  destruct (rearrangement_facts p m Hp) as [Hlen [Hnd Hin]].
  rewrite Forall_forall in Hcr.
  assert (Hback : forall j, In j (snd a) -> nth (inverse p j) p 0%nat = j
                                            /\ (inverse p j < m)%nat).
  { intros j Hj. rewrite <- Hlen. apply nth_inverse. apply Hin. auto. }
  split.
  - unfold valid_assignment. cbn [fst snd]. rewrite length_map.
    repeat split; auto.
    + apply NoDup_map_NoDup_ForallPairs; [|exact Hcn].
      intros j j' Hj Hj' Heq.
      rewrite <- (proj1 (Hback j Hj)), <- (proj1 (Hback j' Hj')), Heq. reflexivity.
    + apply Forall_forall. intros k Hk. apply in_map_iff in Hk.
      destruct Hk as [j [<- Hj]]. apply Hback. exact Hj.
  - unfold through. cbn [fst snd]. destruct a as [rows cols]. cbn [fst snd] in *.
    f_equal. rewrite map_map. rewrite <- (map_id cols) at 2.
    apply map_ext_in. intros j Hj. apply Hback. exact Hj.
Qed.

End Rearrangement.

Section PermutedColumns.
Import Metrics.

Variable solver : list (list R) -> assignment.
Hypothesis solver_ok : solver_contract solver.

Lemma corr_entry_value (a b : list R) :
  is_finite (corr_entry a b) = true -> value (corr_entry a b) = pearson_r a b.
Proof.
  unfold corr_entry.
  destruct (Req_dec_T (cov a a) 0); [discriminate|].
  destruct (Req_dec_T (cov b b) 0); [discriminate|]. reflexivity.
Qed.

Lemma finite_abs_correlations (method : string) (x y : tensor R) :
  forallb (forallb is_finite) (cross_correlations method x y) = true ->
  map (map (fun v => Rabs (value v))) (cross_correlations method x y)
  = abs_correlations method x y.
Proof.
  intros Hfin. unfold cross_correlations, abs_correlations in *.
  rewrite forallb_forall in Hfin.
  rewrite map_map. apply map_ext_in. intros a Ha.
  rewrite map_map. apply map_ext_in. intros b Hb.
  rewrite corr_entry_value; [reflexivity|].
  specialize (Hfin _ (in_map _ _ _ Ha)). rewrite forallb_forall in Hfin.
  apply Hfin. apply in_map_iff. exists b. auto.
Qed.

Lemma cross_at_dims (method : string) (x y : tensor R) (js : list nat) (n d1 : nat) :
  shape x = [n; d1] -> dims (cross_at method x y js) d1 (length js).
Proof.
  intros Hx. unfold cross_at. split.
  - rewrite length_map. eapply columns_length; eauto.
  - apply Forall_forall. intros r Hr. apply in_map_iff in Hr.
    destruct Hr as [a [<- _]]. apply length_map.
Qed.

Lemma min_cost_max_total (c : list (list R)) (n m : nat) (a : assignment) :
  min_cost (map (map (fun v => -1 * v)) c) n m a -> max_total c n m a.
Proof.
  intros [Hvalid Hmin]. split; [exact Hvalid|].
  intros b Hb. specialize (Hmin b Hb). rewrite !total_negated in Hmin. lra.
Qed.

(** The two runs, on [y] and on [y[:, p]], reach the same total; the
    assignment of the second run, read through [p], is a best assignment of
    the first. *)
Lemma permuted_totals (method : string) (x y : tensor R) (p : list nat) (n d1 d2 : nat) :
  shape x = [n; d1] -> Permutation p (seq 0 d2) ->
  let A := map (map (fun v => Rabs (value v))) (cross_at method x y (seq 0 d2)) in
  let A' := map (map (fun v => Rabs (value v))) (cross_at method x y p) in
  let a := solver (map (map (fun v => -1 * v)) A) in
  let a' := solver (map (map (fun v => -1 * v)) A') in
  total A' a' = total A a
  /\ max_total A d1 d2 a
  /\ max_total A d1 d2 (through p a')
  /\ valid_assignment d1 d2 a'.
Proof.
  intros Hx Hp A A' a a'.
  destruct (rearrangement_facts p d2 Hp) as [Hlen [Hnd Hin]].
  assert (Hrange : Forall (fun j => (j < d2)%nat) p)
    by (apply Forall_forall; intros j Hj; apply Hin; exact Hj).
  assert (Ha : max_total A d1 d2 a).
  { apply min_cost_max_total, solver_ok. apply dims_map, dims_map.
    pose proof (cross_at_dims method x y (seq 0 d2) n d1 Hx) as H.
    rewrite length_seq in H. exact H. }
  assert (Ha' : max_total A' d1 d2 a').
  { apply min_cost_max_total, solver_ok. apply dims_map, dims_map.
    pose proof (cross_at_dims method x y p n d1 Hx) as H.
    rewrite Hlen in H. exact H. }
  assert (Hread : forall b, valid_assignment d1 d2 b -> total A' b = total A (through p b)).
  { intros b [_ [_ [_ [_ [_ Hb]]]]]. apply total_through; [exact Hrange|].
    rewrite Hlen. exact Hb. }
  destruct Ha as [Hva Hbest], Ha' as [Hva' Hbest'].
  assert (Hle : total A' a' <= total A a).
  { rewrite (Hread a' Hva'). apply Hbest. apply through_valid; assumption. }
  assert (Hge : total A a <= total A' a').
  { destruct (inverse_valid p d1 d2 a Hp Hva) as [Hvi Hback].
    pose proof (Hbest' _ Hvi) as H. rewrite (Hread _ Hvi), Hback in H. exact H. }
  assert (Heq : total A' a' = total A a) by lra.
  split; [exact Heq|]. split; [split; assumption|]. split; [|exact Hva'].
  split; [apply through_valid; assumption|].
  intros b Hb. rewrite <- (Hread a' Hva'), Heq. apply Hbest. exact Hb.
Qed.

(** The two runs once the block holds the correlations between the
    columns. *)
Lemma permuted_scores (x y : tensor R) (p : list nat) (n n2 d1 d2 : nat) (rp : bool) :
  shape x = [n; d1] -> shape y = [n2; d2] -> Permutation p (seq 0 d2) ->
  let run z :=
    (call_corrcoef :: fst (score_from solver (cross_correlations "pearson" x z) d1 z rp),
     snd (score_from solver (cross_correlations "pearson" x z) d1 z rp)) in
  (exists tr e,
     run (permute_columns p y) = (tr, inl e) /\ run y = (tr, inl e))
  \/ (exists s a a',
        run y
        = ([call_corrcoef; call_linear_sum_assignment],
           ok (if rp then score_and_permutation s a else score_only s))
        /\ run (permute_columns p y)
           = ([call_corrcoef; call_linear_sum_assignment],
              ok (if rp then score_and_permutation s a' else score_only s))
        /\ max_total (abs_correlations "pearson" x y) d1 d2 a
        /\ max_total (abs_correlations "pearson" x y) d1 d2 (through p a')
        /\ valid_assignment d1 d2 a').
Proof.
  intros Hx Hy Hp run. unfold run.
  destruct (rearrangement_facts p d2 Hp) as [Hlen _].
  assert (Hy' : shape (permute_columns p y) = [n2; d2])
    by (unfold permute_columns; rewrite Hy, Hlen; reflexivity).
  rewrite (cross_permuted "pearson" x y p n2 d2 Hy).
  pose proof (cross_at_finite "pearson" x y p (seq 0 d2) Hp) as Hsame.
  pose proof (cross_in_order "pearson" x y n2 d2 Hy) as Horder.
  destruct (forallb (forallb is_finite) (cross_correlations "pearson" x y)) eqn:Hfin.
  - right.
    pose proof (finite_abs_correlations "pearson" x y Hfin) as Habs.
    rewrite Horder in Hfin, Habs |- *.
    assert (Hfin' : forallb (forallb is_finite) (cross_at "pearson" x y p) = true)
      by (rewrite Hsame; exact Hfin).
    assert (Hy1 : nth_error (shape y) 1 = Some d2) by (rewrite Hy; reflexivity).
    assert (Hy1' : nth_error (shape (permute_columns p y)) 1 = Some d2)
      by (rewrite Hy'; reflexivity).
    pose proof (cross_at_dims "pearson" x y (seq 0 d2) n d1 Hx) as Hd.
    rewrite length_seq in Hd.
    pose proof (cross_at_dims "pearson" x y p n d1 Hx) as Hd'. rewrite Hlen in Hd'.
    destruct (score_from_finite solver solver_ok _ d1 d2 y rp Hd Hy1 Hfin) as [Hrun _].
    destruct (score_from_finite solver solver_ok _ d1 d2 (permute_columns p y) rp
                Hd' Hy1' Hfin') as [Hrun' _].
    destruct (permuted_totals "pearson" x y p n d1 d2 Hx Hp) as [Heq [Ha [Hthrough Hva']]].
    cbv zeta in Hrun, Hrun'. rewrite Heq in Hrun'. rewrite Habs in *.
    rewrite Hrun, Hrun'. cbn [fst snd].
    do 3 eexists. split; [reflexivity|]. split; [reflexivity|].
    split; [exact Ha|]. split; [exact Hthrough | exact Hva'].
  - left. rewrite Horder in Hfin |- *.
    assert (Hfin' : forallb (forallb is_finite) (cross_at "pearson" x y p) = false)
      by (rewrite Hsame; exact Hfin).
    rewrite (score_from_nan solver _ d1 y rp Hfin).
    rewrite (score_from_nan solver _ d1 (permute_columns p y) rp Hfin').
    cbn [fst snd]. eauto.
Qed.

Lemma cov_short (a : list R) : (length a <= 1)%nat -> cov a a = 0.
Proof.
  intros H. destruct a as [|u [|v a]]; simpl in H; try lia; unfold cov, mean; simpl.
  - lra.
  - replace (u + 0) with u by lra. unfold Rdiv at 2. rewrite Rinv_1, Rmult_1_r.
    replace (1 - 1) with 0 by lra. unfold Rdiv. lra.
Qed.

(** On a single observation, or none, every correlation is NaN. *)
Lemma row_correlations_nan (x y : tensor R) (n d1 d2 : nat) :
  shape x = [n; d1] -> shape y = [1%nat; d2] -> (0 < d1)%nat -> (n <= 1)%nat ->
  forallb (forallb is_finite) (row_correlations x y) = false.
Proof.
  intros Hx Hy Hd Hn. unfold row_correlations, columns, rows. rewrite Hx, Hy. cbn [nth].
  destruct d1 as [|d1]; [lia|]. cbn [seq map forallb].
  unfold corr_entry.
  rewrite cov_short; [|unfold column; rewrite length_map, length_seq, Hx; simpl; lia].
  destruct (Req_dec_T 0 0); [reflexivity | contradiction].
Qed.

Lemma score_from_shape (cc : list (list npfloat)) (d : nat) (y y' : tensor R) (rp : bool) :
  nth_error (shape y) 1 = nth_error (shape y') 1 ->
  score_from solver cc d y rp = score_from solver cc d y' rp.
Proof.
  intros H. unfold score_from. rewrite H. reflexivity.
Qed.

Lemma columns_none (x : tensor R) (n : nat) : shape x = [n; 0%nat] -> columns x = [].
Proof.
  intros H. unfold columns. rewrite H. reflexivity.
Qed.

Lemma permuted_run (x y : tensor R) (p : list nat) (n d1 d2 : nat) (rp : bool) :
  shape x = [n; d1] -> shape y = [n; d2] -> Permutation p (seq 0 d2) ->
  (exists tr e,
     mean_corr_coef solver x (permute_columns p y) "pearson" rp = (tr, inl e)
     /\ mean_corr_coef solver x y "pearson" rp = (tr, inl e))
  \/ (exists s a a',
        mean_corr_coef solver x y "pearson" rp
        = ([call_corrcoef; call_linear_sum_assignment],
           ok (if rp then score_and_permutation s a else score_only s))
        /\ mean_corr_coef solver x (permute_columns p y) "pearson" rp
           = ([call_corrcoef; call_linear_sum_assignment],
              ok (if rp then score_and_permutation s a' else score_only s))
        /\ max_total (abs_correlations "pearson" x y) d1 d2 a
        /\ max_total (abs_correlations "pearson" x y) d1 d2 (through p a')
        /\ valid_assignment d1 d2 a').
Proof.
  intros Hx Hy Hp.
  destruct (rearrangement_facts p d2 Hp) as [Hlen _].
  assert (Hy' : shape (permute_columns p y) = [n; d2])
    by (unfold permute_columns; rewrite Hy, Hlen; reflexivity).
  pose proof (permuted_scores x y p n n d1 d2 rp Hx Hy Hp) as Hgood. cbv zeta in Hgood.
  rewrite (mean_corr_coef_pearson solver x _ n n d1 d2 rp Hx Hy').
  rewrite (mean_corr_coef_pearson solver x y n n d1 d2 rp Hx Hy).
  destruct (Nat.eqb_spec d1 0) as [Hz|Hz].
  - subst d1. unfold cross_correlations in Hgood.
    rewrite (columns_none x n Hx) in Hgood. exact Hgood.
  - destruct (Nat.eqb_spec n 1) as [Hone|Hone].
    + left. destruct (Nat.eqb n d2); [|eauto].
      subst n.
      rewrite (score_from_nan solver _ d1 y rp
                 (row_correlations_nan x y 1 d1 d2 Hx Hy ltac:(lia) ltac:(lia))).
      rewrite (score_from_nan solver _ d1 (permute_columns p y) rp
                 (row_correlations_nan x _ 1 d1 d2 Hx Hy' ltac:(lia) ltac:(lia))).
      cbn [fst snd]. eauto.
    + rewrite Nat.eqb_refl. destruct (Nat.eqb (d1 + d2) 1); [left; eauto|].
      exact Hgood.
Qed.

End PermutedColumns.

Section MeanCorrCoefClaims.
Import Metrics Examples.

Lemma x3_nonconstant : Forall nonconstant (columns x3).
Proof.
  unfold columns, column. simpl. repeat constructor.
  - exists 1, 2. simpl. repeat split; auto; lra.
  - exists 0, 1. simpl. repeat split; auto; lra.
Qed.

Lemma y3_nonconstant : Forall nonconstant (columns y3).
Proof.
  unfold columns, column. simpl. repeat constructor.
  - exists 1, 2. simpl. repeat split; auto; lra.
  - exists 5, 3. simpl. repeat split; auto; lra.
Qed.

Lemma twin_nonconstant : Forall nonconstant (columns twin).
Proof.
  unfold columns, column. simpl. repeat constructor.
  - exists 1, 2. simpl. repeat split; auto; lra.
  - exists 1, 2. simpl. repeat split; auto; lra.
Qed.

(** C2 (as amended).  For arrays [x] of shape [N, d1] and [y] of shape
    [N, d2], each with one column at least and none of whose columns is
    constant, and a method "pearson" or "spearman" (for "spearman", more
    than two columns in all), mean_corr_coef returns the total of the
    absolute correlations over an assignment of min(d1, d2) pairs of
    columns, divided by max(d1, d2); no one-to-one assignment has a greater
    total. *)
Theorem mean_corr_coef_optimal (solver : list (list R) -> assignment)
  (x y : tensor R) (method : string) (rp : bool) (n d1 d2 : nat) :
  solver_contract solver ->
  shape x = [n; d1] -> shape y = [n; d2] -> wf x -> wf y ->
  (0 < d1)%nat -> (0 < d2)%nat ->
  method = "pearson"%string \/ (method = "spearman"%string /\ (d1 + d2 <> 2)%nat) ->
  Forall nonconstant (columns x) -> Forall nonconstant (columns y) ->
  exists a,
    let s := Fin (total (abs_correlations method x y) a / INR (Nat.max d1 d2)) in
    mean_corr_coef solver x y method rp
    = ([call_of method; call_linear_sum_assignment],
       ok (if rp then score_and_permutation s a else score_only s))
    /\ max_total (abs_correlations method x y) d1 d2 a.
Proof.
  intros Hok Hx Hy _ _.
  apply (mean_corr_coef_defined solver Hok x y method rp n d1 d2 Hx Hy).
Qed.

Lemma mean_corr_coef_optimal_witness :
  exists a,
    let s := Fin (total (abs_correlations "pearson" x3 y3) a / INR (Nat.max 2 2)) in
    mean_corr_coef exhaustive_solver x3 y3 "pearson" true
    = ([call_of "pearson"; call_linear_sum_assignment],
       ok (score_and_permutation s a))
    /\ max_total (abs_correlations "pearson" x3 y3) 2 2 a.
Proof.
  apply (mean_corr_coef_optimal exhaustive_solver x3 y3 "pearson" true 3 2 2).
  - exact exhaustive_solver_contract.
  - reflexivity.
  - reflexivity.
  - reflexivity.
  - reflexivity.
  - lia.
  - lia.
  - left. reflexivity.
  - exact x3_nonconstant.
  - exact y3_nonconstant.
Defined.

(** C2, counterexample.  The column of [flat] is constant: its
    correlations are NaN and the assignment solver rejects the matrix, so
    that no score is returned. *)
Lemma mean_corr_coef_constant_column_raises :
  mean_corr_coef exhaustive_solver flat ramp "pearson" false
  = ([call_corrcoef; call_linear_sum_assignment],
     raise (ValueError "matrix contains invalid numeric entries")).
Proof.
  rewrite (mean_corr_coef_pearson exhaustive_solver flat ramp 2 2 1 1 false)
    by reflexivity.
  cbn [Nat.eqb Nat.add].
  rewrite score_from_nan; [reflexivity|].
  unfold cross_correlations, columns, column, variable. simpl.
  unfold corr_entry.
  destruct (Req_dec_T (cov [1; 1] [1; 1]) 0) as [_|Hne]; [reflexivity|].
  exfalso. apply Hne. unfold cov, mean. simpl. lra.
Qed.

Lemma ramp_nonconstant : Forall nonconstant (columns ramp).
Proof.
  unfold columns, column. simpl. repeat constructor.
  exists 1, 2. simpl. repeat split; auto; lra.
Qed.

(** With two variables in all, spearmanr hands back a number, and slicing
    it raises. *)
Example mean_corr_coef_spearman_two_columns :
  mean_corr_coef exhaustive_solver ramp ramp "spearman" false
  = ([call_spearmanr], raise IndexError).
Proof.
  rewrite (mean_corr_coef_spearman exhaustive_solver ramp ramp 2 2 1 1 false)
    by reflexivity.
  cbn [Nat.eqb]. rewrite spearman_rho_two by reflexivity.
  pose proof ramp_nonconstant as H.
  assert (Hc : columns ramp = [column ramp 0]) by reflexivity.
  rewrite Hc in H |- *. inversion H as [|a l Ha _]; subst.
  cbn [app existsb Nat.leb orb].
  rewrite (nonconstant_not_constant _ Ha). reflexivity.
Qed.

(** C8.  For an array [x] of [d >= 1] columns, none constant,
    mean_corr_coef(x, x, "pearson") returns the score 1. *)
Theorem mean_corr_coef_self (solver : list (list R) -> assignment)
  (x : tensor R) (rp : bool) (n d : nat) :
  solver_contract solver ->
  shape x = [n; d] -> wf x -> (0 < d)%nat ->
  Forall nonconstant (columns x) ->
  exists a,
    mean_corr_coef solver x x "pearson" rp
    = ([call_corrcoef; call_linear_sum_assignment],
       ok (if rp then score_and_permutation (Fin 1) a else score_only (Fin 1))).
Proof.
  intros Hok Hx _ Hd Hcx. eapply mean_corr_coef_identical; eauto.
Qed.

Lemma mean_corr_coef_self_witness :
  exists a,
    mean_corr_coef exhaustive_solver x3 x3 "pearson" true
    = ([call_corrcoef; call_linear_sum_assignment],
       ok (score_and_permutation (Fin 1) a)).
Proof.
  apply (mean_corr_coef_self exhaustive_solver x3 true 3 2).
  - exact exhaustive_solver_contract.
  - reflexivity.
  - reflexivity.
  - lia.
  - exact x3_nonconstant.
Defined.

(** C7 (as amended).  For [x] and [y] with as many rows, rearranging the
    columns of [y] as [y[:, p]] leaves the outcome of
    mean_corr_coef(x, y, "pearson") as it was, error or score.  When the call on [y] returns an assignment [a], the call on
    [y[:, p]] returns an assignment which, read through [p], is again a best
    assignment for [x] and [y]; it is [a] composed with the inverse of [p]
    when [a] is the only best assignment. *)
Theorem mean_corr_coef_permuted_columns (solver : list (list R) -> assignment)
  (x y : tensor R) (p : list nat) (n d1 d2 : nat) :
  solver_contract solver ->
  shape x = [n; d1] -> shape y = [n; d2] -> Permutation p (seq 0 d2) ->
  (forall rp,
     score_outcome (mean_corr_coef solver x (permute_columns p y) "pearson" rp)
     = score_outcome (mean_corr_coef solver x y "pearson" rp))
  /\ (forall tr s a,
        mean_corr_coef solver x y "pearson" true
        = (tr, ok (score_and_permutation s a)) ->
        exists a',
          mean_corr_coef solver x (permute_columns p y) "pearson" true
          = (tr, ok (score_and_permutation s a'))
          /\ max_total (abs_correlations "pearson" x y) d1 d2 (through p a')
          /\ ((forall b, max_total (abs_correlations "pearson" x y) d1 d2 b -> b = a)
              -> a' = (fst a, map (inverse p) (snd a)))).
Proof.
  intros Hok Hx Hy Hp. split.
  - intros rp.
    destruct (permuted_run solver Hok x y p n d1 d2 rp Hx Hy Hp)
      as [[tr [e [-> ->]]] | [s [a [a' [-> [-> _]]]]]]; [reflexivity|].
    destruct rp; reflexivity.
  - intros tr s a Hrun.
    destruct (permuted_run solver Hok x y p n d1 d2 true Hx Hy Hp)
      as [[tr0 [e [_ Herr]]] | [s0 [a0 [a' [Hy0 [Hy' [Hbest [Hthrough Hva']]]]]]]].
    + rewrite Herr in Hrun. discriminate.
    + rewrite Hy0 in Hrun. inversion Hrun; subst. exists a'.
      split; [exact Hy'|]. split; [exact Hthrough|].
      intros Hunique. specialize (Hunique _ Hthrough).
      destruct (rearrangement_facts p d2 Hp) as [Hlen [Hnd _]].
      destruct Hva' as [_ [_ [_ [_ [_ Hcols]]]]].
      destruct a' as [rows cols]. unfold through in Hunique. cbn [fst snd] in *.
      subst a. cbn [fst snd]. f_equal. rewrite map_map.
      rewrite <- (map_id cols) at 1. apply map_ext_in. intros k Hk.
      symmetry. apply inverse_nth; [exact Hnd|].
      rewrite Forall_forall in Hcols. rewrite Hlen. apply Hcols. exact Hk.
Qed.

Lemma mean_corr_coef_permuted_columns_witness :
  (forall rp,
     score_outcome (mean_corr_coef exhaustive_solver x3 (permute_columns [1; 0]%nat y3)
                                   "pearson" rp)
     = score_outcome (mean_corr_coef exhaustive_solver x3 y3 "pearson" rp))
  /\ (forall tr s a,
        mean_corr_coef exhaustive_solver x3 y3 "pearson" true
        = (tr, ok (score_and_permutation s a)) ->
        exists a',
          mean_corr_coef exhaustive_solver x3 (permute_columns [1; 0]%nat y3) "pearson" true
          = (tr, ok (score_and_permutation s a'))
          /\ max_total (abs_correlations "pearson" x3 y3) 2 2 (through [1; 0]%nat a')
          /\ ((forall b, max_total (abs_correlations "pearson" x3 y3) 2 2 b -> b = a)
              -> a' = (fst a, map (inverse [1; 0]%nat) (snd a)))).
Proof.
  apply (mean_corr_coef_permuted_columns exhaustive_solver x3 y3 [1; 0]%nat 3 2 2).
  - exact exhaustive_solver_contract.
  - reflexivity.
  - reflexivity.
  - simpl. apply perm_swap.
Defined.

(** C7, counterexample.  The two columns of [twin] are equal, so swapping
    them gives the same array and the same returned assignment, which is
    not that assignment composed with the swap. *)
Lemma permuted_assignment_not_inverted :
  exists tr s a a',
    Permutation [1; 0]%nat (seq 0 2)
    /\ mean_corr_coef exhaustive_solver x3 twin "pearson" true
       = (tr, ok (score_and_permutation s a))
    /\ mean_corr_coef exhaustive_solver x3 (permute_columns [1; 0]%nat twin) "pearson" true
       = (tr, ok (score_and_permutation s a'))
    /\ a' <> (fst a, map (inverse [1; 0]%nat) (snd a)).
Proof.
  destruct (mean_corr_coef_defined exhaustive_solver exhaustive_solver_contract
              x3 twin "pearson" true 3 2 2 eq_refl eq_refl ltac:(lia) ltac:(lia)
              (or_introl eq_refl) x3_nonconstant twin_nonconstant)
    as [a [Hrun [Hvalid _]]].
  cbv zeta in Hrun. do 2 eexists. exists a, a.
  split; [simpl; apply perm_swap|]. split; [exact Hrun|].
  split; [exact Hrun|].
  destruct Hvalid as [_ [Hlen [_ [_ [_ Hcols]]]]].
  destruct a as [rows cols]. cbn [fst snd] in *.
  destruct cols as [|c0 [|c1 [|c2 cols]]]; simpl in Hlen; try discriminate.
  inversion Hcols as [|? ? Hc0 _]; subst.
  intros Heq. inversion Heq as [Hc]. 
  destruct c0 as [|[|c0]]; simpl in Hc; try discriminate. lia.
Qed.

(** C4, on a concrete call. *)
Lemma mean_corr_coef_rejects_method_witness :
  exists e,
    mean_corr_coef exhaustive_solver x3 y3 "kendall" false = ([], raise e)
    /\ (e = ValueError ("not a valid method: " ++ "kendall") \/ e = IndexError)
    /\ (length (shape x3) = 2%nat -> e = ValueError ("not a valid method: " ++ "kendall")).
Proof.
  apply (mean_corr_coef_rejects_method exhaustive_solver x3 y3 "kendall" false);
    discriminate.
Defined.

End MeanCorrCoefClaims.

Section ContextModelLifecycle.
Import ContextModel.

Lemma consistent_fresh (meta : bool) (m n : Z) (scale : R) (g : generator) (d : device) :
  int64 n && int64 m = true ->
  (n <? 0)%Z || (m <? 0)%Z = false ->
  consistent
    (mk meta m n scale
        (to (tmap (fun v => v * scale)
                  (Tensor.mk [Z.to_nat n; Z.to_nat m]
                             (map (normal g) (seq (position g) (Z.to_nat n * Z.to_nat m)))
                             cpu)) d)).
Proof.
  intros Hfit Hneg. apply orb_false_iff in Hneg. destruct Hneg as [Hn Hm].
  apply Z.ltb_ge in Hn, Hm. apply andb_true_iff in Hfit. destruct Hfit as [Hfn Hfm].
  apply int64_range in Hfn, Hfm.
  unfold consistent, wf. simpl. rewrite !length_map, length_seq.
  repeat split; auto; lia.
Qed.

(** X1.  [__init__] raises TypeError when [task_num] or [max_context_dim]
    does not fit 64 bits, and RuntimeError when one of them is negative or
    the allocator cannot hold the table.  Otherwise it returns a model whose
    attributes agree with its table, which lives on the cpu, and it has
    drawn exactly [task_num * max_context_dim] samples. *)
Theorem init_consistent (meta : bool) (m n : Z) (scale : R) (g : generator) :
  if negb (int64 n && int64 m) then init meta m n scale g = raise TypeError
  else if (n <? 0)%Z || (m <? 0)%Z then init meta m n scale g = raise RuntimeError
  else if (capacity g <? Z.to_nat n * Z.to_nat m)%nat then
    init meta m n scale g = raise RuntimeError
  else
    exists self g',
      init meta m n scale g = ok (self, g')
      /\ consistent self
      /\ ContextModel.meta self = meta /\ task_num self = n
      /\ max_context_dim self = m /\ init_scale self = scale
      /\ dev (context_hat self) = cpu
      /\ position g' = (position g + Z.to_nat n * Z.to_nat m)%nat.
Proof.
  unfold init, randn.
  destruct (int64 n && int64 m) eqn:Hfit; cbn [negb]; [|reflexivity].
  destruct ((n <? 0)%Z || (m <? 0)%Z) eqn:Hneg; [reflexivity|].
  destruct (capacity g <? Z.to_nat n * Z.to_nat m)%nat; [reflexivity|].
  cbn [bind ok].
  do 2 eexists. split; [reflexivity|]. simpl.
  split; [|repeat split].
  apply (consistent_fresh meta m n scale g cpu Hfit Hneg).
Qed.

(** X2.  On a model whose attributes agree with its table, [reset] without
    a [task_num] (or with 0) returns when the allocator holds a table of
    that size; the model still agrees with its table, which keeps its shape
    and its device, and [task_num] is what it was. *)
Theorem reset_unset_on_consistent (self : t) (arg : option Z) (g : generator) :
  consistent self -> arg = None \/ arg = Some 0%Z ->
  (numel (shape (context_hat self)) <= capacity g)%nat ->
  exists self' g',
    reset self arg g = (self', g', ok tt)
    /\ consistent self'
    /\ shape (context_hat self') = shape (context_hat self)
    /\ dev (context_hat self') = dev (context_hat self)
    /\ task_num self' = task_num self.
Proof.
  intros [Hn [Hm [Hshape _]]] Harg Hcap.
  assert (Hor : py_or arg (task_num self) = task_num self)
    by (destruct Harg as [-> | ->]; reflexivity).
  assert (Hfit : int64 (task_num self) && int64 (max_context_dim self) = true)
    by (apply andb_true_iff; split; apply int64_range; lia).
  assert (Hneg : (task_num self <? 0)%Z || (max_context_dim self <? 0)%Z = false).
  { apply orb_false_iff. split; apply Z.ltb_ge; lia. }
  assert (Hroom : (capacity g <? Z.to_nat (task_num self)
                                 * Z.to_nat (max_context_dim self))%nat = false).
  { apply Nat.ltb_ge. rewrite Hshape in Hcap. simpl in Hcap. lia. }
  unfold reset. simpl. rewrite Hor, (randn_ok g _ _ Hfit Hneg Hroom).
  do 2 eexists. split; [reflexivity|]. simpl.
  split; [apply (consistent_fresh _ _ _ _ g _ Hfit Hneg)|].
  rewrite Hshape. repeat split.
Qed.

Lemma reset_unset_on_consistent_witness :
  exists self' g',
    reset (mk true 2 3 1 (Tensor.mk [3%nat; 2%nat] [10; 11; 20; 21; 30; 31] (cuda 0)))
          None (mk_generator (fun _ => 1) 0 100) = (self', g', ok tt)
    /\ consistent self'
    /\ shape (context_hat self') = [3%nat; 2%nat]
    /\ dev (context_hat self') = cuda 0
    /\ task_num self' = 3%Z.
Proof.
  apply (reset_unset_on_consistent
           (mk true 2 3 1 (Tensor.mk [3%nat; 2%nat] [10; 11; 20; 21; 30; 31] (cuda 0)))
           None (mk_generator (fun _ => 1) 0 100)).
  - unfold consistent, wf. simpl. repeat split; lia.
  - left. reflexivity.
  - simpl. lia.
Defined.

(** X3.  [reset] with a negative [task_num] raises (RuntimeError, or
    TypeError when a size does not fit 64 bits), but it has already stored
    the negative number: the table and the generator are untouched, and from
    then on [reset] without an argument raises as well. *)
Theorem failed_reset_poisons (self : t) (n : Z) (g : generator) :
  (n < 0)%Z ->
  let e := if int64 n && int64 (max_context_dim self) then RuntimeError
           else TypeError in
  exists self',
    reset self (Some n) g = (self', g, raise e)
    /\ task_num self' = n
    /\ context_hat self' = context_hat self
    /\ reset self' None g = (self', g, raise e).
Proof.
  intros Hn e.
  assert (Hor : py_or (Some n) (task_num self) = n).
  { unfold py_or. destruct (Z.eqb_spec n 0); [lia | reflexivity]. }
  assert (Hneg : forall m, (n <? 0)%Z || m = true)
    by (intros m; apply orb_true_iff; left; apply Z.ltb_lt; exact Hn).
  unfold reset at 1. cbn [task_num max_context_dim meta init_scale context_hat].
  rewrite Hor. unfold randn. unfold e.
  destruct (int64 n && int64 (max_context_dim self)) eqn:Hfit; cbn [negb].
  - rewrite Hneg. eexists. split; [reflexivity|]. cbn [task_num context_hat].
    split; [reflexivity|]. split; [reflexivity|].
    unfold reset. cbn [task_num max_context_dim meta init_scale context_hat py_or].
    unfold randn. rewrite Hfit, Hneg. reflexivity.
  - eexists. split; [reflexivity|]. cbn [task_num context_hat].
    split; [reflexivity|]. split; [reflexivity|].
    unfold reset. cbn [task_num max_context_dim meta init_scale context_hat py_or].
    unfold randn. rewrite Hfit. reflexivity.
Qed.

Lemma failed_reset_poisons_witness :
  exists self',
    reset (mk true 2 3 1 (Tensor.mk [3%nat; 2%nat] [10; 11; 20; 21; 30; 31] cpu))
          (Some (-1)%Z) (mk_generator (fun _ => 1) 0 100)
    = (self', mk_generator (fun _ => 1) 0 100, raise RuntimeError)
    /\ task_num self' = (-1)%Z
    /\ context_hat self' = Tensor.mk [3%nat; 2%nat] [10; 11; 20; 21; 30; 31] cpu
    /\ reset self' None (mk_generator (fun _ => 1) 0 100)
       = (self', mk_generator (fun _ => 1) 0 100, raise RuntimeError).
Proof.
  apply (failed_reset_poisons
           (mk true 2 3 1 (Tensor.mk [3%nat; 2%nat] [10; 11; 20; 21; 30; 31] cpu))
           (-1) (mk_generator (fun _ => 1) 0 100)).
  lia.
Defined.

(** X4.  In meta mode [extra_repr] shows the [task_num] that the last
    [reset] was given (when it is not 0), whether that [reset] returned or
    raised; without meta mode it is empty. *)
Theorem extra_repr_after_reset (self : t) (n : Z) (g : generator) :
  n <> 0%Z ->
  extra_repr (fst (fst (reset self (Some n) g)))
  = if meta self then
      ("max_context_dim=" ++ repr_int (max_context_dim self)
         ++ ", task_num=" ++ repr_int n)%string
    else ""%string.
Proof.
  intros Hn.
  assert (Hor : py_or (Some n) (task_num self) = n).
  { unfold py_or. destruct (Z.eqb_spec n 0); [contradiction | reflexivity]. }
  unfold reset. cbn [task_num max_context_dim meta init_scale context_hat].
  rewrite Hor.
  destruct (randn g n (max_context_dim self)) as [e|[r g']]; reflexivity.
Qed.

Lemma extra_repr_after_reset_witness :
  extra_repr (fst (fst (reset (mk true 2 3 1 (Tensor.mk [3%nat; 2%nat]
                                                        [10; 11; 20; 21; 30; 31] cpu))
                              (Some (-7)%Z) (mk_generator (fun _ => 1) 0 100))))
  = "max_context_dim=2, task_num=-7"%string.
Proof.
  apply (extra_repr_after_reset
           (mk true 2 3 1 (Tensor.mk [3%nat; 2%nat] [10; 11; 20; 21; 30; 31] cpu))
           (-7) (mk_generator (fun _ => 1) 0 100)).
  lia.
Defined.

End ContextModelLifecycle.

Section ContextModelLookup.
Import ContextModel.

(** With a last dimension of 1, [forward] gathers table rows. *)
Lemma forward_gathers (self : t) (idx : tensor Z) (lead : list nat) (n d : nat) :
  shape idx = lead ++ [1%nat] -> wf idx ->
  shape (context_hat self) = [n; d] ->
  forward self (Some idx)
  = bind (gather n d (data (context_hat self)) (data idx))
         (fun rows => ok (Tensor.mk (lead ++ [d]) rows (dev (context_hat self)))).
Proof.
  intros Hshape Hwf Htable.
  unfold forward, last_dim. rewrite Hshape, rev_app_distr. simpl.
  unfold select_last0. rewrite Hshape, rev_app_distr. cbn [rev app bind ok].
  unfold wf in Hwf. rewrite Hshape, numel_app in Hwf. simpl in Hwf.
  rewrite numel_rev, rev_involutive.
  replace (numel lead) with (length (data idx)) by lia.
  rewrite chunks_of_one.
  unfold index_rows. rewrite Htable. simpl. rewrite Nat.mul_1_r. reflexivity.
Qed.

Lemma resolve_index_wraps (n : nat) (i : Z) :
  (- Z.of_nat n <= i < Z.of_nat n)%Z ->
  resolve_index n i = ok (Z.to_nat (i mod Z.of_nat n)).
Proof.
  intros Hi. unfold resolve_index.
  destruct (Z.leb_spec 0 i) as [Hpos|Hneg]; simpl.
  - destruct (Z.ltb_spec i (Z.of_nat n)); [|lia].
    rewrite Z.mod_small by lia. reflexivity.
  - destruct (Z.leb_spec (- Z.of_nat n) i); [|lia].
    destruct (Z.ltb_spec i 0); [|lia]. simpl.
    rewrite <- (Z.mod_add i 1 (Z.of_nat n)) by lia.
    rewrite Z.mod_small by lia. rewrite Z.mul_1_l. reflexivity.
Qed.

Lemma gather_wraps {A} (n width : nat) (d : list A) (idx : list Z) :
  Forall (fun i => (- Z.of_nat n <= i < Z.of_nat n)%Z) idx ->
  gather n width d idx
  = ok (flat_map (fun i => row width d (Z.to_nat (i mod Z.of_nat n))) idx).
Proof.
  induction 1 as [|i idx Hi _ IH]; simpl; [reflexivity|].
  rewrite (resolve_index_wraps n i Hi). simpl. rewrite IH. reflexivity.
Qed.

Lemma gather_out_of_range {A} (n width : nat) (d : list A) (idx : list Z) :
  Exists (fun i => (i < - Z.of_nat n \/ Z.of_nat n <= i)%Z) idx ->
  gather n width d idx = raise IndexError.
Proof.
  induction 1 as [i idx Hi|i idx _ IH]; simpl.
  - unfold resolve_index.
    destruct (Z.leb_spec 0 i), (Z.ltb_spec i (Z.of_nat n)); simpl; try lia;
      try reflexivity;
      destruct (Z.leb_spec (- Z.of_nat n) i), (Z.ltb_spec i 0); simpl;
      try lia; reflexivity.
  - rewrite IH. destruct (resolve_index n i) as [e|r] eqn:Hr; simpl; [|reflexivity].
    unfold resolve_index in Hr.
    destruct ((0 <=? i)%Z && (i <? Z.of_nat n)%Z); [discriminate|].
    destruct ((- Z.of_nat n <=? i)%Z && (i <? 0)%Z); [discriminate|].
    inversion Hr. reflexivity.
Qed.

(** X5.  Indices follow Python: an entry between [-n] and [-1] names the row
    counted from the end, so every entry [i] with [-n <= i < n] returns row
    [i mod n]. *)
Theorem forward_wraps_negative (self : t) (idx : tensor Z) (lead : list nat) (n d : nat) :
  shape idx = lead ++ [1%nat] -> wf idx ->
  shape (context_hat self) = [n; d] ->
  Forall (fun i => (- Z.of_nat n <= i < Z.of_nat n)%Z) (data idx) ->
  forward self (Some idx)
  = ok (Tensor.mk (lead ++ [d])
                  (flat_map (fun i => row d (data (context_hat self))
                                          (Z.to_nat (i mod Z.of_nat n)))
                            (data idx))
                  (dev (context_hat self))).
Proof.
  intros Hshape Hwf Htable Hvalid.
  rewrite (forward_gathers self idx lead n d Hshape Hwf Htable).
  rewrite (gather_wraps n d _ _ Hvalid). reflexivity.
Qed.

Lemma forward_wraps_negative_witness :
  forward (mk true 2 3 1 (Tensor.mk [3%nat; 2%nat] [10; 11; 20; 21; 30; 31] cpu))
          (Some (Tensor.mk [2%nat; 1%nat] [(-1)%Z; (-3)%Z] cpu))
  = ok (Tensor.mk [2%nat; 2%nat] [30; 31; 10; 11] cpu).
Proof.
  apply (forward_wraps_negative
           (mk true 2 3 1 (Tensor.mk [3%nat; 2%nat] [10; 11; 20; 21; 30; 31] cpu))
           (Tensor.mk [2%nat; 1%nat] [(-1)%Z; (-3)%Z] cpu) [2%nat] 3 2).
  - reflexivity.
  - reflexivity.
  - reflexivity.
  - repeat constructor; simpl; lia.
Defined.

(** X6.  One entry outside [-n, n) makes [forward] raise IndexError; no
    rows are returned for the other entries. *)
Theorem forward_out_of_range (self : t) (idx : tensor Z) (lead : list nat) (n d : nat) :
  shape idx = lead ++ [1%nat] -> wf idx ->
  shape (context_hat self) = [n; d] ->
  Exists (fun i => (i < - Z.of_nat n \/ Z.of_nat n <= i)%Z) (data idx) ->
  forward self (Some idx) = raise IndexError.
Proof.
  intros Hshape Hwf Htable Hbad.
  rewrite (forward_gathers self idx lead n d Hshape Hwf Htable).
  rewrite (gather_out_of_range n d _ _ Hbad). reflexivity.
Qed.

Lemma forward_out_of_range_witness :
  forward (mk true 2 3 1 (Tensor.mk [3%nat; 2%nat] [10; 11; 20; 21; 30; 31] cpu))
          (Some (Tensor.mk [2%nat; 1%nat] [0%Z; 3%Z] cpu))
  = raise IndexError.
Proof.
  apply (forward_out_of_range
           (mk true 2 3 1 (Tensor.mk [3%nat; 2%nat] [10; 11; 20; 21; 30; 31] cpu))
           (Tensor.mk [2%nat; 1%nat] [0%Z; 3%Z] cpu) [2%nat] 3 2).
  - reflexivity.
  - reflexivity.
  - reflexivity.
  - apply Exists_cons_tl. apply Exists_cons_hd. simpl. lia.
Defined.

Lemma firstn_seq_le (m start len : nat) :
  (m <= len)%nat -> firstn m (seq start len) = seq start m.
Proof.
  revert start len. induction m as [|m IH]; intros start len Hle; [reflexivity|].
  destruct len as [|len]; [lia|]. simpl. f_equal. apply IH. lia.
Qed.

Lemma map_seq_offset {A} (f : nat -> A) (start m : nat) :
  map f (seq start m) = map (fun j => f (start + j)%nat) (seq 0 m).
Proof.
  revert start. induction m as [|m IH]; intros start; [reflexivity|].
  simpl. rewrite Nat.add_0_r. f_equal.
  rewrite (IH (S start)), <- seq_shift, map_map.
  apply map_ext. intros j. f_equal. lia.
Qed.

Lemma flat_map_ext_on {A B} (f g : A -> list B) (l : list A) :
  (forall a, In a l -> f a = g a) -> flat_map f l = flat_map g l.
Proof.
  induction l as [|a l IH]; intros H; simpl; [reflexivity|].
  rewrite H by (simpl; auto).
  rewrite IH by (intros; apply H; simpl; auto). reflexivity.
Qed.

Lemma row_of_samples (f : nat -> R) (start n m r : nat) :
  (r < n)%nat ->
  row m (map f (seq start (n * m))) r = map f (seq (start + r * m) m).
Proof.
  intros Hr. unfold row. rewrite skipn_map, firstn_map, skipn_seq.
  rewrite firstn_seq_le by nia. reflexivity.
Qed.

(** X7.  After a [reset] that returns, [forward] serves the fresh draws:
    entry [j] of the row for index [i] is sample number [i * m + j] drawn by
    that [reset], times [init_scale]. *)
Theorem forward_after_reset (self : t) (arg : option Z) (g : generator)
  (idx : tensor Z) (lead : list nat) :
  let n := py_or arg (task_num self) in
  let m := max_context_dim self in
  snd (reset self arg g) = ok tt ->
  shape idx = lead ++ [1%nat] -> wf idx ->
  Forall (fun i => (0 <= i < n)%Z) (data idx) ->
  forward (fst (fst (reset self arg g))) (Some idx)
  = ok (Tensor.mk (lead ++ [Z.to_nat m])
                  (flat_map (fun i =>
                               map (fun j => normal g (position g + Z.to_nat i * Z.to_nat m + j)
                                             * init_scale self)
                                   (seq 0 (Z.to_nat m)))
                            (data idx))
                  (dev (context_hat self))).
Proof.
  intros n m Hret Hshape Hwf Hvalid.
  assert (Hrun : exists r g', randn g n m = ok (r, g')).
  { unfold reset in Hret.
    cbn [task_num max_context_dim meta init_scale context_hat] in Hret.
    fold n in Hret. fold m in Hret.
    destruct (randn g n m) as [e|[r g']]; [discriminate | eauto]. }
  destruct Hrun as [r [g' Hrun]].
  destruct (randn_returns g g' n m r Hrun) as [Hfit [Hneg Hcap]].
  unfold reset. cbn [task_num max_context_dim meta init_scale context_hat].
  fold n. fold m. rewrite (randn_ok g n m Hfit Hneg Hcap). unfold ok at 1. cbn [fst].
  match goal with
  | |- forward ?s _ = _ =>
      rewrite (forward_gathers s idx lead (Z.to_nat n) (Z.to_nat m) Hshape Hwf eq_refl)
  end.
  cbn [context_hat to tmap data dev shape].
  rewrite gather_valid
    by (eapply Forall_impl; [|exact Hvalid]; simpl; intros; lia).
  cbn [bind ok]. f_equal. f_equal.
  apply flat_map_ext_on. intros i Hi. rewrite Forall_forall in Hvalid.
  specialize (Hvalid i Hi). rewrite map_map.
  rewrite row_of_samples by lia.
  apply (map_seq_offset (fun k => normal g k * init_scale self)).
Qed.

End ContextModelLookup.

Section ContextModelInput.
Import ContextModel.

Lemma forward_after_reset_witness :
  forward (fst (fst (reset (mk true 2 3 2 (Tensor.mk [3%nat; 2%nat]
                                                     [10; 11; 20; 21; 30; 31] (cuda 0)))
                           (Some 2%Z) (mk_generator INR 5 100))))
          (Some (Tensor.mk [1%nat; 1%nat] [1%Z] cpu))
  = ok (Tensor.mk [1%nat; 2%nat] [INR 7 * 2; INR 8 * 2] (cuda 0)).
Proof.
  apply (forward_after_reset
           (mk true 2 3 2 (Tensor.mk [3%nat; 2%nat] [10; 11; 20; 21; 30; 31] (cuda 0)))
           (Some 2%Z) (mk_generator INR 5 100) (Tensor.mk [1%nat; 1%nat] [1%Z] cpu) [1%nat]).
  - reflexivity.
  - reflexivity.
  - reflexivity.
  - repeat constructor; simpl; lia.
Defined.

Lemma row_length {A} (d n r : nat) (l : list A) :
  length l = (n * d)%nat -> (r < n)%nat -> length (row d l r) = d.
Proof.
  intros Hl Hr. unfold row. rewrite length_firstn, length_skipn, Hl. nia.
Qed.

Lemma interleaved_length {A} (a b c : nat) (l1 l2 : list A) :
  length l1 = (c * a)%nat -> length l2 = (c * b)%nat ->
  length (concat (map2 (@app A) (chunks a c l1) (chunks b c l2))) = (c * (a + b))%nat.
Proof.
  revert l1 l2. induction c as [|c IH]; intros l1 l2 H1 H2; [reflexivity|].
  simpl. rewrite !length_app, !length_firstn.
  rewrite IH by (rewrite length_skipn; lia). lia.
Qed.

(** X8.  The check of [test_context_model], for every input: a batch [x] of
    shape [B, xs] concatenated with [forward] of [B] valid task indices has
    shape [B, xs + max_context_dim] and holds that many entries. *)
Theorem forward_widens_input (self : t) (x : tensor R) (idx : tensor Z)
  (B xs n d : nat) :
  shape x = [B; xs] -> wf x -> dev x = dev (context_hat self) ->
  shape idx = [B; 1%nat] -> wf idx ->
  shape (context_hat self) = [n; d] -> wf (context_hat self) ->
  Forall (fun i => (0 <= i < Z.of_nat n)%Z) (data idx) ->
  exists context joined,
    forward self (Some idx) = ok context
    /\ cat_last [x; context] = ok joined
    /\ shape joined = [B; (xs + d)%nat]
    /\ wf joined.
Proof.
  intros Hx Hwx Hdev Hidx Hwi Htable Hwt Hvalid.
  rewrite (forward_gathers self idx [B] n d Hidx Hwi Htable).
  rewrite (gather_valid n d _ _ Hvalid). cbn [bind ok app].
  set (context := Tensor.mk [B; d]
                    (flat_map (fun i => row d (data (context_hat self)) (Z.to_nat i))
                              (data idx))
                    (dev (context_hat self))).
  assert (Hrank : forall (u : tensor R) a b, shape u = [a; b] -> is_legacy_empty u = false)
    by (intros u a b Hu; unfold is_legacy_empty; rewrite Hu; destruct a; reflexivity).
  assert (Hcat : cat_last [x; context]
                 = ok (Tensor.mk [B; (xs + d)%nat]
                         (concat (map2 (@app R) (chunks xs (numel [B]) (data x))
                                                (chunks d (numel [B]) (data context))))
                         (dev x))).
  { unfold cat_last. cbn [forallb dev context]. rewrite <- Hdev, device_eqb_refl.
    cbn [andb].
    rewrite Hx. cbn [cat_from].
    rewrite (Hrank context B d eq_refl), (Hrank x B xs Hx).
    unfold cat2_last. rewrite Hx. cbn [shape context rev app].
    destruct (list_eq_dec Nat.eq_dec [B] [B]) as [_|Hne]; [|contradiction].
    reflexivity. }
  exists context. eexists. split; [reflexivity|]. split; [exact Hcat|].
  split; [reflexivity|].
  unfold wf in *. cbn [shape data numel fold_right context].
  rewrite Hx in Hwx. rewrite Hidx in Hwi. rewrite Htable in Hwt.
  cbn [numel fold_right] in Hwx, Hwi, Hwt.
  rewrite interleaved_length; [lia | lia |].
  rewrite (flat_map_length_const _ d).
  - lia.
  - intros i Hi. rewrite Forall_forall in Hvalid. specialize (Hvalid i Hi).
    apply (row_length d n); lia.
Qed.

Lemma forward_widens_input_witness :
  exists context joined,
    forward (mk true 2 3 1 (Tensor.mk [3%nat; 2%nat] [10; 11; 20; 21; 30; 31] cpu))
            (Some (Tensor.mk [2%nat; 1%nat] [2%Z; 0%Z] cpu)) = ok context
    /\ cat_last [Tensor.mk [2%nat; 1%nat] [7; 8] cpu; context] = ok joined
    /\ shape joined = [2%nat; (1 + 2)%nat]
    /\ wf joined.
Proof.
  apply (forward_widens_input
           (mk true 2 3 1 (Tensor.mk [3%nat; 2%nat] [10; 11; 20; 21; 30; 31] cpu))
           (Tensor.mk [2%nat; 1%nat] [7; 8] cpu)
           (Tensor.mk [2%nat; 1%nat] [2%Z; 0%Z] cpu) 2 1 3 2).
  - reflexivity.
  - reflexivity.
  - reflexivity.
  - reflexivity.
  - reflexivity.
  - reflexivity.
  - reflexivity.
  - repeat constructor; simpl; lia.
Defined.

(** X9.  Without a task index [get_mutual_info] never reaches the
    estimator when columns are asked for: in meta mode [forward] raises its
    assertion, and otherwise the empty embedding has one dimension only, so
    selecting columns raises IndexError.  With no columns asked for, the
    estimator gets the empty embedding. *)
Theorem get_mutual_info_without_index
  (estimator : tensor R -> string -> result R) (self : t)
  (valid_context_idx : option (list Z)) (reduction : string) :
  get_mutual_info estimator self None valid_context_idx reduction
  = if meta self then
      raise (AssertionError "idx should not be None when meta is True")
    else match valid_context_idx with
         | Some _ => raise IndexError
         | None => estimator (to empty0 (dev (context_hat self))) reduction
         end.
Proof.
  unfold get_mutual_info, forward. destruct (meta self); [reflexivity|].
  destruct valid_context_idx; reflexivity.
Qed.

End ContextModelInput.

Section ContextModelScore.
Import Metrics ContextModel.

(** X10.  Scored against its own table with "pearson", a model whose table
    has at least one column and no constant column gets the score 1; with
    [return_permutation] the table comes back with it, moved to the cpu. *)
Theorem get_mcc_against_itself (solver : list (list R) -> assignment) 
  (self : t) (rp : bool) (n d : nat) :
  solver_contract solver ->
  shape (context_hat self) = [n; d] -> (0 < d)%nat ->
  Forall nonconstant (columns (context_hat self)) ->
  exists a,
    get_mcc solver self (context_hat self) None rp (Some "pearson"%string)
    = ([call_corrcoef; call_linear_sum_assignment],
       ok (if rp then mcc_full (Fin 1) a (to (context_hat self) cpu)
           else mcc_only (Fin 1))).
Proof.
  intros Hok Hshape Hd Hcols.
  destruct (mean_corr_coef_identical solver Hok (to (context_hat self) cpu) true n d
              Hshape Hd Hcols) as [a Hrun].
  exists a. unfold get_mcc, stats_mcc_mean_corr_coef.
  cbn [tlift tbind ok app]. rewrite Hrun. cbn [tbind tret app ok].
  destruct rp; reflexivity.
Qed.

Lemma get_mcc_against_itself_witness :
  exists a,
    get_mcc exhaustive_solver (mk true 2 3 1 Examples.x3) Examples.x3 None true
            (Some "pearson"%string)
    = ([call_corrcoef; call_linear_sum_assignment],
       ok (mcc_full (Fin 1) a (to Examples.x3 cpu))).
Proof.
  apply (get_mcc_against_itself exhaustive_solver (mk true 2 3 1 Examples.x3) true 3 2).
  - exact exhaustive_solver_contract.
  - reflexivity.
  - lia.
  - exact x3_nonconstant.
Defined.

Lemma Rsum_zeros (l : list R) : Forall (fun v => v = 0) l -> Rsum l = 0.
Proof.
  induction 1 as [|a l Ha _ IH]; simpl; [reflexivity|]. rewrite Ha, IH. lra.
Qed.

Lemma cov_of_zeros (a : list R) : Forall (fun v => v = 0) a -> cov a a = 0.
Proof.
  intros Hz. unfold cov.
  assert (Hmean : mean a = 0).
  { unfold mean. rewrite (Rsum_zeros a Hz). unfold Rdiv. apply Rmult_0_l. }
  rewrite map2_diag, Hmean, Rsum_zeros; [unfold Rdiv; apply Rmult_0_l|].
  apply Forall_forall. intros s Hs. apply in_map_iff in Hs.
  destruct Hs as [w [<- Hw]]. rewrite Forall_forall in Hz. rewrite (Hz w Hw). lra.
Qed.

Lemma corr_entry_zero_column (a b : list R) : cov b b = 0 -> corr_entry a b = NaN.
Proof.
  intros Hb. unfold corr_entry.
  destruct (Req_dec_T (cov a a) 0); [reflexivity|].
  destruct (Req_dec_T (cov b b) 0); [reflexivity | contradiction].
Qed.

Lemma column_of_zeros (y : tensor R) (j : nat) :
  Forall (fun v => v = 0) (data y) -> Forall (fun v => v = 0) (column y j).
Proof.
  intros Hz. unfold column. apply Forall_forall. intros v Hv.
  apply in_map_iff in Hv. destruct Hv as [i [<- _]].
  destruct (nth_in_or_default (i * nth 1 (shape y) 0%nat + j)%nat (data y) 0) as [Hin|Hd].
  - rewrite Forall_forall in Hz. apply Hz. exact Hin.
  - exact Hd.
Qed.

Lemma zero_table_has_nan (x y : tensor R) (n n2 d1 d2 : nat) :
  shape x = [n; d1] -> shape y = [n2; d2] -> (0 < d1)%nat -> (0 < d2)%nat ->
  Forall (fun v => v = 0) (data y) ->
  forallb (forallb is_finite) (cross_correlations "pearson" x y) = false.
Proof.
  intros Hx Hy Hd1 Hd2 Hz. unfold cross_correlations, columns.
  rewrite Hx, Hy. cbn [nth].
  destruct d1 as [|d1]; [lia|]. destruct d2 as [|d2]; [lia|].
  cbn [seq map forallb].
  rewrite corr_entry_zero_column; [reflexivity|].
  apply cov_of_zeros. unfold variable. cbn [String.eqb Ascii.eqb Bool.eqb].
  apply column_of_zeros. exact Hz.
Qed.

(** X11.  A model built with [init_scale = 0], the default, has a table of
    zeros: scoring it with "pearson" against a ground truth with as many
    rows and at least one column raises a ValueError.  It is the solver's,
    the correlations being NaN, unless [task_num] is 1 and [max_context_dim]
    is greater: np.corrcoef then takes the one-row table for a single
    variable and cannot stack it, and the solver is not called. *)
Theorem get_mcc_fresh_default_raises (solver : list (list R) -> assignment)
  (meta rp : bool) (m n : Z) (g g' : generator) (self : t)
  (context_gt : tensor R) (d1 : nat) :
  init meta m n 0 g = ok (self, g') ->
  (0 < m)%Z ->
  shape context_gt = [Z.to_nat n; d1] -> (0 < d1)%nat ->
  get_mcc solver self context_gt None rp (Some "pearson"%string)
  = if (n =? 1)%Z && (1 <? m)%Z then
      ([call_corrcoef], raise (ValueError stack_message))
    else
      ([call_corrcoef; call_linear_sum_assignment],
       raise (ValueError "matrix contains invalid numeric entries")).
Proof.
  intros Hinit Hm Hgt Hd1.
  unfold init in Hinit.
  destruct (randn g n m) as [e|[r g0]] eqn:Hrun; [discriminate|].
  destruct (randn_returns g g0 n m r Hrun) as [Hfit [Hneg Hcap]].
  rewrite (randn_ok g n m Hfit Hneg Hcap) in Hrun. inversion Hrun; subst r g0.
  cbn [bind ok] in Hinit. inversion Hinit; subst self g'. clear Hinit Hrun.
  apply orb_false_iff in Hneg. destruct Hneg as [Hn _]. apply Z.ltb_ge in Hn.
  unfold get_mcc, stats_mcc_mean_corr_coef. cbn [context_hat tlift tbind ok app].
  match goal with
  | |- context [mean_corr_coef solver ?x ?y _ _] =>
      remember x as gt eqn:Egt; remember y as table eqn:Etable
  end.
  assert (Hy : shape table = [Z.to_nat n; Z.to_nat m]) by (rewrite Etable; reflexivity).
  assert (Hx : shape gt = [Z.to_nat n; d1]) by (rewrite Egt; exact Hgt).
  assert (Hz : Forall (fun v => v = 0) (data table)).
  { rewrite Etable. cbn [to tmap data]. apply Forall_forall. intros v Hv.
    apply in_map_iff in Hv. destruct Hv as [w [<- _]]. lra. }
  clear Egt Etable.
  rewrite (mean_corr_coef_pearson solver gt table (Z.to_nat n) (Z.to_nat n) d1
             (Z.to_nat m) true Hx Hy).
  destruct (Nat.eqb_spec d1 0); [lia|].
  destruct (Nat.eqb_spec (Z.to_nat n) 1) as [Hone|Hone].
  - assert (Hn1 : (n =? 1)%Z = true) by (apply Z.eqb_eq; lia). rewrite Hn1.
    rewrite Hone in Hx, Hy |- *.
    destruct (Nat.eqb_spec 1 (Z.to_nat m)) as [Hm1|Hm1].
    + assert (Hlt : (1 <? m)%Z = false) by (apply Z.ltb_ge; lia). rewrite Hlt.
      rewrite <- Hm1 in Hy.
      match goal with
      | |- context [score_from solver ?cc ?d ?t ?r] =>
          rewrite (score_from_nan solver cc d t r
                     (row_correlations_nan _ _ 1 d1 1 Hx Hy Hd1 ltac:(lia)))
      end.
      reflexivity.
    + assert (Hlt : (1 <? m)%Z = true) by (apply Z.ltb_lt; lia). rewrite Hlt.
      reflexivity.
  - assert (Hn1 : (n =? 1)%Z = false) by (apply Z.eqb_neq; lia). rewrite Hn1.
    rewrite Nat.eqb_refl.
    destruct (Nat.eqb_spec (d1 + Z.to_nat m) 1); [lia|].
    match goal with
    | |- context [score_from solver ?cc ?d ?t ?r] =>
        rewrite (score_from_nan solver cc d t r)
    end; [reflexivity|].
    eapply zero_table_has_nan; eauto; lia.
Qed.

Lemma get_mcc_fresh_default_raises_witness :
  get_mcc exhaustive_solver
          (mk true 2 3 0 (tmap (fun v => v * 0)
                               (Tensor.mk [3%nat; 2%nat] (map INR (seq 0 6)) cpu)))
          Examples.x3 None true (Some "pearson"%string)
  = ([call_corrcoef; call_linear_sum_assignment],
     raise (ValueError "matrix contains invalid numeric entries")).
Proof.
  apply (get_mcc_fresh_default_raises exhaustive_solver true true 2 3
           (mk_generator INR 0 100) (mk_generator INR 6 100)
           (mk true 2 3 0 (tmap (fun v => v * 0)
                                (Tensor.mk [3%nat; 2%nat] (map INR (seq 0 6)) cpu)))
           Examples.x3 2).
  - reflexivity.
  - lia.
  - reflexivity.
  - lia.
Defined.

Lemma resolve_all_out_of_range (n : nat) (idx : list Z) :
  Exists (fun i => (i < - Z.of_nat n \/ Z.of_nat n <= i)%Z) idx ->
  resolve_all n idx = raise IndexError.
Proof.
  induction 1 as [i idx Hi|i idx _ IH]; simpl.
  - unfold resolve_index.
    destruct (Z.leb_spec 0 i), (Z.ltb_spec i (Z.of_nat n)); simpl; try lia;
      try reflexivity;
      destruct (Z.leb_spec (- Z.of_nat n) i), (Z.ltb_spec i 0); simpl;
      try lia; reflexivity.
  - rewrite IH. destruct (resolve_index n i) as [e|r] eqn:Hr; simpl; [|reflexivity].
    unfold resolve_index in Hr.
    destruct ((0 <=? i)%Z && (i <? Z.of_nat n)%Z); [discriminate|].
    destruct ((- Z.of_nat n <=? i)%Z && (i <? 0)%Z); [discriminate|].
    inversion Hr. reflexivity.
Qed.

(** X12.  A [valid_idx] naming a column the table does not have makes
    [get_mcc] raise IndexError before any correlation or assignment is
    computed, whatever the method. *)
Theorem get_mcc_bad_column (solver : list (list R) -> assignment) 
  (self : t) (context_gt : tensor R) (valid_idx : list Z)
  (rp : bool) (method : option string) (n d : nat) :
  shape (context_hat self) = [n; d] ->
  Exists (fun i => (i < - Z.of_nat d \/ Z.of_nat d <= i)%Z) valid_idx ->
  get_mcc solver self context_gt (Some valid_idx) rp method = ([], raise IndexError).
Proof.
  intros Hshape Hbad. unfold get_mcc, select_columns. rewrite Hshape.
  rewrite (resolve_all_out_of_range d valid_idx Hbad). reflexivity.
Qed.

Lemma get_mcc_bad_column_witness :
  get_mcc exhaustive_solver (mk true 2 3 1 Examples.x3) Examples.y3 (Some [0%Z; 2%Z]) true
          (Some "pearson"%string)
  = ([], raise IndexError).
Proof.
  apply (get_mcc_bad_column exhaustive_solver (mk true 2 3 1 Examples.x3) Examples.y3 [0%Z; 2%Z] true
           (Some "pearson"%string) 3 2).
  - reflexivity.
  - apply Exists_cons_tl. apply Exists_cons_hd. simpl. lia.
Defined.

End ContextModelScore.

Section LogVarianceBelowMax.
Import PlainMDPWorldModel.

Lemma softplus_exp_ge_two (z : R) : 0 <= z -> 2 <= exp (softplus z).
Proof.
  intros Hz. unfold softplus. destruct (Rlt_dec 20 z) as [Hbig|_].
  - pose proof (exp_ineq1 z ltac:(lra)). lra.
  - rewrite exp_ln by (pose proof (exp_pos z); lra).
    destruct Hz as [Hz| <-].
    + pose proof (exp_increasing 0 z Hz) as H. rewrite exp_0 in H. lra.
    + rewrite exp_0. lra.
Qed.

Lemma get_log_var_entry_below_max (self : t) (x : R) :
  2 <= exp (snd (log_var_bounds self) - fst (log_var_bounds self)) ->
  x <= snd (log_var_bounds self) ->
  fst (log_var_bounds self) <= get_log_var_entry self x <= snd (log_var_bounds self).
Proof.
  intros Hapart Hx.
  split; [left; apply get_log_var_entry_bounds|].
  unfold get_log_var_entry. destruct (log_var_bounds self) as [mn mx]. simpl in *.
  set (s := softplus (mx - x)).
  assert (Hs : 0 < s) by apply softplus_pos.
  assert (Hes : 2 <= exp s) by (apply softplus_exp_ge_two; lra).
  unfold softplus at 1. destruct (Rlt_dec 20 (mx - s - mn)) as [_|_]; [lra|].
  enough (ln (1 + exp (mx - s - mn)) <= ln (exp (mx - mn)))
    by (rewrite ln_exp in *; lra).
  assert (Hinner : 0 < exp (mx - s - mn)) by apply exp_pos.
  assert (Hle : 1 + exp (mx - s - mn) <= exp (mx - mn)).
  { replace (mx - s - mn) with ((mx - mn) + - s) by lra.
    rewrite exp_plus, exp_Ropp.
    assert (Hinv : / exp s <= / 2) by (apply Rinv_le_contravar; lra).
    pose proof (exp_pos (mx - mn)) as HE.
    assert (exp (mx - mn) * / exp s <= exp (mx - mn) * / 2)
      by (apply Rmult_le_compat_l; lra).
    lra. }
  destruct Hle as [Hlt|Heq].
  - left. apply ln_increasing; lra.
  - rewrite Heq. lra.
Qed.

Lemma default_bounds_apart : 2 <= exp (1 / 2 - -10).
Proof.
  pose proof (exp_ineq1 (1 / 2 - -10) ltac:(lra)). lra.
Qed.

(** X13.  When the bounds are at least log 2 apart, an input that is not
    above [max_log_var] comes out of [get_log_var] within the bounds: at
    least [min_log_var] and at most [max_log_var]. *)
Theorem get_log_var_within_bounds (self : t) (log_var : tensor R) :
  2 <= exp (snd (log_var_bounds self) - fst (log_var_bounds self)) ->
  Forall (fun x => x <= snd (log_var_bounds self)) (data log_var) ->
  Forall (fun v => fst (log_var_bounds self) <= v <= snd (log_var_bounds self))
         (data (get_log_var self log_var)).
Proof.
  intros Hapart Hin. rewrite get_log_var_data. apply Forall_forall.
  intros v Hv. apply in_map_iff in Hv. destruct Hv as [x [<- Hx]].
  rewrite Forall_forall in Hin.
  apply get_log_var_entry_below_max; auto.
Qed.

Lemma get_log_var_within_bounds_witness :
  Forall (fun v => -10 <= v <= 1 / 2)
         (data (get_log_var (mk 4 true true (-10, 1 / 2))
                            (Tensor.mk [3%nat] [-1000000; 0; 1 / 2] cpu))).
Proof.
  apply (get_log_var_within_bounds (mk 4 true true (-10, 1 / 2))
           (Tensor.mk [3%nat] [-1000000; 0; 1 / 2] cpu)).
  - exact default_bounds_apart.
  - repeat constructor; simpl; lra.
Defined.

End LogVarianceBelowMax.

Section OutputLayout.
Import PlainMDPWorldModel.

Lemma firstn_one_skipn {A} (d0 : A) (a : nat) (blk : list A) :
  (a < length blk)%nat -> firstn 1 (skipn a blk) = [nth a blk d0].
Proof.
  revert blk. induction a as [|a IH]; intros [|v r] Hlen; simpl in Hlen; try lia.
  - reflexivity.
  - simpl. apply IH. lia.
Qed.

Lemma chunks_column {A} (d0 : A) (a D N : nat) (l : list A) :
  (a < D)%nat -> length l = (N * D)%nat ->
  flat_map (fun blk => firstn 1 (skipn a blk)) (chunks D N l)
  = map (fun i => nth (i * D + a) l d0) (seq 0 N).
Proof.
  intros Ha. revert l. induction N as [|N IH]; intros l Hl; [reflexivity|].
  cbn [chunks flat_map seq map].
  rewrite (firstn_one_skipn d0) by (rewrite length_firstn; nia).
  rewrite nth_firstn. destruct (Nat.ltb_spec a D) as [_|Hge]; [|lia].
  cbn [app]. f_equal.
  rewrite IH by (rewrite length_skipn; nia).
  rewrite <- seq_shift, map_map. apply map_ext. intros i.
  rewrite nth_skipn. f_equal. lia.
Qed.

Lemma slice_column (t : tensor R) (N o a : nat) (start stop : option Z) :
  shape t = [N; (o + 2)%nat] -> wf t ->
  slice_bound (o + 2) 0 start = a -> slice_bound (o + 2) (o + 2) stop = (a + 1)%nat ->
  (a < o + 2)%nat ->
  slice_dim1 start stop t
  = ok (Tensor.mk [N; 1%nat]
                  (map (fun i => nth (i * (o + 2) + a) (data t) 0) (seq 0 N))
                  (dev t)).
Proof.
  intros Hs Hwf Ha Hb Hlt. unfold slice_dim1. rewrite Hs, Ha, Hb.
  replace (a + 1 - a)%nat with 1%nat by lia. cbn [numel fold_right].
  rewrite !Nat.mul_1_r.
  rewrite (chunks_column 0 a (o + 2) N); [reflexivity | exact Hlt |].
  unfold wf in Hwf. rewrite Hwf, Hs. simpl. lia.
Qed.

Lemma slice_bound_none (n d : nat) : slice_bound n d None = d.
Proof. reflexivity. Qed.

Lemma slice_observation_part (t : tensor R) (N o : nat) :
  shape t = [N; (o + 2)%nat] ->
  exists part,
    slice_dim1 None (Some (-2)%Z) t = ok part
    /\ shape part = [N; o] /\ dev part = dev t.
Proof.
  intros Hs. unfold slice_dim1. rewrite Hs, slice_bound_minus_two.
  eexists. split; [reflexivity|]. simpl. rewrite Nat.sub_0_r. auto.
Qed.

(** What [get_outputs] computes from a network output of the expected
    width. *)
Lemma get_outputs_parts (self : t) (mean log_var observation : tensor R)
  (batch_size : list nat) :
  shape mean = [numel batch_size; (obs_dim self + 2)%nat] ->
  shape log_var = [numel batch_size; (obs_dim self + 2)%nat] ->
  wf mean -> wf log_var ->
  (residual self = true ->
   shape observation = batch_size ++ [obs_dim self] /\ wf observation
   /\ dev observation = dev mean) ->
  exists out,
    get_outputs self mean log_var observation batch_size = ok out
    /\ shape (next_obs_mean out) = batch_size ++ [obs_dim self]
    /\ shape (next_obs_log_var out) = batch_size ++ [obs_dim self]
    /\ shape (reward_mean out) = batch_size ++ [1%nat]
    /\ shape (reward_log_var out) = batch_size ++ [1%nat]
    /\ shape (terminated out) = batch_size ++ [1%nat]
    /\ data (reward_mean out)
       = map (fun i => nth (i * (obs_dim self + 2) + obs_dim self) (data mean) 0)
             (seq 0 (numel batch_size))
    /\ data (terminated out)
       = map (fun i => nth (i * (obs_dim self + 2) + (obs_dim self + 1)) (data mean) 0)
             (seq 0 (numel batch_size))
    /\ (let clamped v :=
          fst (log_var_bounds self) <= v
          <= Rmax (fst (log_var_bounds self)) (snd (log_var_bounds self)) + ln 2 in
        if learn_obs_var self then
          Forall clamped (data (next_obs_log_var out))
          /\ Forall clamped (data (reward_log_var out))
        else
          Forall (fun v => v = 0) (data (next_obs_log_var out))
          /\ Forall (fun v => v = 0) (data (reward_log_var out))).
Proof.
  intros Hmean Hlv Hwfm Hwfl Hobs.
  set (o := obs_dim self) in *. set (N := numel batch_size) in *.
  destruct (slice_observation_part mean N o Hmean) as [delta [Hdelta [Hsd Hdd]]].
  destruct (slice_observation_part log_var N o Hlv) as [lvo [Hlvo [Hslvo _]]].
  pose proof (slice_column mean N o o (Some (-2)%Z) (Some (-1)%Z) Hmean Hwfm
                (slice_bound_minus_two o 0) (slice_bound_minus_one o (o + 2))
                ltac:(lia)) as Hrm.
  pose proof (slice_column log_var N o o (Some (-2)%Z) (Some (-1)%Z) Hlv Hwfl
                (slice_bound_minus_two o 0) (slice_bound_minus_one o (o + 2))
                ltac:(lia)) as Hrl.
  assert (Hlast : slice_bound (o + 2) 0 (Some (-1)%Z) = (o + 1)%nat)
    by apply slice_bound_minus_one.
  pose proof (slice_column mean N o (o + 1) (Some (-1)%Z) None Hmean Hwfm Hlast
                ltac:(rewrite slice_bound_none; lia) ltac:(lia)) as Hterm.
  pose proof (slice_dim1_wf _ _ _ _ Hwfm Hdelta) as Hwfd.
  assert (Hnum : numel (batch_size ++ [o]) = numel (shape delta))
    by (rewrite Hsd, numel_app; simpl; fold N; lia).
  assert (Hnum1 : numel (batch_size ++ [1%nat]) = (N * 1)%nat)
    by (rewrite numel_app; simpl; fold N; lia).
  assert (Hnext : exists next,
            bind (reshape delta (batch_size ++ [o]))
                 (fun d => if residual self then add observation d else ok d) = ok next
            /\ shape next = batch_size ++ [o]).
  { rewrite (reshape_ok delta _ Hnum). cbn [bind ok].
    destruct (residual self) eqn:Hres.
    - destruct (Hobs eq_refl) as [Hso [Hwo Hdo]].
      rewrite (add_same_shape observation
                 (Tensor.mk (batch_size ++ [o]) (data delta) (dev delta))).
      + eexists. split; [reflexivity|]. exact Hso.
      + exact Hso.
      + simpl. congruence.
      + exact Hwo.
      + unfold wf in *. simpl. lia.
    - eexists. split; reflexivity. }
  destruct Hnext as [next [Hnext Hsnext]].
  unfold get_outputs. rewrite Hdelta, Hrm, Hterm, Hlvo, Hrl. cbn [bind ok].
  fold o. unfold bind in Hnext.
  destruct (reshape delta (batch_size ++ [o])) as [e|d]; [discriminate|].
  cbn [bind ok]. rewrite Hnext. cbn [bind ok].
  rewrite !reshape_ok;
    [| rewrite ?log_var_part_shape; cbn [shape numel fold_right]; try rewrite Hslvo;
       rewrite numel_app; simpl; fold N; lia ..].
  cbn [bind ok]. eexists. split; [reflexivity|].
  cbn [next_obs_mean next_obs_log_var reward_mean reward_log_var terminated shape data].
  repeat (split; [try reflexivity; try exact Hsnext|]).
  destruct (learn_obs_var self).
  - split; rewrite get_log_var_data; apply Forall_forall; intros v Hv;
      apply in_map_iff in Hv; destruct Hv as [x [<- _]];
      apply get_log_var_entry_range.
  - split; apply Forall_forall; intros v Hv; cbn [zeros_like tmap data] in Hv;
      apply in_map_iff in Hv; destruct Hv as [x [<- _]]; reflexivity.
Qed.

(** X14.  On the shapes [forward] hands over, [get_outputs] returns five
    tensors: next-observation mean and log-variance of shape
    [batch ++ [obs_dim]], reward mean, reward log-variance and termination of
    shape [batch ++ [1]].  The reward mean is the last column but one of the
    network's mean, the termination its last column.  When [learn_obs_var]
    is on, every entry of the two log-variances is at least [min_log_var]
    and at most [log 2] above the greater of the two bounds; when it is off
    they are zero. *)
Theorem get_outputs_layout (self : t) (mean log_var observation : tensor R)
  (batch_size : list nat) :
  shape mean = [numel batch_size; (obs_dim self + 2)%nat] ->
  shape log_var = [numel batch_size; (obs_dim self + 2)%nat] ->
  wf mean -> wf log_var ->
  (residual self = true ->
   shape observation = batch_size ++ [obs_dim self] /\ wf observation
   /\ dev observation = dev mean) ->
  exists out,
    get_outputs self mean log_var observation batch_size = ok out
    /\ shape (next_obs_mean out) = batch_size ++ [obs_dim self]
    /\ shape (next_obs_log_var out) = batch_size ++ [obs_dim self]
    /\ shape (reward_mean out) = batch_size ++ [1%nat]
    /\ shape (reward_log_var out) = batch_size ++ [1%nat]
    /\ shape (terminated out) = batch_size ++ [1%nat]
    /\ data (reward_mean out)
       = map (fun i => nth (i * (obs_dim self + 2) + obs_dim self) (data mean) 0)
             (seq 0 (numel batch_size))
    /\ data (terminated out)
       = map (fun i => nth (i * (obs_dim self + 2) + (obs_dim self + 1)) (data mean) 0)
             (seq 0 (numel batch_size))
    /\ (let clamped v :=
          fst (log_var_bounds self) <= v
          <= Rmax (fst (log_var_bounds self)) (snd (log_var_bounds self)) + ln 2 in
        if learn_obs_var self then
          Forall clamped (data (next_obs_log_var out))
          /\ Forall clamped (data (reward_log_var out))
        else
          Forall (fun v => v = 0) (data (next_obs_log_var out))
          /\ Forall (fun v => v = 0) (data (reward_log_var out))).
Proof.
  exact (get_outputs_parts self mean log_var observation batch_size).
Qed.

Lemma get_outputs_layout_witness :
  exists out,
    get_outputs (mk 2 false false (-10, 1 / 2))
                (Tensor.mk [1%nat; 4%nat] [1; 2; 5; 6] cpu)
                (Tensor.mk [1%nat; 4%nat] [1; 2; 3; 4] cpu)
                (Tensor.mk [3%nat] [7; 8; 9] cpu) [1%nat] = ok out
    /\ shape (next_obs_mean out) = [1%nat; 2%nat]
    /\ shape (next_obs_log_var out) = [1%nat; 2%nat]
    /\ shape (reward_mean out) = [1%nat; 1%nat]
    /\ shape (reward_log_var out) = [1%nat; 1%nat]
    /\ shape (terminated out) = [1%nat; 1%nat]
    /\ data (reward_mean out) = [5]
    /\ data (terminated out) = [6]
    /\ Forall (fun v => v = 0) (data (next_obs_log_var out))
    /\ Forall (fun v => v = 0) (data (reward_log_var out)).
Proof.
  apply (get_outputs_layout (mk 2 false false (-10, 1 / 2))
           (Tensor.mk [1%nat; 4%nat] [1; 2; 5; 6] cpu)
           (Tensor.mk [1%nat; 4%nat] [1; 2; 3; 4] cpu)
           (Tensor.mk [3%nat] [7; 8; 9] cpu) [1%nat]).
  - reflexivity.
  - reflexivity.
  - reflexivity.
  - reflexivity.
  - simpl. discriminate.
Defined.

End OutputLayout.

Section OutputWidth.
Import PlainMDPWorldModel.

(** X15.  When the network's mean has a width other than [obs_dim + 2]
    (and at least 2), on a batch that is not empty, the first reshape of
    [get_outputs] raises: nothing is returned. *)
Theorem get_outputs_wrong_width (self : t) (mean log_var observation : tensor R)
  (batch_size : list nat) (D n' D' : nat) :
  shape mean = [numel batch_size; D] ->
  shape log_var = [n'; D'] ->
  (0 < numel batch_size)%nat -> (2 <= D)%nat -> D <> (obs_dim self + 2)%nat ->
  get_outputs self mean log_var observation batch_size = raise RuntimeError.
Proof.
  intros Hmean Hlv HN HD Hne.
  unfold get_outputs, slice_dim1. rewrite Hmean, Hlv. cbn [bind ok].
  unfold reshape at 1. cbn [shape].
  assert (Hb : slice_bound D D (Some (-2)%Z) = (D - 2)%nat).
  { unfold slice_bound. destruct (Z.ltb_spec (-2) 0); lia. }
  rewrite Hb. cbn [slice_bound].
  destruct (Nat.eqb_spec (numel (batch_size ++ [obs_dim self]))
                         (numel [numel batch_size; (D - 2 - 0)%nat])) as [Heq|_];
    [|reflexivity].
  exfalso. rewrite numel_app in Heq. simpl in Heq.
  assert (obs_dim self = D - 2)%nat by nia. lia.
Qed.

Lemma get_outputs_wrong_width_witness :
  get_outputs (mk 2 true true (-10, 1 / 2))
              (Tensor.mk [1%nat; 3%nat] [1; 2; 3] cpu)
              (Tensor.mk [1%nat; 3%nat] [1; 2; 3] cpu)
              (Tensor.mk [1%nat; 2%nat] [7; 8] cpu) [1%nat]
  = raise RuntimeError.
Proof.
  apply (get_outputs_wrong_width (mk 2 true true (-10, 1 / 2))
           (Tensor.mk [1%nat; 3%nat] [1; 2; 3] cpu)
           (Tensor.mk [1%nat; 3%nat] [1; 2; 3] cpu)
           (Tensor.mk [1%nat; 2%nat] [7; 8] cpu) [1%nat] 3 1 3).
  - reflexivity.
  - reflexivity.
  - simpl. lia.
  - lia.
  - simpl. lia.
Defined.

End OutputWidth.

Section RewardOnes.
Import RewardFns.

(** X16.  [ones] depends on the next observation only through its leading
    dimensions and its device: for a next observation of shape
    [batch ++ [d]] the reward has shape [batch ++ [1]], one entry equal to 1
    per transition, on the device of the next observation; the observation
    and the action are not read. *)
Theorem ones_per_transition (obs act next_obs : tensor R) (batch : list nat) (d : nat) :
  shape next_obs = batch ++ [d] ->
  ones obs act next_obs
  = Tensor.mk (batch ++ [1%nat]) (repeat 1 (numel batch)) (dev next_obs)
  /\ wf (ones obs act next_obs).
Proof.
  intros Hs. unfold ones, wf. rewrite Hs, removelast_last. cbn [to shape data].
  rewrite numel_app. simpl numel. rewrite Nat.mul_1_r, repeat_length.
  split; reflexivity.
Qed.

Lemma ones_per_transition_witness :
  ones (Tensor.mk [2%nat; 3%nat] [1; 2; 3; 4; 5; 6] cpu)
       (Tensor.mk [2%nat; 1%nat] [0; 0] cpu)
       (Tensor.mk [2%nat; 3%nat] [6; 5; 4; 3; 2; 1] (cuda 1))
  = Tensor.mk [2%nat; 1%nat] [1; 1] (cuda 1)
  /\ wf (ones (Tensor.mk [2%nat; 3%nat] [1; 2; 3; 4; 5; 6] cpu)
              (Tensor.mk [2%nat; 1%nat] [0; 0] cpu)
              (Tensor.mk [2%nat; 3%nat] [6; 5; 4; 3; 2; 1] (cuda 1))).
Proof.
  apply (ones_per_transition (Tensor.mk [2%nat; 3%nat] [1; 2; 3; 4; 5; 6] cpu)
           (Tensor.mk [2%nat; 1%nat] [0; 0] cpu)
           (Tensor.mk [2%nat; 3%nat] [6; 5; 4; 3; 2; 1] (cuda 1)) [2%nat] 3).
  reflexivity.
Defined.

End RewardOnes.

Section ScoreRange.
Import Metrics.

Lemma corr_value_bounds (a b : list R) : 0 <= Rabs (value (corr_entry a b)) <= 1.
Proof.
  split; [apply Rabs_pos|]. unfold corr_entry.
  destruct (Req_dec_T (cov a a) 0); [simpl; rewrite Rabs_R0; lra|].
  destruct (Req_dec_T (cov b b) 0); [simpl; rewrite Rabs_R0; lra|].
  simpl. apply Rabs_le. apply clip_bounds.
Qed.

(** In a block of correlations every absolute value lies in the unit
    interval. *)
Lemma entry_in_unit (cc : list (list npfloat)) (i j : nat) :
  Forall (Forall (fun v => exists a b, v = corr_entry a b)) cc ->
  0 <= entry (map (map (fun v => Rabs (value v))) cc) i j <= 1.
Proof.
  intros Hcc. unfold entry.
  destruct (nth_in_or_default i (map (map (fun v => Rabs (value v))) cc) [])
    as [Hin | Hdef]; [|rewrite Hdef; destruct j; simpl; lra].
  apply in_map_iff in Hin. destruct Hin as [r [Hr Hin]]. rewrite <- Hr.
  destruct (nth_in_or_default j (map (fun v => Rabs (value v)) r) 0)
    as [Hcell | Hdef]; [|rewrite Hdef; lra].
  apply in_map_iff in Hcell. destruct Hcell as [v [Hv Hcell]]. rewrite <- Hv.
  rewrite Forall_forall in Hcc. specialize (Hcc r Hin).
  rewrite Forall_forall in Hcc. destruct (Hcc v Hcell) as [a [b ->]].
  apply corr_value_bounds.
Qed.

Lemma correlations_between {A B} (f : A -> list R) (g : B -> list R)
  (la : list A) (lb : list B) :
  Forall (Forall (fun v => exists a b, v = corr_entry a b))
         (map (fun u => map (fun w => corr_entry (f u) (g w)) lb) la).
Proof.
  apply Forall_forall. intros r Hr. apply in_map_iff in Hr. destruct Hr as [u [<- _]].
  apply Forall_forall. intros v Hv. apply in_map_iff in Hv. destruct Hv as [w [<- _]].
  eauto.
Qed.

Lemma total_nonneg (c : list (list R)) (a : assignment) :
  (forall i j, 0 <= entry c i j) -> 0 <= total c a.
Proof.
  intros Hpos. unfold total. destruct a as [rows cols]. simpl. revert cols.
  induction rows as [|i rows IH]; intros [|j cols]; simpl; try lra.
  specialize (IH cols). specialize (Hpos i j). lra.
Qed.

Lemma score_from_returns (solver : list (list R) -> assignment)
  (cc : list (list npfloat)) (d1 k d2 : nat) (y : tensor R) (rp : bool)
  (tr : list call) (v : mcc_value) :
  solver_contract solver -> dims cc d1 k -> nth_error (shape y) 1 = Some d2 ->
  score_from solver cc d1 y rp = (tr, ok v) ->
  forallb (forallb is_finite) cc = true
  /\ exists a,
       valid_assignment d1 k a
       /\ score_of v
          = fdiv_nat (Fin (total (map (map (fun w => Rabs (value w))) cc) a))
                     (Nat.max d1 d2).
Proof.
  intros Hok Hdims Hy Hrun.
  destruct (forallb (forallb is_finite) cc) eqn:Hfin.
  - split; [reflexivity|].
    destruct (score_from_finite_block solver Hok cc d1 k d2 y rp Hdims Hy Hfin)
      as [Heq [[Hv _] _]].
    cbv zeta in Heq. rewrite Heq in Hrun. inversion Hrun; subst.
    eexists. split; [exact Hv|]. destruct rp; reflexivity.
  - rewrite (score_from_nan solver cc d1 y rp Hfin) in Hrun. discriminate.
Qed.

Lemma row_correlations_dims (x y : tensor R) (n n2 d1 d2 : nat) :
  shape x = [n; d1] -> shape y = [n2; d2] -> dims (row_correlations x y) d1 n2.
Proof.
  intros Hx Hy. unfold row_correlations. split.
  - rewrite length_map. eapply columns_length; eauto.
  - apply Forall_forall. intros r Hr. apply in_map_iff in Hr.
    destruct Hr as [a [<- _]]. rewrite length_map. eapply rows_length; eauto.
Qed.

(** A call that returns has scored a block of correlations, of [d1] rows
    and no wider than [y]. *)
Lemma mean_corr_coef_returns (solver : list (list R) -> assignment)
  (x y : tensor R) (method : string) (rp : bool) (n n2 d1 d2 : nat)
  (tr : list call) (v : mcc_value) :
  shape x = [n; d1] -> shape y = [n2; d2] ->
  method = "pearson"%string \/ method = "spearman"%string ->
  mean_corr_coef solver x y method rp = (tr, ok v) ->
  exists tr' cc k,
    score_from solver cc d1 y rp = (tr', ok v)
    /\ dims cc d1 k
    /\ Forall (Forall (fun w => exists a b, w = corr_entry a b)) cc
    /\ (forallb (forallb is_finite) cc = true -> (Nat.min d1 k <= Nat.min d1 d2)%nat).
Proof.
  intros Hx Hy [-> | ->] Hrun.
  - rewrite (mean_corr_coef_pearson solver x y n n2 d1 d2 rp Hx Hy) in Hrun.
    destruct (Nat.eqb_spec d1 0) as [->|Hd1].
    + destruct (score_from solver [] 0 y rp) as [tr' r] eqn:Hs.
      inversion Hrun; subst. exists tr', [], d2.
      split; [exact Hs|]. split; [split; [reflexivity | constructor]|].
      split; [constructor | intros _; lia].
    + destruct (Nat.eqb_spec n2 1) as [->|Hn2].
      * destruct (Nat.eqb_spec n d2) as [->|_]; [|discriminate].
        destruct (score_from solver (row_correlations x y) d1 y rp) as [tr' r] eqn:Hs.
        inversion Hrun; subst. exists tr', (row_correlations x y), 1%nat.
        split; [exact Hs|].
        split; [exact (row_correlations_dims x y d2 1 d1 d2 Hx Hy)|].
        split; [apply (correlations_between (fun a => a) (fun b => b))|].
        intros Hfin. destruct (Nat.le_gt_cases d2 1) as [Hle|Hgt]; [|lia].
        rewrite (row_correlations_nan x y d2 d1 d2 Hx Hy ltac:(lia) Hle) in Hfin.
        discriminate.
      * destruct (Nat.eqb n n2); [|discriminate].
        destruct (Nat.eqb (d1 + d2) 1); [discriminate|].
        destruct (score_from solver (cross_correlations "pearson" x y) d1 y rp)
          as [tr' r] eqn:Hs.
        inversion Hrun; subst. exists tr', (cross_correlations "pearson" x y), d2.
        split; [exact Hs|].
        split; [exact (cross_correlations_dims "pearson" x y n n2 d1 d2 Hx Hy)|].
        split; [apply correlations_between | intros _; lia].
  - rewrite (mean_corr_coef_spearman solver x y n n2 d1 d2 rp Hx Hy) in Hrun.
    destruct (Nat.eqb n n2); [|discriminate].
    destruct (spearman_rho (columns x ++ columns y) n) as [e|[|r|m]] eqn:Hrho;
      try discriminate.
    apply spearman_rho_returns in Hrho. subst m.
    rewrite (spearman_block x y n d1 Hx) in Hrun.
    destruct (score_from solver (cross_correlations "spearman" x y) d1 y rp)
      as [tr' r] eqn:Hs.
    inversion Hrun; subst. exists tr', (cross_correlations "spearman" x y), d2.
    split; [exact Hs|].
    split; [exact (cross_correlations_dims "spearman" x y n n2 d1 d2 Hx Hy)|].
    split; [apply correlations_between | intros _; lia].
Qed.

(** X17.  Whenever mean_corr_coef returns, on arrays that are not both
    without columns, its score is a number between 0 and
    min(d1, d2) / max(d1, d2), hence at most 1: columns left unmatched lower
    the best score that can be reached. *)
Theorem mean_corr_coef_score_range (solver : list (list R) -> assignment)
  (x y : tensor R) (method : string) (rp : bool) (n n2 d1 d2 : nat) :
  solver_contract solver ->
  shape x = [n; d1] -> shape y = [n2; d2] -> (0 < Nat.max d1 d2)%nat ->
  method = "pearson"%string \/ method = "spearman"%string ->
  match snd (mean_corr_coef solver x y method rp) with
  | inl _ => True
  | inr v =>
      exists s,
        score_of v = Fin s
        /\ 0 <= s <= INR (Nat.min d1 d2) / INR (Nat.max d1 d2)
        /\ s <= 1
  end.
Proof.
  intros Hok Hx Hy Hpos Hmethod.
  destruct (mean_corr_coef solver x y method rp) as [tr [e|v]] eqn:Hrun;
    cbn [snd]; [exact I|].
  destruct (mean_corr_coef_returns solver x y method rp n n2 d1 d2 tr v Hx Hy Hmethod Hrun)
    as [tr' [cc [k [Hscore [Hdims [Hcorr Hwidth]]]]]].
  assert (Hy1 : nth_error (shape y) 1 = Some d2) by (rewrite Hy; reflexivity).
  destruct (score_from_returns solver cc d1 k d2 y rp tr' v Hok Hdims Hy1 Hscore)
    as [Hfin [a [Hvalid Hs]]].
  specialize (Hwidth Hfin).
  set (c := map (map (fun w => Rabs (value w))) cc) in *.
  assert (Hlow : 0 <= total c a)
    by (apply total_nonneg; intros i j; apply entry_in_unit; exact Hcorr).
  assert (Hup : total c a <= INR (Nat.min d1 d2)).
  { destruct Hvalid as [Hlen _].
    apply Rle_trans with (INR (Nat.min d1 k)); [|apply le_INR; exact Hwidth].
    rewrite <- Hlen.
    apply total_le_length. intros i j. apply entry_in_unit. exact Hcorr. }
  assert (Hmax : 0 < INR (Nat.max d1 d2)) by (apply lt_0_INR; exact Hpos).
  assert (Hminmax : INR (Nat.min d1 d2) <= INR (Nat.max d1 d2)) by (apply le_INR; lia).
  exists (total c a / INR (Nat.max d1 d2)). split; [|split; [split|]].
  - rewrite Hs. unfold fdiv_nat.
    destruct (Nat.eqb_spec (Nat.max d1 d2) 0); [lia | reflexivity].
  - apply Rmult_le_pos; [exact Hlow|]. left. apply Rinv_0_lt_compat. exact Hmax.
  - unfold Rdiv. apply Rmult_le_compat_r; [|exact Hup].
    left. apply Rinv_0_lt_compat. exact Hmax.
  - apply (Rmult_le_reg_r (INR (Nat.max d1 d2))); [exact Hmax|].
    unfold Rdiv. rewrite Rmult_assoc, Rinv_l by lra. lra.
Qed.

Lemma mean_corr_coef_score_range_witness :
  match snd (mean_corr_coef exhaustive_solver Examples.x3 Examples.y3 "pearson" true) with
  | inl _ => True
  | inr v =>
      exists s,
        score_of v = Fin s
        /\ 0 <= s <= INR (Nat.min 2 2) / INR (Nat.max 2 2)
        /\ s <= 1
  end.
Proof.
  apply (mean_corr_coef_score_range exhaustive_solver Examples.x3 Examples.y3
           "pearson" true 3 3 2 2).
  - exact exhaustive_solver_contract.
  - reflexivity.
  - reflexivity.
  - simpl. lia.
  - left. reflexivity.
Defined.

(** X18.  With "spearman" and two columns in all (one in each array, say)
    no score comes out.  With at most one row, or when one of the two
    columns is constant, spearmanr hands back the float nan, and slicing it
    raises TypeError; otherwise it hands back a number, and slicing it
    raises IndexError.  The assignment solver is not called. *)
Theorem mean_corr_coef_spearman_two_variables (solver : list (list R) -> assignment)
  (x y : tensor R) (rp : bool) (n d1 d2 : nat) :
  shape x = [n; d1] -> shape y = [n; d2] -> (d1 + d2 = 2)%nat ->
  mean_corr_coef solver x y "spearman" rp
  = ([call_spearmanr],
     raise (if (n <=? 1)%nat || existsb is_constant (columns x ++ columns y)
            then TypeError else IndexError)).
Proof.
  intros Hx Hy Htwo.
  rewrite (mean_corr_coef_spearman solver x y n n d1 d2 rp Hx Hy), Nat.eqb_refl.
  rewrite spearman_rho_two
    by (rewrite length_app, (columns_length x n d1 Hx), (columns_length y n d2 Hy);
        exact Htwo).
  destruct ((n <=? 1)%nat || existsb is_constant (columns x ++ columns y)); reflexivity.
Qed.

Lemma mean_corr_coef_spearman_two_variables_witness :
  mean_corr_coef exhaustive_solver Examples.ramp Examples.flat "spearman" true
  = ([call_spearmanr],
     raise (if (2 <=? 1)%nat
               || existsb is_constant (columns Examples.ramp ++ columns Examples.flat)
            then TypeError else IndexError)).
Proof.
  apply (mean_corr_coef_spearman_two_variables exhaustive_solver
           Examples.ramp Examples.flat true 2 1 1); reflexivity.
Defined.

(** X19.  Arrays with different numbers of rows are rejected by the
    correlation routine with a ValueError, and the assignment solver is not
    called: by spearmanr always, by np.corrcoef when [x] has a column and
    [y] has more or fewer than one row (a [y] of one row is one variable for
    numpy, and a [x] without columns ends the computation before [y] is
    looked at). *)
Theorem mean_corr_coef_row_mismatch (solver : list (list R) -> assignment)
  (x y : tensor R) (method : string) (rp : bool) (n n2 d1 d2 : nat) :
  shape x = [n; d1] -> shape y = [n2; d2] -> n <> n2 ->
  (method = "pearson"%string /\ (0 < d1)%nat /\ n2 <> 1%nat)
  \/ method = "spearman"%string ->
  exists msg,
    mean_corr_coef solver x y method rp = ([call_of method], raise (ValueError msg)).
Proof.
  intros Hx Hy Hne [[-> [Hd1 Hn2]] | ->].
  - rewrite (mean_corr_coef_pearson solver x y n n2 d1 d2 rp Hx Hy).
    destruct (Nat.eqb_spec d1 0); [lia|].
    destruct (Nat.eqb_spec n2 1); [contradiction|].
    destruct (Nat.eqb_spec n n2); [contradiction|]. eexists. reflexivity.
  - rewrite (mean_corr_coef_spearman solver x y n n2 d1 d2 rp Hx Hy).
    destruct (Nat.eqb_spec n n2); [contradiction|]. eexists. reflexivity.
Qed.

Lemma mean_corr_coef_row_mismatch_witness :
  exists msg,
    mean_corr_coef exhaustive_solver Examples.x3 Examples.ramp "pearson" false
    = ([call_of "pearson"], raise (ValueError msg)).
Proof.
  apply (mean_corr_coef_row_mismatch exhaustive_solver Examples.x3 Examples.ramp
           "pearson" false 3 2 2 1).
  - reflexivity.
  - reflexivity.
  - lia.
  - left. split; [reflexivity|]. split; lia.
Defined.

(** X20.  Asking for the permutation changes neither the library calls
    made nor the score or error that comes out. *)
Theorem mean_corr_coef_return_permutation (solver : list (list R) -> assignment)
  (x y : tensor R) (method : string) :
  score_outcome (mean_corr_coef solver x y method true)
  = score_outcome (mean_corr_coef solver x y method false).
Proof.
  rewrite !mean_corr_coef_staged. unfold score_outcome.
  destruct (tlift (match nth_error (shape x) 1 with
                   | Some d => ok d
                   | None => raise IndexError
                   end)) as [tr0 [e|d]]; [reflexivity|].
  cbn [tbind].
  destruct (if String.eqb method "pearson"
            then tbind (np_corrcoef x y) (fun c => tlift (correlation_block d c))
            else if String.eqb method "spearman"
                 then tbind (spearmanr x y) (fun c => tlift (correlation_block d c))
                 else traise (ValueError ("not a valid method: " ++ method)))
    as [tr1 [e|cc]]; [reflexivity|].
  unfold score_from. cbn [tbind].
  destruct (linear_sum_assignment solver (map (map (fscale (-1))) (map (map fabs) cc)))
    as [tr2 [e|perm]]; [reflexivity|].
  cbn [tbind tlift].
  destruct (fancy_index (map (map fabs) cc) (fst perm) (snd perm)) as [e|picked];
    [reflexivity|].
  cbn [tbind tlift].
  destruct (nth_error (shape y) 1); reflexivity.
Qed.

End ScoreRange.

Section Transposition.
Import Metrics.

Lemma Rsum_permutation (l l' : list R) : Permutation l l' -> Rsum l = Rsum l'.
Proof.
  induction 1 as [|a l l' _ IH|a b l|l l' l'' _ IH1 _ IH2]; simpl; lra.
Qed.

Lemma sorted_insert (p : nat * nat) (l : list (nat * nat)) :
  StronglySorted lt (map snd l) -> ~ In (snd p) (map snd l) ->
  exists l', Permutation (p :: l) l' /\ StronglySorted lt (map snd l').
Proof.
  induction l as [|q l IH]; intros Hs Hp.
  - exists [p]. split; [apply Permutation_refl|]. repeat constructor.
  - simpl in Hs. apply StronglySorted_inv in Hs. destruct Hs as [Hs Hq].
    destruct (Nat.lt_trichotomy (snd p) (snd q)) as [Hlt|[Heq|Hgt]].
    + exists (p :: q :: l). split; [apply Permutation_refl|].
      simpl. constructor; [constructor; assumption|].
      constructor; [exact Hlt|].
      eapply Forall_impl; [|exact Hq]. simpl. intros; lia.
    + exfalso. apply Hp. simpl. auto.
    + destruct (IH Hs) as [l' [Hperm Hsorted]].
      { intros Hin. apply Hp. simpl. auto. }
      exists (q :: l'). split.
      * eapply perm_trans; [apply perm_swap|]. apply perm_skip. exact Hperm.
      * simpl. constructor; [exact Hsorted|].
        apply Forall_forall. intros k Hk.
        apply (Permutation_in _ (Permutation_sym (Permutation_map snd Hperm))) in Hk.
        simpl in Hk. destruct Hk as [<-|Hk]; [exact Hgt|].
        rewrite Forall_forall in Hq. apply Hq. exact Hk.
Qed.

Lemma sort_pairs (l : list (nat * nat)) :
  NoDup (map snd l) ->
  exists l', Permutation l l' /\ StronglySorted lt (map snd l').
Proof.
  induction l as [|p l IH]; intros Hnd.
  - exists []. split; constructor.
  - simpl in Hnd. inversion Hnd as [|? ? Hp Hnd']; subst.
    destruct (IH Hnd') as [l0 [Hperm Hsorted]].
    destruct (sorted_insert p l0 Hsorted) as [l' [Hperm' Hsorted']].
    { intros Hin. apply Hp.
      apply (Permutation_in _ (Permutation_sym (Permutation_map snd Hperm))). exact Hin. }
    exists l'. split; [|exact Hsorted'].
    eapply perm_trans; [apply perm_skip; exact Hperm | exact Hperm'].
Qed.

Lemma strongly_sorted_nodup (l : list nat) : StronglySorted lt l -> NoDup l.
Proof.
  induction 1 as [|a l _ IH Ha]; constructor; [|exact IH].
  intros Hin. rewrite Forall_forall in Ha. specialize (Ha a Hin). lia.
Qed.

Lemma map_fst_combine {A B} (l : list A) (l' : list B) :
  length l = length l' -> map fst (combine l l') = l.
Proof.
  revert l'. induction l as [|a l IH]; intros [|b l'] H; simpl in *; try lia;
    [reflexivity|]. rewrite IH by lia. reflexivity.
Qed.

Lemma map_snd_combine {A B} (l : list A) (l' : list B) :
  length l = length l' -> map snd (combine l l') = l'.
Proof.
  revert l'. induction l as [|a l IH]; intros [|b l'] H; simpl in *; try lia;
    [reflexivity|]. rewrite IH by lia. reflexivity.
Qed.

Lemma map2_of_pairs {C} (h : nat -> nat -> C) (l : list (nat * nat)) :
  map2 h (map fst l) (map snd l) = map (fun p => h (fst p) (snd p)) l.
Proof.
  induction l as [|p l IH]; simpl; [reflexivity|]. rewrite IH. reflexivity.
Qed.

(** An assignment of [n] by [m] read the other way round is an assignment
    of [m] by [n] over the same pairs. *)
Lemma transposed_assignment (n m : nat) (b : assignment) :
  valid_assignment n m b ->
  exists b',
    valid_assignment m n b'
    /\ forall h : nat -> nat -> R,
         Rsum (map2 (fun j i => h i j) (fst b') (snd b'))
         = Rsum (map2 h (fst b) (snd b)).
Proof.
  intros [Hrl [Hcl [Hrs [Hrr [Hcn Hcr]]]]].
  destruct b as [rows cols]. cbn [fst snd] in *.
  assert (Hlen : length rows = length cols) by lia.
  set (ps := combine rows cols).
  assert (Hfst : map fst ps = rows) by (apply map_fst_combine; exact Hlen).
  assert (Hsnd : map snd ps = cols) by (apply map_snd_combine; exact Hlen).
  destruct (sort_pairs ps) as [ps' [Hperm Hsorted]]; [rewrite Hsnd; exact Hcn|].
  pose proof (Permutation_map fst Hperm) as Hpf. rewrite Hfst in Hpf.
  pose proof (Permutation_map snd Hperm) as Hps. rewrite Hsnd in Hps.
  exists (map snd ps', map fst ps'). split.
  - unfold valid_assignment. cbn [fst snd]. rewrite !length_map.
    rewrite <- (Permutation_length Hperm). unfold ps. rewrite length_combine.
    rewrite Forall_forall in Hrr, Hcr.
    split; [lia|]. split; [lia|]. split; [exact Hsorted|]. split; [|split].
    + apply Forall_forall. intros j Hj. apply Hcr.
      apply (Permutation_in _ (Permutation_sym Hps)). exact Hj.
    + apply (Permutation_NoDup Hpf). apply strongly_sorted_nodup. exact Hrs.
    + apply Forall_forall. intros i Hi. apply Hrr.
      apply (Permutation_in _ (Permutation_sym Hpf)). exact Hi.
  - intros h. cbn [fst snd].
    rewrite <- Hfst, <- Hsnd at 1.
    rewrite (map2_of_pairs h ps).
    assert (Hflip : map2 (fun j i => h i j) (map snd ps') (map fst ps')
                    = map (fun p => h (fst p) (snd p)) ps').
    { clear. induction ps' as [|p l IH]; simpl; [reflexivity|]. rewrite IH. reflexivity. }
    rewrite Hflip. apply Rsum_permutation. apply Permutation_map.
    apply Permutation_sym. exact Hperm.
Qed.

End Transposition.

Section Symmetry.
Import Metrics.

Lemma map2_swap {A B C} (f : A -> B -> C) (la : list A) (lb : list B) :
  map2 f la lb = map2 (fun b a => f a b) lb la.
Proof.
  revert lb. induction la as [|a la IH]; intros [|b lb]; simpl; try reflexivity.
  rewrite IH. reflexivity.
Qed.

Lemma cov_symmetric (a b : list R) : length a = length b -> cov a b = cov b a.
Proof.
  intros Hlen. unfold cov. rewrite Hlen. f_equal.
  rewrite (map2_swap _ a b). f_equal. apply map2_ext. intros u v _ _. ring.
Qed.

Lemma corr_entry_symmetric (a b : list R) :
  length a = length b -> corr_entry a b = corr_entry b a.
Proof.
  intros Hlen. unfold corr_entry, pearson_r. rewrite (cov_symmetric a b Hlen).
  destruct (Req_dec_T (cov a a) 0), (Req_dec_T (cov b b) 0); try reflexivity.
  do 2 f_equal. unfold Rdiv. ring.
Qed.

Lemma variable_length (method : string) (a : list R) :
  length (variable method a) = length a.
Proof.
  unfold variable, rankdata. destruct (String.eqb method "spearman");
    [apply length_map | reflexivity].
Qed.

Lemma columns_have_rows (x : tensor R) (n d : nat) (a : list R) :
  shape x = [n; d] -> In a (columns x) -> length a = n.
Proof.
  intros Hx Ha. unfold columns in Ha. apply in_map_iff in Ha.
  destruct Ha as [j [<- _]]. unfold column. rewrite length_map, length_seq, Hx.
  reflexivity.
Qed.

(** The block of [y] against [x] is the block of [x] against [y], turned. *)
Lemma cross_correlations_turned (method : string) (x y : tensor R) (n d1 d2 : nat) :
  shape x = [n; d1] -> shape y = [n; d2] ->
  cross_correlations method y x
  = map (fun b => map (fun a => corr_entry (variable method a) (variable method b))
                      (columns x))
        (columns y).
Proof.
  intros Hx Hy. unfold cross_correlations.
  apply map_ext_in. intros b Hb. apply map_ext_in. intros a Ha.
  apply corr_entry_symmetric. rewrite !variable_length.
  rewrite (columns_have_rows x n d1 a Hx Ha), (columns_have_rows y n d2 b Hy Hb).
  reflexivity.
Qed.

Lemma forallb_turned {A B} (p : A -> B -> bool) (la : list A) (lb : list B) :
  forallb (forallb (fun v => v)) (map (fun a => map (p a) lb) la)
  = forallb (forallb (fun v => v)) (map (fun b => map (fun a => p a b) la) lb).
Proof.
  apply eq_iff_eq_true. rewrite !forallb_forall. split; intros H r Hr.
  - apply in_map_iff in Hr. destruct Hr as [b [<- Hb]].
    apply forallb_forall. intros v Hv. apply in_map_iff in Hv.
    destruct Hv as [a [<- Ha]].
    specialize (H _ (in_map (fun a => map (p a) lb) la a Ha)).
    rewrite forallb_forall in H. apply H. apply in_map. exact Hb.
  - apply in_map_iff in Hr. destruct Hr as [a [<- Ha]].
    apply forallb_forall. intros v Hv. apply in_map_iff in Hv.
    destruct Hv as [b [<- Hb]].
    specialize (H _ (in_map (fun b => map (fun a => p a b) la) lb b Hb)).
    rewrite forallb_forall in H. apply H. apply (in_map (fun a => p a b)). exact Ha.
Qed.

Lemma finite_turned {A B} (g : A -> B -> npfloat) (la : list A) (lb : list B) :
  forallb (forallb is_finite) (map (fun a => map (g a) lb) la)
  = forallb (forallb is_finite) (map (fun b => map (fun a => g a b) la) lb).
Proof.
  pose proof (forallb_turned (fun a b => is_finite (g a b)) la lb) as H.
  assert (Hl : forall (T U : Type) (k : T -> U -> npfloat) (lt : list T) (lu : list U),
            forallb (forallb is_finite) (map (fun t => map (k t) lu) lt)
            = forallb (forallb (fun v => v))
                      (map (fun t => map (fun u => is_finite (k t u)) lu) lt)).
  { intros T U k lt lu. induction lt as [|t lt IH]; simpl; [reflexivity|].
    rewrite IH. f_equal.
    rewrite (forallb_map_id (k t) is_finite (fun u => is_finite (k t u)))
      by reflexivity.
    rewrite (forallb_map_id (fun u => is_finite (k t u)) (fun v => v)
               (fun u => is_finite (k t u))) by reflexivity.
    reflexivity. }
  rewrite (Hl A B g la lb), (Hl B A (fun b a => g a b) lb la). exact H.
Qed.

Lemma entry_turned {A B} (g : A -> B -> R) (la : list A) (lb : list B)
  (i j : nat) (da : A) (db : B) :
  (i < length la)%nat -> (j < length lb)%nat ->
  entry (map (fun b => map (fun a => g a b) la) lb) j i
  = entry (map (fun a => map (g a) lb) la) i j.
Proof.
  intros Hi Hj.
  rewrite (entry_at (fun b a => g a b) lb la j i db da Hi).
  rewrite (entry_at g la lb i j da db Hj).
  destruct (Nat.ltb_spec j (length lb)); [|lia].
  destruct (Nat.ltb_spec i (length la)); [|lia]. reflexivity.
Qed.

(** Turning the matrix does not change the best total. *)
Lemma best_total_turned {A B} (g : A -> B -> R) (la : list A) (lb : list B)
  (da : A) (db : B) (a a' : assignment) :
  max_total (map (fun u => map (g u) lb) la) (length la) (length lb) a ->
  max_total (map (fun v => map (fun u => g u v) la) lb) (length lb) (length la) a' ->
  total (map (fun u => map (g u) lb) la) a
  = total (map (fun v => map (fun u => g u v) la) lb) a'.
Proof.
  intros [Hva Hbest] [Hva' Hbest'].
  set (M := map (fun u => map (g u) lb) la) in *.
  set (M' := map (fun v => map (fun u => g u v) la) lb) in *.
  assert (Hturn : forall b b',
            valid_assignment (length lb) (length la) b' ->
            (forall h : nat -> nat -> R,
                Rsum (map2 (fun j i => h i j) (fst b') (snd b'))
                = Rsum (map2 h (fst b) (snd b))) ->
            total M' b' = total M b).
  { intros b b' [_ [_ [_ [Hr [_ Hc]]]]] Hh. unfold total. rewrite <- (Hh (entry M)).
    f_equal. apply map2_ext. intros j i Hj Hi.
    rewrite Forall_forall in Hr, Hc.
    apply (entry_turned g la lb i j da db); auto. }
  assert (Hback : forall b b',
            valid_assignment (length la) (length lb) b' ->
            (forall h : nat -> nat -> R,
                Rsum (map2 (fun j i => h i j) (fst b') (snd b'))
                = Rsum (map2 h (fst b) (snd b))) ->
            total M b' = total M' b).
  { intros b b' [_ [_ [_ [Hr [_ Hc]]]]] Hh. unfold total. rewrite <- (Hh (entry M')).
    f_equal. apply map2_ext. intros i j Hi Hj.
    rewrite Forall_forall in Hr, Hc. symmetry.
    apply (entry_turned g la lb i j da db); auto. }
  destruct (transposed_assignment _ _ a Hva) as [t [Hvt Ht]].
  destruct (transposed_assignment _ _ a' Hva') as [t' [Hvt' Ht']].
  pose proof (Hturn a t Hvt Ht) as H1. pose proof (Hbest' t Hvt) as H2.
  pose proof (Hback a' t' Hvt' Ht') as H3. pose proof (Hbest t' Hvt') as H4.
  lra.
Qed.

End Symmetry.

Section SymmetricScore.
Import Metrics.

Variable solver : list (list R) -> assignment.
Hypothesis solver_ok : solver_contract solver.

Lemma score_from_turned (method : string) (x y : tensor R) (n d1 d2 : nat) (rp : bool) :
  shape x = [n; d1] -> shape y = [n; d2] ->
  score_outcome (score_from solver (cross_correlations method x y) d1 y rp)
  = score_outcome (score_from solver (cross_correlations method y x) d2 x rp).
Proof.
  intros Hx Hy.
  set (g := fun a b => corr_entry (variable method a) (variable method b)).
  set (G := fun a b => Rabs (value (g a b))).
  assert (Hxy : cross_correlations method x y
                = map (fun a => map (g a) (columns y)) (columns x)) by reflexivity.
  pose proof (cross_correlations_turned method x y n d1 d2 Hx Hy) as Hyx.
  fold g in Hyx.
  assert (Hfin : forallb (forallb is_finite) (cross_correlations method y x)
                 = forallb (forallb is_finite) (cross_correlations method x y))
    by (rewrite Hyx, Hxy; symmetry; apply finite_turned).
  assert (Hx1 : nth_error (shape x) 1 = Some d1) by (rewrite Hx; reflexivity).
  assert (Hy1 : nth_error (shape y) 1 = Some d2) by (rewrite Hy; reflexivity).
  destruct (forallb (forallb is_finite) (cross_correlations method x y)) eqn:Hf.
  - destruct (score_from_finite solver solver_ok _ d1 d2 y rp
                (cross_correlations_dims method x y n n d1 d2 Hx Hy) Hy1 Hf)
      as [Hrun [Hmin _]].
    destruct (score_from_finite solver solver_ok _ d2 d1 x rp
                (cross_correlations_dims method y x n n d2 d1 Hy Hx) Hx1 Hfin)
      as [Hrun' [Hmin' _]].
    cbv zeta in Hrun, Hrun'. rewrite Hrun, Hrun'.
    apply min_cost_max_total in Hmin, Hmin'.
    assert (HA : map (map (fun v => Rabs (value v))) (cross_correlations method x y)
                 = map (fun a => map (G a) (columns y)) (columns x)).
    { rewrite Hxy, map_map. apply map_ext. intros a. rewrite map_map. reflexivity. }
    assert (HA' : map (map (fun v => Rabs (value v))) (cross_correlations method y x)
                  = map (fun b => map (fun a => G a b) (columns x)) (columns y)).
    { rewrite Hyx, map_map. apply map_ext. intros b. rewrite map_map. reflexivity. }
    rewrite HA in *. rewrite HA' in *.
    rewrite <- (columns_length x n d1 Hx) in Hmin, Hmin'.
    rewrite <- (columns_length y n d2 Hy) in Hmin, Hmin'.
    rewrite (best_total_turned G (columns x) (columns y) [] [] _ _ Hmin Hmin').
    rewrite (Nat.max_comm d2 d1).
    unfold score_outcome. destruct rp; reflexivity.
  - rewrite (score_from_nan solver _ d1 y rp Hf).
    rewrite (score_from_nan solver _ d2 x rp Hfin). reflexivity.
Qed.

Lemma score_outcome_cons (c : call) (t u : traced mcc_value) :
  score_outcome t = score_outcome u ->
  score_outcome (c :: fst t, snd t) = score_outcome (c :: fst u, snd u).
Proof.
  unfold score_outcome. cbn [fst snd]. intros H. inversion H as [[Ht Hs]].
  rewrite Ht, Hs. reflexivity.
Qed.

Lemma existsb_nonconstant (l : list (list R)) :
  Forall nonconstant l -> existsb is_constant l = false.
Proof.
  induction 1 as [|a l Ha _ IH]; [reflexivity|].
  cbn [existsb]. rewrite (nonconstant_not_constant a Ha), IH. reflexivity.
Qed.

Lemma mean_corr_coef_swapped (x y : tensor R) (method : string) (rp : bool)
  (n d1 d2 : nat) :
  shape x = [n; d1] -> shape y = [n; d2] ->
  n <> 1%nat -> (0 < d1)%nat -> (0 < d2)%nat ->
  method = "pearson"%string
  \/ (method = "spearman"%string
      /\ Forall nonconstant (columns x) /\ Forall nonconstant (columns y)) ->
  score_outcome (mean_corr_coef solver x y method rp)
  = score_outcome (mean_corr_coef solver y x method rp).
Proof.
  intros Hx Hy Hn Hd1 Hd2 [-> | [-> [Hcx Hcy]]].
  - rewrite (mean_corr_coef_pearson_columns solver x y n d1 d2 rp Hx Hy Hn Hd1 Hd2).
    rewrite (mean_corr_coef_pearson_columns solver y x n d2 d1 rp Hy Hx Hn Hd2 Hd1).
    apply score_outcome_cons. apply (score_from_turned "pearson" x y n d1 d2 rp Hx Hy).
  - destruct (Nat.eq_dec (d1 + d2) 2) as [Htwo|Htwo].
    + rewrite (mean_corr_coef_spearman solver x y n n d1 d2 rp Hx Hy).
      rewrite (mean_corr_coef_spearman solver y x n n d2 d1 rp Hy Hx).
      rewrite Nat.eqb_refl.
      rewrite !spearman_rho_two
        by (rewrite length_app, (columns_length x n d1 Hx), (columns_length y n d2 Hy);
            lia).
      rewrite !existsb_nonconstant by (apply Forall_app; split; assumption).
      destruct (n <=? 1)%nat; reflexivity.
    + rewrite (mean_corr_coef_spearman_columns solver x y n d1 d2 rp Hx Hy)
        by (auto; lia).
      rewrite (mean_corr_coef_spearman_columns solver y x n d2 d1 rp Hy Hx)
        by (auto; lia).
      apply score_outcome_cons. apply (score_from_turned "spearman" x y n d1 d2 rp Hx Hy).
Qed.

End SymmetricScore.

Section SymmetricScoreClaim.
Import Metrics.

(** X21.  For [x] and [y] with as many rows, not a single one, and one
    column at least each, the score is symmetric: mean_corr_coef(y, x) makes
    the same library calls and gives the same score, or the same error, as
    mean_corr_coef(x, y).  This holds for "pearson", and for "spearman" when
    no column is constant. *)
Theorem mean_corr_coef_symmetric (solver : list (list R) -> assignment)
  (x y : tensor R) (method : string) (rp : bool) (n d1 d2 : nat) :
  solver_contract solver ->
  shape x = [n; d1] -> shape y = [n; d2] ->
  n <> 1%nat -> (0 < d1)%nat -> (0 < d2)%nat ->
  method = "pearson"%string
  \/ (method = "spearman"%string
      /\ Forall nonconstant (columns x) /\ Forall nonconstant (columns y)) ->
  score_outcome (mean_corr_coef solver x y method rp)
  = score_outcome (mean_corr_coef solver y x method rp).
Proof.
  intros Hok Hx Hy Hn Hd1 Hd2 Hm. eapply mean_corr_coef_swapped; eauto.
Qed.

Lemma mean_corr_coef_symmetric_witness :
  score_outcome (mean_corr_coef exhaustive_solver Examples.x3 Examples.y3 "pearson" true)
  = score_outcome (mean_corr_coef exhaustive_solver Examples.y3 Examples.x3 "pearson" true).
Proof.
  apply (mean_corr_coef_symmetric exhaustive_solver Examples.x3 Examples.y3
           "pearson" true 3 2 2).
  - exact exhaustive_solver_contract.
  - reflexivity.
  - reflexivity.
  - lia.
  - lia.
  - lia.
  - left. reflexivity.
Defined.

End SymmetricScoreClaim.

Section LibraryOnSamples.
Import Metrics Examples.

Lemma corr_entry_ramp_wide : corr_entry [1; 2] [3; 5] = Fin 1.
Proof.
  assert (Ha : cov [1; 2] [1; 2] = 1 / 2) by (unfold cov, mean; simpl; field).
  assert (Hb : cov [3; 5] [3; 5] = 2) by (unfold cov, mean; simpl; field).
  assert (Hab : cov [1; 2] [3; 5] = 1) by (unfold cov, mean; simpl; field).
  unfold corr_entry, pearson_r. rewrite Ha, Hb, Hab.
  destruct (Req_dec_T (1 / 2) 0); [lra|]. destruct (Req_dec_T 2 0); [lra|].
  f_equal.
  assert (Hs : sqrt (1 / 2) * sqrt 2 = 1).
  { rewrite <- sqrt_mult by lra. replace (1 / 2 * 2) with 1 by lra. apply sqrt_1. }
  assert (Hp : 0 < sqrt (1 / 2)) by (apply sqrt_lt_R0; lra).
  assert (Hq : 0 < sqrt 2) by (apply sqrt_lt_R0; lra).
  set (a := sqrt (1 / 2)) in *. set (b := sqrt 2) in *.
  assert (Hone : 1 / a / b = 1).
  { replace (1 / a / b) with (1 / (a * b)) by (field; lra). rewrite Hs. lra. }
  rewrite Hone. unfold clip, Rmin, Rmax.
  destruct (Rle_dec (-1) 1); destruct (Rle_dec 1 _); lra.
Qed.

(** A target of one row is one variable for np.corrcoef: the column of
    [ramp] is scored against the row of [wide]. *)
Example mean_corr_coef_one_row_target :
  mean_corr_coef exhaustive_solver ramp wide "pearson" false
  = ([call_corrcoef; call_linear_sum_assignment], ok (score_only (Fin (1 / 2)))).
Proof.
  rewrite (mean_corr_coef_pearson exhaustive_solver ramp wide 2 1 1 2 false)
    by reflexivity.
  cbn [Nat.eqb].
  assert (Hcc : row_correlations ramp wide = [[Fin 1]])
    by (unfold row_correlations, columns, column, rows; simpl;
        rewrite corr_entry_ramp_wide; reflexivity).
  rewrite Hcc.
  destruct (score_from_finite_block exhaustive_solver exhaustive_solver_contract
              [[Fin 1]] 1 1 2 wide false) as [Hrun [[Hvalid _] _]];
    [split; [reflexivity | repeat constructor] | reflexivity | reflexivity |].
  cbv zeta in Hrun. rewrite Hrun. cbn [fst snd]. do 3 f_equal.
  cbn [map value] in *.
  destruct Hvalid as [Hrl [Hcl [_ [Hrr [_ Hcr]]]]].
  destruct (exhaustive_solver [[-1 * Rabs 1]]) as [rs cs]. cbn [fst snd] in *.
  destruct rs as [|i [|i' rs]]; simpl in Hrl; try discriminate.
  destruct cs as [|j [|j' cs]]; simpl in Hcl; try discriminate.
  inversion Hrr as [|? ? Hi _]; inversion Hcr as [|? ? Hj _]; subst.
  assert (i = 0%nat) by lia. assert (j = 0%nat) by lia. subst.
  unfold fdiv_nat, total, entry. simpl. rewrite Rabs_R1. f_equal. lra.
Qed.

(** Two arrays of one row each: the first is transposed, the second is
    not, and they cannot be stacked. *)
Example mean_corr_coef_one_row_each :
  mean_corr_coef exhaustive_solver wide wide "pearson" false
  = ([call_corrcoef], raise (ValueError stack_message)).
Proof.
  rewrite (mean_corr_coef_pearson exhaustive_solver wide wide 1 1 2 2 false)
    by reflexivity.
  reflexivity.
Qed.

(** The same two arrays reach the solver in one order only. *)
Example mean_corr_coef_one_row_order :
  mean_corr_coef exhaustive_solver wide single "pearson" false
  = ([call_corrcoef; call_linear_sum_assignment],
     raise (ValueError "matrix contains invalid numeric entries"))
  /\ mean_corr_coef exhaustive_solver single wide "pearson" false
     = ([call_corrcoef], raise (ValueError stack_message)).
Proof.
  split.
  - rewrite (mean_corr_coef_pearson exhaustive_solver wide single 1 1 2 1 false)
      by reflexivity.
    cbn [Nat.eqb].
    rewrite (score_from_nan exhaustive_solver _ 2 single false
               (row_correlations_nan wide single 1 2 1 eq_refl eq_refl
                  ltac:(lia) ltac:(lia))).
    reflexivity.
  - rewrite (mean_corr_coef_pearson exhaustive_solver single wide 1 1 1 2 false)
      by reflexivity.
    reflexivity.
Qed.

(** One column against none: the correlation of a single variable is a
    number, which cannot be sliced. *)
Example mean_corr_coef_one_column_against_none :
  mean_corr_coef exhaustive_solver ramp hollow "pearson" false
  = ([call_corrcoef], raise IndexError).
Proof.
  rewrite (mean_corr_coef_pearson exhaustive_solver ramp hollow 2 2 1 0 false)
    by reflexivity.
  reflexivity.
Qed.

Lemma cov_level (r : R) : cov [r; r; r] [r; r; r] = 0.
Proof. unfold cov, mean. simpl. field. Qed.

(** With "spearman" a constant column that is stacked first ends in a
    TypeError after spearmanr; stacked third it ends in the ValueError of
    the solver. *)
Example mean_corr_coef_spearman_constant_column :
  mean_corr_coef exhaustive_solver level x3 "spearman" false
  = ([call_spearmanr], raise TypeError)
  /\ mean_corr_coef exhaustive_solver x3 level "spearman" false
     = ([call_spearmanr; call_linear_sum_assignment],
        raise (ValueError "matrix contains invalid numeric entries")).
Proof.
  assert (Hlevel : is_constant [1; 1; 1] = true).
  { unfold is_constant. simpl. destruct (Req_dec_T 1 1); [reflexivity | contradiction]. }
  pose proof x3_nonconstant as Hx. inversion Hx as [|a0 l0 Ha0 Hx']; subst.
  inversion Hx' as [|a1 l1 Ha1 _]; subst.
  split.
  - rewrite (mean_corr_coef_spearman exhaustive_solver level x3 3 3 1 2 false)
      by reflexivity.
    cbn [Nat.eqb].
    change (columns level ++ columns x3)
      with ([1; 1; 1] :: columns x3).
    unfold spearman_rho. cbn [Nat.leb]. rewrite Hlevel. reflexivity.
  - rewrite (mean_corr_coef_spearman exhaustive_solver x3 level 3 3 2 1 false)
      by reflexivity.
    cbn [Nat.eqb].
    rewrite (spearman_rho_matrix (columns x3 ++ columns level) 3);
      [| lia | simpl; lia
       | apply nonconstant_not_constant; exact Ha0
       | apply nonconstant_not_constant; exact Ha1].
    unfold ok. cbv iota.
    rewrite (spearman_block x3 level 3 2 eq_refl).
    rewrite score_from_nan; [reflexivity|].
    unfold cross_correlations, variable.
    cbn [String.eqb Ascii.eqb Bool.eqb].
    change (columns level) with [[1; 1; 1]].
    change (columns x3) with [column x3 0; column x3 1].
    cbn [map forallb].
    rewrite corr_entry_zero_column; [reflexivity|].
    unfold rankdata. cbn [map]. apply cov_level.
Qed.

(** A size of 2 ** 63 does not fit 64 bits. *)
Example reset_rejects_large_task_num :
  snd (ContextModel.reset
         (ContextModel.mk true 2 3 1 (Tensor.mk [3%nat; 2%nat] [1; 2; 3; 4; 5; 6] cpu))
         (Some (2 ^ 63)%Z) (ContextModel.mk_generator (fun _ => 0) 0 100))
  = raise TypeError.
Proof. reflexivity. Qed.

End LibraryOnSamples.

Section WorldModelForward.
Import PlainMDPWorldModel.

Lemma not_legacy_empty {A} (t : tensor A) (batch : list nat) (p : nat) :
  shape t = batch ++ [p] -> (0 < p)%nat -> is_legacy_empty t = false.
Proof.
  intros Hs Hp. unfold is_legacy_empty. rewrite Hs.
  destruct batch as [|b0 [|b1 r]]; simpl.
  - destruct p; [lia | reflexivity].
  - destruct b0; reflexivity.
  - destruct b0; reflexivity.
Qed.

(** [torch.cat] of an observation, an action and the empty embedding. *)
Lemma cat_observation_action (obs act e : tensor R) (batch : list nat) (p q : nat) :
  shape obs = batch ++ [p] -> shape act = batch ++ [q] ->
  (0 < p)%nat -> (0 < q)%nat ->
  dev act = dev obs -> dev e = dev obs -> shape e = [0%nat] ->
  cat_last [obs; act; e]
  = ok (Tensor.mk (batch ++ [(p + q)%nat])
                  (concat (map2 (@app R) (chunks p (numel (rev batch)) (data obs))
                                         (chunks q (numel (rev batch)) (data act))))
                  (dev obs)).
Proof.
  intros Ho Ha Hp Hq Hda Hde He.
  unfold cat_last. cbn [forallb]. rewrite Hda, Hde, device_eqb_refl. cbn [andb].
  assert (Hne : shape obs <> []) by (rewrite Ho; destruct batch; discriminate).
  destruct (shape obs) as [|s0 srest] eqn:Hso; [contradiction|]. rewrite <- Hso in *.
  cbn [cat_from].
  rewrite (not_legacy_empty act batch q Ha Hq), (not_legacy_empty obs batch p Ho Hp).
  unfold cat2_last. rewrite Ho, Ha, !rev_app_distr. cbn [rev app].
  destruct (list_eq_dec Nat.eq_dec (rev batch) (rev batch)) as [_|Hc]; [|contradiction].
  cbn [bind ok]. rewrite rev_involutive.
  assert (Hempty : forall acc : tensor R,
            is_legacy_empty e = true) by (intros; unfold is_legacy_empty; rewrite He; reflexivity).
  rewrite (Hempty obs). reflexivity.
Qed.

Lemma half_of_even (k : nat) : ((2 * k + 1) / 2 = k)%nat.
Proof.
  symmetry. apply (Nat.div_unique (2 * k + 1) 2 k 1); lia.
Qed.

Lemma chunk2_halves (out : tensor R) (N k : nat) :
  shape out = [N; (2 * k)%nat] -> wf out -> (0 < k)%nat ->
  exists mean log_var,
    chunk2_last out = ok (mean, log_var)
    /\ shape mean = [N; k] /\ shape log_var = [N; k]
    /\ wf mean /\ wf log_var
    /\ dev mean = dev out /\ dev log_var = dev out.
Proof.
  intros Hs Hwf Hk. unfold chunk2_last. rewrite Hs. cbn [rev app].
  destruct (Nat.eqb_spec (2 * k) 1) as [Hone|_]; [lia|].
  rewrite half_of_even. replace (2 * k - k)%nat with k by lia.
  do 2 eexists. split; [reflexivity|]. cbn [shape data dev rev app].
  unfold wf in *. rewrite Hs in Hwf. cbn [shape data numel fold_right] in *.
  assert (Hblocks : Forall (fun b => length b = (2 * k)%nat)
                           (chunks (2 * k) (N * 1) (data out)))
    by (apply chunks_block_length; lia).
  rewrite Forall_forall in Hblocks.
  repeat split.
  - rewrite (flat_map_length_const _ k).
    + rewrite chunks_length. lia.
    + intros b Hb. rewrite length_firstn, (Hblocks b Hb). lia.
  - rewrite (flat_map_length_const _ k).
    + rewrite chunks_length. lia.
    + intros b Hb. rewrite length_skipn, (Hblocks b Hb). lia.
Qed.

Lemma reshape_rows_of_batch (t : tensor R) (batch : list nat) (w : nat) :
  shape t = batch ++ [w] -> (0 < w)%nat ->
  reshape_rows t w = ok (Tensor.mk [numel batch; w] (data t) (dev t)).
Proof.
  intros Hs Hw. unfold reshape_rows. rewrite Hs, numel_app. cbn [numel fold_right].
  rewrite Nat.mul_1_r.
  destruct (Nat.eqb_spec w 0); [lia|].
  rewrite Nat.Div0.mod_mul, Nat.eqb_refl, Nat.div_mul by lia. reflexivity.
Qed.

(** X22.  Without meta mode and without a task index, [forward] on a batch
    of observations of shape [batch ++ [obs_dim]] and actions of shape
    [batch ++ [action_dim]] feeds the network one row per transition, of
    width [obs_dim + action_dim]; when the network answers with rows of
    width [2 * (obs_dim + 2)], [forward] returns a next-observation mean and
    log-variance of the observation's shape and a reward mean, reward
    log-variance and termination of shape [batch ++ [1]]. *)
Theorem forward_output_shapes (self : t) (context_model : ContextModel.t)
  (mlp : tensor R -> result (tensor R)) (observation action : tensor R)
  (batch : list nat) (action_dim : nat) :
  ContextModel.meta context_model = false ->
  shape observation = batch ++ [obs_dim self] ->
  shape action = batch ++ [action_dim] ->
  (0 < obs_dim self)%nat -> (0 < action_dim)%nat ->
  wf observation -> wf action ->
  dev action = dev observation ->
  dev (ContextModel.context_hat context_model) = dev observation ->
  (forall flat,
      shape flat = [numel batch; (obs_dim self + action_dim)%nat] -> wf flat ->
      dev flat = dev observation ->
      exists out,
        mlp flat = ok out
        /\ shape out = [numel batch; (2 * (obs_dim self + 2))%nat]
        /\ wf out /\ dev out = dev flat) ->
  exists out,
    forward self context_model mlp observation action None = ok out
    /\ shape (next_obs_mean out) = shape observation
    /\ shape (next_obs_log_var out) = shape observation
    /\ shape (reward_mean out) = batch ++ [1%nat]
    /\ shape (reward_log_var out) = batch ++ [1%nat]
    /\ shape (terminated out) = batch ++ [1%nat].
Proof.
  intros Hmeta Ho Ha Hpo Hpa Hwo Hwa Hda Hdc Hmlp.
  unfold forward, ContextModel.forward. rewrite Hmeta. cbn [bind ok].
  rewrite (cat_observation_action observation action
             (to empty0 (dev (ContextModel.context_hat context_model)))
             batch (obs_dim self) action_dim Ho Ha Hpo Hpa Hda Hdc eq_refl).
  cbn [bind ok shape]. rewrite removelast_last.
  unfold last_dim. cbn [shape]. rewrite rev_app_distr. cbn [rev app bind ok].
  set (inputs := Tensor.mk (batch ++ [(obs_dim self + action_dim)%nat])
                   (concat (map2 (@app R)
                              (chunks (obs_dim self) (numel (rev batch)) (data observation))
                              (chunks action_dim (numel (rev batch)) (data action))))
                   (dev observation)).
  rewrite (reshape_rows_of_batch inputs batch (obs_dim self + action_dim) eq_refl)
    by lia.
  cbn [bind ok].
  assert (Hwf : wf (Tensor.mk [numel batch; (obs_dim self + action_dim)%nat]
                              (data inputs) (dev inputs))).
  { unfold wf, inputs. cbn [shape data numel fold_right].
    unfold wf in Hwo, Hwa. rewrite Ho, numel_app in Hwo. rewrite Ha, numel_app in Hwa.
    cbn [numel fold_right] in Hwo, Hwa. rewrite numel_rev.
    rewrite interleaved_length; lia. }
  destruct (Hmlp (Tensor.mk [numel batch; (obs_dim self + action_dim)%nat]
                            (data inputs) (dev inputs)) eq_refl Hwf eq_refl)
    as [out [Hrun [Hso [Hwout Hdout]]]].
  rewrite Hrun. cbn [bind ok].
  destruct (chunk2_halves out (numel batch) (obs_dim self + 2) Hso Hwout ltac:(lia))
    as [mean [log_var [Hchunk [Hsm [Hsl [Hwm [Hwl [Hdm Hdl]]]]]]]].
  rewrite Hchunk. cbn [bind ok].
  destruct (get_outputs_parts self mean log_var observation batch Hsm Hsl Hwm Hwl)
    as [res [Hres [H1 [H2 [H3 [H4 [H5 _]]]]]]].
  { intros _. split; [exact Ho|]. split; [exact Hwo|].
    rewrite Hdm, Hdout. reflexivity. }
  exists res. rewrite Ho. auto 10.
Qed.

Lemma forward_output_shapes_witness :
  exists out,
    forward (mk 2 true true (-10, 1 / 2))
            (ContextModel.mk false 0 0 0 (Tensor.mk [0%nat; 0%nat] [] cpu))
            (fun flat => ok (Tensor.mk [hd 0%nat (shape flat); 8%nat]
                                       (repeat 0 (hd 0%nat (shape flat) * 8)) (dev flat)))
            (Tensor.mk [1%nat; 2%nat] [1; 2] cpu)
            (Tensor.mk [1%nat; 1%nat] [3] cpu) None = ok out
    /\ shape (next_obs_mean out) = [1%nat; 2%nat]
    /\ shape (next_obs_log_var out) = [1%nat; 2%nat]
    /\ shape (reward_mean out) = [1%nat; 1%nat]
    /\ shape (reward_log_var out) = [1%nat; 1%nat]
    /\ shape (terminated out) = [1%nat; 1%nat].
Proof.
  apply (forward_output_shapes (mk 2 true true (-10, 1 / 2))
           (ContextModel.mk false 0 0 0 (Tensor.mk [0%nat; 0%nat] [] cpu))
           (fun flat => ok (Tensor.mk [hd 0%nat (shape flat); 8%nat]
                                      (repeat 0 (hd 0%nat (shape flat) * 8)) (dev flat)))
           (Tensor.mk [1%nat; 2%nat] [1; 2] cpu)
           (Tensor.mk [1%nat; 1%nat] [3] cpu) [1%nat] 1%nat).
  - reflexivity.
  - reflexivity.
  - reflexivity.
  - simpl. lia.
  - lia.
  - reflexivity.
  - reflexivity.
  - reflexivity.
  - reflexivity.
  - intros flat Hs Hwf Hd. eexists. split; [reflexivity|].
    rewrite Hs. repeat split.
Defined.

End WorldModelForward.
